(** * pik: the scalar SIMD backend and the cache-aligned allocator

    A shallow embedding of [simd/scalar.h] (single-lane vectors) and of
    [cache_aligned.h] (the allocator that hands out 64-byte aligned
    memory), with the properties of their natural-language specification
    stated and settled against the code.

    Conventions.
    - [scalar<T>] wraps one [raw] value of type [T] and is identified with
      it; an overloaded function is one definition per overload, gathered
      by a function of the lane type where a property ranges over types.
    - A lane of an integer type is the mathematical value it holds, a [Z]
      inside the range of the type; conversions between integer types
      wrap as the target does (two's complement).
    - A lane of type [float] or [double] is its IEEE-754 bit pattern, a [Z]
      below [2^32] or [2^64]: the code itself moves between a float and
      its bits with [CopyBytes].  Arithmetic and comparisons on floats go
      through the Standard Library's [SpecFloat], which has one NaN.
    - The target is LP64 and little-endian (x86-64, as the Makefile's
      flags say): [int] has 32 bits, pointers and [size_t] have 64. *)

From Stdlib Require Import ZArith Lia List Bool SpecFloat.
From stdpp Require Import gmap.

Local Open Scope Z_scope.

(** ** Bytes in memory *)

Module Bytes.

(** The [n] bytes of [x], least significant first (the target is
    little-endian); a byte is a number below 256. *)
Fixpoint le_bytes (n : nat) (x : Z) : list Z :=
  match n with
  | O => []
  | S n' => x mod 256 :: le_bytes n' (x / 256)
  end.

(** The number a sequence of bytes stands for. *)
Fixpoint le_value (l : list Z) : Z :=
  match l with
  | [] => 0
  | b :: t => b + 256 * le_value t
  end.

(** Modelled from the spec: [CopyBytes<kBytes>(from, to)] is defined in
    simd.h, which is not among the sources; the code uses it where the spec
    speaks of reinterpreting bytes, as a [memcpy] of [kBytes] bytes.  [to]
    is the memory that starts at the destination address: the first
    [kBytes] bytes of it are overwritten, whatever object they belong to. *)
Definition CopyBytes (kBytes : nat) (from to : list Z) : list Z :=
  firstn kBytes from ++ skipn kBytes to.

End Bytes.

(** ** Lane types *)

Module Scalar.
Import Bytes.

(** The element types [scalar<T>] is instantiated with. *)
Inductive LaneType :=
  | U8 | U16 | U32 | U64
  | I8 | I16 | I32 | I64
  | F32 | F64.

Definition sizeof (T : LaneType) : Z :=
  match T with
  | U8 | I8 => 1
  | U16 | I16 => 2
  | U32 | I32 | F32 => 4
  | U64 | I64 | F64 => 8
  end.

Definition bit_width (T : LaneType) : Z := sizeof T * 8.

Definition IsSigned (T : LaneType) : bool :=
  match T with I8 | I16 | I32 | I64 => true | _ => false end.

(** [LimitsMin] and [LimitsMax] of the integer types; for a float type the
    bounds are those of its bit pattern. *)
Definition LimitsMin (T : LaneType) : Z :=
  if IsSigned T then - 2 ^ (bit_width T - 1) else 0.

Definition LimitsMax (T : LaneType) : Z :=
  if IsSigned T then 2 ^ (bit_width T - 1) - 1 else 2 ^ bit_width T - 1.

(** The values a lane of type [T] can hold. *)
Definition lane (T : LaneType) (x : Z) : Prop :=
  LimitsMin T <= x <= LimitsMax T.

(** Conversion of an integer to [T], as [static_cast<T>] and the implicit
    conversions do it: reduction modulo [2^bit_width], read back as signed
    when [T] is. *)
Definition wrap (T : LaneType) (x : Z) : Z :=
  if IsSigned T
  then (x + 2 ^ (bit_width T - 1)) mod 2 ^ bit_width T - 2 ^ (bit_width T - 1)
  else x mod 2 ^ bit_width T.

(** The object representation of a lane, read as an unsigned number. *)
Definition bits_of (T : LaneType) (x : Z) : Z := x mod 2 ^ bit_width T.

(** Integer promotion: operands narrower than [int] are computed in [int]. *)
Definition promote (T : LaneType) : LaneType :=
  match T with
  | U8 | U16 | I8 | I16 => I32
  | _ => T
  end.

(** Modelled from the spec: the macros [SIMD_MIN] and [SIMD_MAX] are defined
    in simd.h, which is not among the sources; the spec calls them the
    minimum and the maximum of their arguments, written here as the usual
    conditional expressions. *)
Definition SIMD_MIN (a b : Z) : Z := if a <? b then a else b.
Definition SIMD_MAX (a b : Z) : Z := if a <? b then b else a.

(** *** Saturating addition and subtraction

    [a.raw + b.raw] is computed in [int] after promotion. *)

Definition add_sat_u8 (a b : Z) : Z :=
  wrap U8 (SIMD_MIN (SIMD_MAX 0 (wrap I32 (a + b))) 255).
Definition add_sat_u16 (a b : Z) : Z :=
  wrap U16 (SIMD_MIN (SIMD_MAX 0 (wrap I32 (a + b))) 65535).
Definition add_sat_i8 (a b : Z) : Z :=
  wrap I8 (SIMD_MIN (SIMD_MAX (-128) (wrap I32 (a + b))) 127).
Definition add_sat_i16 (a b : Z) : Z :=
  wrap I16 (SIMD_MIN (SIMD_MAX (-32768) (wrap I32 (a + b))) 32767).

Definition sub_sat_u8 (a b : Z) : Z :=
  wrap U8 (SIMD_MIN (SIMD_MAX 0 (wrap I32 (a - b))) 255).
Definition sub_sat_u16 (a b : Z) : Z :=
  wrap U16 (SIMD_MIN (SIMD_MAX 0 (wrap I32 (a - b))) 65535).
Definition sub_sat_i8 (a b : Z) : Z :=
  wrap I8 (SIMD_MIN (SIMD_MAX (-128) (wrap I32 (a - b))) 127).
Definition sub_sat_i16 (a b : Z) : Z :=
  wrap I16 (SIMD_MIN (SIMD_MAX (-32768) (wrap I32 (a - b))) 32767).

(** Overload resolution: [None] where no overload exists. *)
Definition add_sat (T : LaneType) (a b : Z) : option Z :=
  match T with
  | U8 => Some (add_sat_u8 a b)
  | U16 => Some (add_sat_u16 a b)
  | I8 => Some (add_sat_i8 a b)
  | I16 => Some (add_sat_i16 a b)
  | _ => None
  end.

Definition sub_sat (T : LaneType) (a b : Z) : option Z :=
  match T with
  | U8 => Some (sub_sat_u8 a b)
  | U16 => Some (sub_sat_u16 a b)
  | I8 => Some (sub_sat_i8 a b)
  | I16 => Some (sub_sat_i16 a b)
  | _ => None
  end.

(** *** Bitwise operations

    The generic templates compute on the promoted operands and convert the
    result back to [T]; the [float] and [double] specialisations go
    through [BitwiseOp], which copies the lanes into integers of the same
    size, applies the operation there and copies the result back. *)

Definition BitwiseOp (Bits : LaneType) (op : Z -> Z -> Z) (a b : Z) : Z :=
  let ia := wrap Bits a in
  let ib := wrap Bits b in
  let ia := wrap Bits (op ia ib) in
  bits_of Bits ia.

Definition op_and (T : LaneType) (a b : Z) : Z :=
  match T with
  | F32 => BitwiseOp I32 (fun i j => Z.land i j) a b
  | F64 => BitwiseOp I64 (fun i j => Z.land i j) a b
  | _ => wrap T (Z.land a b)
  end.

Definition andnot (T : LaneType) (a b : Z) : Z :=
  match T with
  | F32 => BitwiseOp I32 (fun i j => Z.land (wrap I32 (Z.lnot i)) j) a b
  | F64 => BitwiseOp I64 (fun i j => Z.land (wrap I64 (Z.lnot i)) j) a b
  | _ => wrap T (Z.land (wrap (promote T) (Z.lnot a)) b)
  end.

Definition op_or (T : LaneType) (a b : Z) : Z :=
  match T with
  | F32 => BitwiseOp I32 (fun i j => Z.lor i j) a b
  | F64 => BitwiseOp I64 (fun i j => Z.lor i j) a b
  | _ => wrap T (Z.lor a b)
  end.

Definition op_xor (T : LaneType) (a b : Z) : Z :=
  match T with
  | F32 => BitwiseOp I32 (fun i j => Z.lxor i j) a b
  | F64 => BitwiseOp I64 (fun i j => Z.lxor i j) a b
  | _ => wrap T (Z.lxor a b)
  end.

(** Returns mask ? b : a. *)
Definition select (T : LaneType) (a b mask : Z) : Z :=
  op_or T (op_and T mask b) (andnot T mask a).

(** The two masks: [T(0)] and [~T(0)]. *)
Definition all_zero_mask (T : LaneType) : Z := 0.
Definition all_one_mask (T : LaneType) : Z := wrap T (Z.lnot 0).

(** *** Object representations

    The bytes of a lane, and the lane a sequence of bytes stands for. *)
Definition object_bytes (T : LaneType) (x : Z) : list Z :=
  le_bytes (Z.to_nat (sizeof T)) (bits_of T x).

Definition lane_of_bytes (T : LaneType) (l : list Z) : Z :=
  wrap T (le_value l).

(** *** Comparison results

    Comparisons fill a lane with 1-bits if the condition is true, else 0.
    Modelled from the spec: [SetBytes(byte, &ret)] is defined in simd.h,
    which is not among the sources; it sets every byte of [ret] to
    [byte]. *)
Definition ComparisonResult (T : LaneType) (result : bool) : Z :=
  lane_of_bytes T
    (repeat (if result then 0xFF else 0) (Z.to_nat (sizeof T))).

(** *** Cast *)

(** [cast_to] declares a local [T to], copies into it and returns it.
    [stack] is the memory from the address of [to] upwards: its first
    [sizeof(T)] bytes are [to], the following ones belong to other
    objects.  The result is the lane returned and the memory afterwards;
    [None] stands for the static assertion rejecting the instantiation. *)
Definition cast_to (T FromT : LaneType) (v : Z) (stack : list Z)
  : option (Z * list Z) :=
  if sizeof T <=? sizeof FromT then
    let stack' :=
      CopyBytes (Z.to_nat (sizeof FromT)) (object_bytes FromT v) stack in
    let to := firstn (Z.to_nat (sizeof T)) stack' in
    Some (lane_of_bytes T to, stack')
  else None.

(** *** Zip

    [uint32_t(b.raw) << n] and the sum are unsigned; [a.raw] reaches the
    sum through the usual arithmetic conversions, which turn it into the
    same unsigned type. *)

Definition zip_lo_u8 (a b : Z) : Z :=
  wrap U16 (wrap U32 (wrap U32 (Z.shiftl (wrap U32 b) 8) + wrap U32 a)).
Definition zip_lo_u16 (a b : Z) : Z :=
  wrap U32 (wrap U32 (wrap U32 (Z.shiftl (wrap U32 b) 16) + wrap U32 a)).
Definition zip_lo_u32 (a b : Z) : Z :=
  wrap U64 (wrap U64 (wrap U64 (Z.shiftl (wrap U64 b) 32) + wrap U64 a)).
Definition zip_lo_i8 (a b : Z) : Z :=
  wrap I16 (wrap U32 (wrap U32 (Z.shiftl (wrap U32 b) 8) + wrap U32 a)).
Definition zip_lo_i16 (a b : Z) : Z :=
  wrap I32 (wrap U32 (wrap U32 (Z.shiftl (wrap U32 b) 16) + wrap U32 a)).
Definition zip_lo_i32 (a b : Z) : Z :=
  wrap I64 (wrap U64 (wrap U64 (Z.shiftl (wrap U64 b) 32) + wrap U64 a)).

Definition zip_lo (T : LaneType) (a b : Z) : option Z :=
  match T with
  | U8 => Some (zip_lo_u8 a b)
  | U16 => Some (zip_lo_u16 a b)
  | U32 => Some (zip_lo_u32 a b)
  | I8 => Some (zip_lo_i8 a b)
  | I16 => Some (zip_lo_i16 a b)
  | I32 => Some (zip_lo_i32 a b)
  | _ => None
  end.

Definition zip_hi (T : LaneType) (a b : Z) : option Z := zip_lo T a b.

Definition has_zip (T : LaneType) : bool :=
  match T with U8 | U16 | U32 | I8 | I16 | I32 => true | _ => false end.

(** The type of a zipped pair. *)
Definition wide (T : LaneType) : LaneType :=
  match T with
  | U8 => U16 | U16 => U32 | U32 => U64
  | I8 => I16 | I16 => I32 | I32 => I64
  | _ => T
  end.

(** The bits of [a] below the bits of [b] (the specification's side of
    zip). *)
Definition interleave (T : LaneType) (a b : Z) : Z :=
  Z.lor (Z.shiftl (bits_of T b) (bit_width T)) (bits_of T a).

(** *** movemask over uint8 lanes: [v.raw >> 7], returned as [uint32_t]. *)
Definition movemask_u8 (v : Z) : Z := wrap U32 (Z.shiftr v 7).

(** The top bit of the representation of a lane. *)
Definition top_bit (T : LaneType) (v : Z) : Z :=
  Z.b2z (Z.testbit (bits_of T v) (bit_width T - 1)).

(** The types saturating arithmetic is defined for. *)
Definition has_sat (T : LaneType) : bool :=
  match T with U8 | U16 | I8 | I16 => true | _ => false end.

(** The exact result clamped into the range of [T] (the specification's
    side of the saturating operations). *)
Definition clamp_to (T : LaneType) (x : Z) : Z :=
  Z.max (LimitsMin T) (Z.min (LimitsMax T) x).

End Scalar.

(** ** IEEE-754 lanes *)

Module Ieee.
Import Scalar.

(** A binary interchange format: the widths of the mantissa and exponent
    fields ([kMantissaBits] and [kExponentBits] in the code). *)
Record format := { mant_bits : Z; exp_bits : Z }.

Definition binary32 : format := {| mant_bits := 23; exp_bits := 8 |}.
Definition binary64 : format := {| mant_bits := 52; exp_bits := 11 |}.

Definition total_bits (fmt : format) : Z := 1 + exp_bits fmt + mant_bits fmt.
Definition prec (fmt : format) : Z := mant_bits fmt + 1.
Definition emax (fmt : format) : Z := 2 ^ (exp_bits fmt - 1).
Definition bias (fmt : format) : Z := 2 ^ (exp_bits fmt - 1) - 1.

(** The three fields of a bit pattern. *)
Definition sign_of (fmt : format) (x : Z) : bool :=
  Z.testbit x (mant_bits fmt + exp_bits fmt).
Definition exp_of (fmt : format) (x : Z) : Z :=
  Z.land (Z.shiftr x (mant_bits fmt)) (Z.ones (exp_bits fmt)).
Definition mant_of (fmt : format) (x : Z) : Z :=
  Z.land x (Z.ones (mant_bits fmt)).

(** The number a bit pattern stands for. *)
Definition decode (fmt : format) (x : Z) : spec_float :=
  let s := sign_of fmt x in
  let e := exp_of fmt x in
  let m := mant_of fmt x in
  if e =? 0 then
    match m with
    | Zpos p => S754_finite s p (emin (prec fmt) (emax fmt))
    | _ => S754_zero s
    end
  else if e =? Z.ones (exp_bits fmt) then
    if m =? 0 then S754_infinity s else S754_nan
  else
    match 2 ^ mant_bits fmt + m with
    | Zpos p => S754_finite s p (e - bias fmt - mant_bits fmt)
    | _ => S754_nan
    end.

Definition sign_bit (fmt : format) (s : bool) : Z :=
  if s then 2 ^ (mant_bits fmt + exp_bits fmt) else 0.

(** The bit pattern of a number.  IEEE 754 leaves the sign and the payload
    of the NaN an operation produces open; it is the positive quiet NaN
    with an empty payload here. *)
Definition encode (fmt : format) (f : spec_float) : Z :=
  match f with
  | S754_zero s => sign_bit fmt s
  | S754_infinity s =>
      sign_bit fmt s + Z.shiftl (Z.ones (exp_bits fmt)) (mant_bits fmt)
  | S754_nan =>
      Z.shiftl (Z.ones (exp_bits fmt)) (mant_bits fmt)
      + 2 ^ (mant_bits fmt - 1)
  | S754_finite s m e =>
      if Zpos m <? 2 ^ mant_bits fmt
      then sign_bit fmt s + Zpos m
      else sign_bit fmt s
           + Z.shiftl (e + bias fmt + mant_bits fmt) (mant_bits fmt)
           + (Zpos m - 2 ^ mant_bits fmt)
  end.

Definition is_nan (fmt : format) (x : Z) : bool :=
  match decode fmt x with S754_nan => true | _ => false end.

(** Comparisons and arithmetic of the language, on bit patterns. *)
Definition feq (fmt : format) (x y : Z) : bool :=
  SFeqb (decode fmt x) (decode fmt y).
Definition flt (fmt : format) (x y : Z) : bool :=
  SFltb (decode fmt x) (decode fmt y).
Definition fle (fmt : format) (x y : Z) : bool :=
  SFleb (decode fmt x) (decode fmt y).


Definition fmul (fmt : format) (x y : Z) : Z :=
  encode fmt (SFmul (prec fmt) (emax fmt) (decode fmt x) (decode fmt y)).
Definition fsub (fmt : format) (x y : Z) : Z :=
  encode fmt (SFsub (prec fmt) (emax fmt) (decode fmt x) (decode fmt y)).

(** Conversion between formats, rounding to nearest even. *)
Definition fconvert (from to : format) (x : Z) : Z :=
  encode to
    match decode from x with
    | S754_finite s m e => binary_round (prec to) (emax to) s m e
    | f => f
    end.

(** Conversion of an integer (or of a [bool], 0 or 1) to a float. *)
Definition float_of_Z (fmt : format) (n : Z) : Z :=
  encode fmt (binary_normalize (prec fmt) (emax fmt) n 0 false).

(** The value is a whole number (zeros included, infinities and NaN not). *)
Definition is_integral (fmt : format) (x : Z) : bool :=
  match decode fmt x with
  | S754_zero _ => true
  | S754_finite _ m e => (0 <=? e) || (Zpos m mod 2 ^ (- e) =? 0)
  | _ => false
  end.

(** *** Floor and ceiling

    The templates [Ceiling] and [Floor]; [Float] is given by its format,
    [Bits] is the unsigned integer type of the same size.  The constants
    are computed in [unsigned long long] and converted to [Bits]; [exponent]
    is an [int]. *)

Definition Ceiling (Float : format) (Bits : LaneType)
    (kMantissaBits kExponentBits : Z) (v : Z) : Z :=
  let kExponentMask := wrap Bits (wrap U64 (Z.shiftl 1 kExponentBits) - 1) in
  let kMantissaMask := wrap Bits (wrap U64 (Z.shiftl 1 kMantissaBits) - 1) in
  let kBias := kExponentMask / 2 in
  let f := v in
  let positive := flt Float 0 f in
  let bits := v in
  let exponent :=
    wrap I32 (wrap Bits
      (Z.land (Z.shiftr bits kMantissaBits) kExponentMask - kBias)) in
  if kMantissaBits <=? exponent then v
  else if exponent <? 0 then float_of_Z Float (Z.b2z positive)
  else
    let mantissa_mask := Z.shiftr kMantissaMask exponent in
    if Z.land bits mantissa_mask =? 0 then v
    else
      let bits :=
        if positive
        then wrap Bits
               (bits + Z.shiftr (wrap Bits (kMantissaMask + 1)) exponent)
        else bits in
      let bits := Z.land bits (wrap Bits (Z.lnot mantissa_mask)) in
      bits.

Definition Floor (Float : format) (Bits : LaneType)
    (kMantissaBits kExponentBits : Z) (v : Z) : Z :=
  let kExponentMask := wrap Bits (wrap U64 (Z.shiftl 1 kExponentBits) - 1) in
  let kMantissaMask := wrap Bits (wrap U64 (Z.shiftl 1 kMantissaBits) - 1) in
  let kBias := kExponentMask / 2 in
  let f := v in
  let negative := flt Float f 0 in
  let bits := v in
  let exponent :=
    wrap I32 (wrap Bits
      (Z.land (Z.shiftr bits kMantissaBits) kExponentMask - kBias)) in
  if kMantissaBits <=? exponent then v
  else if exponent <? 0 then float_of_Z Float (if negative then -1 else 0)
  else
    let mantissa_mask := Z.shiftr kMantissaMask exponent in
    if Z.land bits mantissa_mask =? 0 then v
    else
      let bits :=
        if negative
        then wrap Bits
               (bits + Z.shiftr (wrap Bits (kMantissaMask + 1)) exponent)
        else bits in
      let bits := Z.land bits (wrap Bits (Z.lnot mantissa_mask)) in
      bits.

(** Toward +infinity, aka ceiling *)
Definition round_pos_inf_f32 (v : Z) : Z := Ceiling binary32 U32 23 8 v.
Definition round_pos_inf_f64 (v : Z) : Z := Ceiling binary64 U64 52 11 v.

(** Toward -infinity, aka floor *)
Definition round_neg_inf_f32 (v : Z) : Z := Floor binary32 U32 23 8 v.
Definition round_neg_inf_f64 (v : Z) : Z := Floor binary64 U64 52 11 v.

(** *** Sign and magnitude

    A float that is not a NaN is ordered like the integer made of its sign
    and its magnitude bits; the proofs about [Floor] and [Ceiling] go
    through this reading. *)

Definition pattern (fmt : format) (x : Z) : Prop :=
  0 <= x < 2 * 2 ^ (mant_bits fmt + exp_bits fmt).

Definition mag (fmt : format) (x : Z) : Z :=
  x mod 2 ^ (mant_bits fmt + exp_bits fmt).

Definition sgn (s : bool) (v : Z) : Z := if s then - v else v.

Definition rank (fmt : format) (x : Z) : Z :=
  sgn (sign_of fmt x) (mag fmt x).

(** [repr fmt f r]: the number [f] is the value of a bit pattern of rank
    [r]. *)
Inductive repr (fmt : format) : spec_float -> Z -> Prop :=
  | repr_zero s : repr fmt (S754_zero s) 0
  | repr_inf s :
      repr fmt (S754_infinity s)
           (sgn s ((2 ^ exp_bits fmt - 1) * 2 ^ mant_bits fmt))
  | repr_fin s p ex :
      emin (prec fmt) (emax fmt) <= ex ->
      ex = emin (prec fmt) (emax fmt) \/ 2 ^ mant_bits fmt <= Zpos p ->
      Zpos p < 2 * 2 ^ mant_bits fmt ->
      (ex - emin (prec fmt) (emax fmt)) * 2 ^ mant_bits fmt + Zpos p
        < (2 ^ exp_bits fmt - 1) * 2 ^ mant_bits fmt ->
      repr fmt (S754_finite s p ex)
           (sgn s ((ex - emin (prec fmt) (emax fmt)) * 2 ^ mant_bits fmt
                   + Zpos p)).

(** The number of mantissa bits below the binary point. *)
Definition frac_bits (fmt : format) (x : Z) : Z :=
  mant_bits fmt - (exp_of fmt x - bias fmt).

(** What [Ceiling] and [Floor] share: [flag] tells whether the magnitude
    is rounded away from zero, [small] is the result below one. *)
Definition round_core (fmt : format) (Bits : LaneType)
    (flag : bool) (small : Z) (v : Z) : Z :=
  let kMantissaBits := mant_bits fmt in
  let kExponentBits := exp_bits fmt in
  let kExponentMask := wrap Bits (wrap U64 (Z.shiftl 1 kExponentBits) - 1) in
  let kMantissaMask := wrap Bits (wrap U64 (Z.shiftl 1 kMantissaBits) - 1) in
  let kBias := kExponentMask / 2 in
  let exponent :=
    wrap I32 (wrap Bits
      (Z.land (Z.shiftr v kMantissaBits) kExponentMask - kBias)) in
  if kMantissaBits <=? exponent then v
  else if exponent <? 0 then small
  else
    let mantissa_mask := Z.shiftr kMantissaMask exponent in
    if Z.land v mantissa_mask =? 0 then v
    else
      let bits :=
        if flag
        then wrap Bits (v + Z.shiftr (wrap Bits (kMantissaMask + 1)) exponent)
        else v in
      Z.land bits (wrap Bits (Z.lnot mantissa_mask)).

(** The formats and integer types the templates are instantiated with. *)
Record supported (fmt : format) (Bits : LaneType) : Prop := {
  sup_mant : 1 <= mant_bits fmt;
  sup_exp : 2 <= exp_bits fmt <= 30;
  sup_finite : bias fmt + mant_bits fmt < Z.ones (exp_bits fmt);
  sup_unsigned : IsSigned Bits = false;
  sup_width : bit_width Bits = total_bits fmt;
  sup_wide : 32 <= bit_width Bits <= 64;
  sup_zero : float_of_Z fmt 0 = 0;
  sup_one : float_of_Z fmt 1 = bias fmt * 2 ^ mant_bits fmt;
  sup_minus_one :
    float_of_Z fmt (-1)
    = 2 ^ (mant_bits fmt + exp_bits fmt) + bias fmt * 2 ^ mant_bits fmt
}.

(** The two instantiations. *)
Inductive FloatType := Float | Double.

Definition format_of (F : FloatType) : format :=
  match F with Float => binary32 | Double => binary64 end.

Definition bits_type (F : FloatType) : LaneType :=
  match F with Float => U32 | Double => U64 end.

Definition lane_type (F : FloatType) : LaneType :=
  match F with Float => F32 | Double => F64 end.

Definition round_pos_inf (F : FloatType) (v : Z) : Z :=
  match F with
  | Float => round_pos_inf_f32 v
  | Double => round_pos_inf_f64 v
  end.

Definition round_neg_inf (F : FloatType) (v : Z) : Z :=
  match F with
  | Float => round_neg_inf_f32 v
  | Double => round_neg_inf_f64 v
  end.

(** *** Multiplication, reciprocal square root and square root *)

(** [operator*] on float lanes: the product is taken in [double] and cast
    back to [T]. *)
Definition op_mul_f32 (a b : Z) : Z :=
  fconvert binary64 binary32
    (fmul binary64 (fconvert binary32 binary64 a)
                   (fconvert binary32 binary64 b)).

Definition op_mul_f64 (a b : Z) : Z := fmul binary64 a b.

(** The literals [0.5f] and [1.5f]. *)
Definition half_f32 : Z := 0x3F000000.
Definition three_halves_f32 : Z := 0x3FC00000.

Definition rsqrt_approx (v : Z) : Z :=
  let f := v in
  let half := fmul binary32 f half_f32 in
  let bits := f in
  let bits := wrap U32 (0x5F3759DF - wrap U32 (Z.shiftr bits 1)) in
  let f := bits in
  fmul binary32 f
    (fsub binary32 three_halves_f32 (fmul binary32 (fmul binary32 half f) f)).

Definition sqrt_f32 (v : Z) : Z := op_mul_f32 (rsqrt_approx v) v.

Definition sqrt_f64 (v : Z) : Z :=
  fconvert binary32 binary64 (sqrt_f32 (fconvert binary64 binary32 v)).



(** *** movemask over float and double lanes: [v.raw < 0.0f], a [bool]
    returned as [uint32_t]. *)
Definition movemask_f32 (v : Z) : Z := Z.b2z (flt binary32 v 0).
Definition movemask_f64 (v : Z) : Z := Z.b2z (flt binary64 v 0).

End Ieee.

(** ** The cache-aligned allocator *)

Module CacheAligned.
Import Bytes Scalar.

Definition kPointerSize : Z := 8.
Definition kCacheLineSize : Z := 64.

(** The heap: the blocks [malloc] has handed out and not yet freed, each
    with its size, and the bytes that have been written. *)
Record Heap := {
  blocks : gmap Z Z;
  mem : gmap Z Z
}.

Definition empty_heap : Heap := {| blocks := ∅; mem := ∅ |}.

(** A call returns a value and a heap, or aborts on a failed assertion, or
    has undefined behaviour (an access outside every live block, a read of
    bytes never written, [free] of an address [malloc] did not return). *)
Inductive Outcome (A : Type) :=
  | Done (a : A) (h : Heap)
  | Abort
  | Undefined.
Arguments Done {A} a h.
Arguments Abort {A}.
Arguments Undefined {A}.

Definition M (A : Type) : Type := Heap -> Outcome A.

#[global] Instance M_ret : MRet M := fun A a h => Done a h.

#[global] Instance M_bind : MBind M := fun A B k c h =>
  match c h with
  | Done a h' => k a h'
  | Abort => Abort
  | Undefined => Undefined
  end.

(** Modelled from the spec: [PIK_ASSERT] is defined in status.h, which is
    not among the sources; the spec calls the assertions fatal: a failed
    one aborts. *)
Definition PIK_ASSERT (condition : bool) : M unit :=
  fun h => if condition then Done tt h else Abort.

(** [malloc] belongs to the C library.  [result] is the address the
    library picks for this call, 0 when it fails; the block is recorded
    with the size asked for. *)
Definition malloc (result : Z) (size : Z) : M Z :=
  fun h =>
    if result =? 0 then Done 0 h
    else Done result {| blocks := <[result := size]> (blocks h);
                        mem := mem h |}.

(** What the C library promises of a call to [malloc] of [size] bytes in
    heap [h] that returns [p]: null, or a fresh block inside the address
    space, aligned for any object, that overlaps no live block. *)
Definition malloc_returns (h : Heap) (size p : Z) : Prop :=
  p = 0 \/
  (0 < p /\ p + size <= 2 ^ 64 /\ p mod kPointerSize = 0 /\
   blocks h !! p = None /\
   forall b sz, blocks h !! b = Some sz -> b + sz <= p \/ p + size <= b).

Definition free (p : Z) : M unit :=
  fun h =>
    if p =? 0 then Done tt h
    else match blocks h !! p with
         | Some _ => Done tt {| blocks := delete p (blocks h); mem := mem h |}
         | None => Undefined
         end.

(** The bytes from [addr] on lie inside one live block. *)
Definition in_block (h : Heap) (addr len : Z) : bool :=
  existsb (fun '(b, sz) => (b <=? addr) && (addr + len <=? b + sz))
          (map_to_list (blocks h)).

Fixpoint write_bytes (addr : Z) (l : list Z) (m : gmap Z Z) : gmap Z Z :=
  match l with
  | [] => m
  | b :: t => <[addr := b]> (write_bytes (addr + 1) t m)
  end.

Fixpoint read_bytes (addr : Z) (n : nat) (m : gmap Z Z) : option (list Z) :=
  match n with
  | O => Some []
  | S n' =>
      match m !! addr, read_bytes (addr + 1) n' m with
      | Some b, Some t => Some (b :: t)
      | _, _ => None
      end
  end.

(** [memcpy] of an object into the heap and out of it. *)
Definition store_bytes (addr : Z) (l : list Z) : M unit :=
  fun h =>
    if in_block h addr (Z.of_nat (length l))
    then Done tt {| blocks := blocks h; mem := write_bytes addr l (mem h) |}
    else Undefined.

Definition load_bytes (addr : Z) (n : nat) : M (list Z) :=
  fun h =>
    if in_block h addr (Z.of_nat n)
    then match read_bytes addr n (mem h) with
         | Some l => Done l h
         | None => Undefined
         end
    else Undefined.

(** [CacheAligned::Allocate]; [malloc_result] is what its call to [malloc]
    returns.  [bytes] is a [size_t], and so is the sum passed on. *)
Definition Allocate (malloc_result : Z) (bytes : Z) : M Z :=
  PIK_ASSERT (bytes <? 2 ^ 63) ;;
  allocated ← malloc malloc_result (wrap U64 (bytes + kCacheLineSize)) ;
  if allocated =? 0 then mret 0
  else
    let misalignment := Z.land allocated (kCacheLineSize - 1) in
    PIK_ASSERT (misalignment mod kPointerSize =? 0) ;;
    let aligned := allocated + kCacheLineSize - misalignment in
    store_bytes (aligned - kPointerSize)
                (le_bytes (Z.to_nat kPointerSize) allocated) ;;
    mret aligned.

(** [CacheAligned::Free]. *)
Definition Free (aligned_pointer : Z) : M unit :=
  if aligned_pointer =? 0 then mret tt
  else
    let aligned := aligned_pointer in
    PIK_ASSERT (aligned mod kCacheLineSize =? 0) ;;
    raw ← load_bytes (aligned - kPointerSize) (Z.to_nat kPointerSize) ;
    let allocated := le_value raw in
    PIK_ASSERT (allocated <=? aligned - kPointerSize) ;;
    PIK_ASSERT (aligned - kCacheLineSize <=? allocated) ;;
    free allocated.

(** The first multiple of the cache line size strictly above [p]: the
    address [Allocate] returns for a block at [p]. *)
Definition aligned_of (p : Z) : Z := p + kCacheLineSize - p mod 64.

End CacheAligned.

(** ** More of the scalar backend *)

Module ScalarOps.
Import Bytes Scalar Ieee.

(** Modelled from the spec: [IsFloat<T>()] is defined in simd.h, which is
    not among the sources (as [IsSigned<T>()] and [LimitsMin<T>()], given
    in [Scalar]); it tells the floating-point types from the integers. *)
Definition IsFloat (T : LaneType) : bool :=
  match T with F32 | F64 => true | _ => false end.

(** Native addition and subtraction of floats. *)
Definition fadd (fmt : format) (x y : Z) : Z :=
  encode fmt (SFadd (prec fmt) (emax fmt) (decode fmt x) (decode fmt y)).

(** *** Addition and subtraction

    The template widens both lanes to [int64_t], adds them as [uint64_t]
    and masks the sum with [~T(0)], which is computed in the promoted type
    and converted to [uint64_t] for the conjunction; [float] and [double]
    have overloads of their own. *)
Definition op_add (T : LaneType) (a b : Z) : Z :=
  match T with
  | F32 => fadd binary32 a b
  | F64 => fadd binary64 a b
  | _ =>
      let a64 := wrap U64 (wrap I64 a) in
      let b64 := wrap U64 (wrap I64 b) in
      wrap T (Z.land (wrap U64 (a64 + b64))
                     (wrap U64 (wrap (promote T) (Z.lnot (wrap T 0)))))
  end.

Definition op_sub (T : LaneType) (a b : Z) : Z :=
  match T with
  | F32 => fsub binary32 a b
  | F64 => fsub binary64 a b
  | _ =>
      let a64 := wrap U64 (wrap I64 a) in
      let b64 := wrap U64 (wrap I64 b) in
      wrap T (Z.land (wrap U64 (a64 - b64))
                     (wrap U64 (wrap (promote T) (Z.lnot (wrap T 0)))))
  end.

(** *** Average: [(a.raw + b.raw + 1) / 2], computed in [int]. *)
Definition avg_u8 (a b : Z) : Z :=
  wrap U8 (Z.quot (wrap I32 (wrap I32 (a + b) + 1)) 2).
Definition avg_u16 (a b : Z) : Z :=
  wrap U16 (Z.quot (wrap I32 (wrap I32 (a + b) + 1)) 2).

Definition avg (T : LaneType) (a b : Z) : option Z :=
  match T with
  | U8 => Some (avg_u8 a b)
  | U16 => Some (avg_u16 a b)
  | _ => None
  end.

(** *** Absolute value, over the integer types: [-i] is computed in the
    promoted type. *)
Definition abs (T : LaneType) (a : Z) : Z :=
  let i := a in
  if (0 <=? i) || (i =? LimitsMin T) then a
  else wrap T (wrap (promote T) (- i)).

(** *** Shifts by a constant

    [None] stands for the static assertion rejecting [kBits]. The shift is
    done in the promoted type; a left shift that overflows a signed type
    is undefined in the language and wraps here. *)
Definition shift_left (kBits : Z) (T : LaneType) (v : Z) : option Z :=
  if (0 <=? kBits) && (kBits <? sizeof T * 8)
  then Some (wrap T (wrap (promote T) (Z.shiftl v kBits)))
  else None.

Definition shift_right (kBits : Z) (T : LaneType) (v : Z) : option Z :=
  if (0 <=? kBits) && (kBits <? sizeof T * 8)
  then Some (wrap T (wrap (promote T) (Z.shiftr v kBits)))
  else None.

(** *** Comparisons of the raw values *)
Definition raw_lt (T : LaneType) (a b : Z) : bool :=
  match T with
  | F32 => flt binary32 a b
  | F64 => flt binary64 a b
  | _ => a <? b
  end.

Definition raw_le (T : LaneType) (a b : Z) : bool :=
  match T with
  | F32 => fle binary32 a b
  | F64 => fle binary64 a b
  | _ => a <=? b
  end.

Definition raw_eq (T : LaneType) (a b : Z) : bool :=
  match T with
  | F32 => feq binary32 a b
  | F64 => feq binary64 a b
  | _ => a =? b
  end.

Definition op_eq (T : LaneType) (a b : Z) : Z :=
  ComparisonResult T (raw_eq T a b).
Definition op_lt (T : LaneType) (a b : Z) : Z :=
  ComparisonResult T (raw_lt T a b).
Definition op_gt (T : LaneType) (a b : Z) : Z :=
  ComparisonResult T (raw_lt T b a).
Definition op_le (T : LaneType) (a b : Z) : Z :=
  ComparisonResult T (raw_le T a b).
Definition op_ge (T : LaneType) (a b : Z) : Z :=
  ComparisonResult T (raw_le T b a).

(** *** min, max and clamp

    [SIMD_MIN(a, b)] is [a < b ? a : b] and [SIMD_MAX(a, b)] is
    [a < b ? b : a] on the raw values; the result is converted to [T],
    which changes nothing for a float. *)
Definition to_lane (T : LaneType) (x : Z) : Z :=
  if IsFloat T then x else wrap T x.

Definition min (T : LaneType) (a b : Z) : Z :=
  to_lane T (if raw_lt T a b then a else b).

Definition max (T : LaneType) (a b : Z) : Z :=
  to_lane T (if raw_lt T a b then b else a).

(** Returns the closest value to v within [lo, hi]. *)
Definition clamp (T : LaneType) (v lo hi : Z) : Z :=
  min T (max T lo v) hi.

(** *** Multiplication

    In [double] for the floats, in [int64_t] for the signed and in
    [uint64_t] for the unsigned types, then cast to [T]. *)
Definition op_mul (T : LaneType) (a b : Z) : Z :=
  if IsFloat T then
    match T with
    | F32 => op_mul_f32 a b
    | _ => op_mul_f64 a b
    end
  else if IsSigned T then wrap T (wrap I64 (wrap I64 a * wrap I64 b))
  else wrap T (wrap U64 (wrap U64 a * wrap U64 b)).

Definition fdiv (fmt : format) (x y : Z) : Z :=
  encode fmt (SFdiv (prec fmt) (emax fmt) (decode fmt x) (decode fmt y)).

(** [a.raw / b.raw] in the promoted type, converted to [T].  [None]
    stands for undefined behaviour: an integer division by zero, or a
    quotient the promoted type cannot hold. *)
Definition op_div (T : LaneType) (a b : Z) : option Z :=
  match T with
  | F32 => Some (fdiv binary32 a b)
  | F64 => Some (fdiv binary64 a b)
  | _ =>
      if b =? 0 then None
      else
        let q := Z.quot a b in
        if (LimitsMin (promote T) <=? q) && (q <=? LimitsMax (promote T))
        then Some (wrap T q)
        else None
  end.

(** Returns the upper 16 bits of a * b in each lane. *)
Definition mulhi (a b : Z) : Z :=
  wrap I16 (wrap I32 (Z.shiftr (wrap I32 (a * b)) 16)).

(** Returns (((a * b) >> 14) + 1) >> 1. *)
Definition mulhrs (a b : Z) : Z :=
  let rounded :=
    wrap I32 (Z.shiftr (wrap I32 (wrap I32 (a * b) + wrap I32 (Z.shiftl 1 14)))
                       15) in
  let clamped := SIMD_MIN (SIMD_MAX (-32768) rounded) 32767 in
  wrap I16 clamped.

(** The formula of the comment above [mulhrs]. *)
Definition mulhrs_doc (a b : Z) : Z :=
  Z.shiftr (Z.shiftr (a * b) 14 + 1) 1.

(** Multiplies even lanes (0, 2 ..) and returns the double-wide result. *)
Definition mul_even_i32 (a b : Z) : Z :=
  let a64 := wrap I64 a in
  wrap I64 (wrap I64 (a64 * wrap I64 b)).
Definition mul_even_u32 (a b : Z) : Z :=
  let a64 := wrap U64 a in
  wrap U64 (wrap U64 (a64 * wrap U64 b)).

Definition mul_even (T : LaneType) (a b : Z) : option Z :=
  match T with
  | I32 => Some (mul_even_i32 a b)
  | U32 => Some (mul_even_u32 a b)
  | _ => None
  end.

(** *** Multiply-add variants *)
Definition mul_add (T : LaneType) (mul x add : Z) : Z :=
  op_add T (op_mul T mul x) add.
Definition mul_sub (T : LaneType) (mul x sub : Z) : Z :=
  op_sub T (op_mul T mul x) sub.
Definition nmul_add (T : LaneType) (mul x add : Z) : Z :=
  op_sub T add (op_mul T mul x).

(** *** Memory

    [aligned] is the memory that starts at the pointer.  [load] copies
    [sizeof(T)] bytes of it into a local [T]; [store] copies the bytes of
    the lane over its first [sizeof(T)] bytes.  [None] stands for an
    access past the end of the memory given. *)
Definition load (T : LaneType) (aligned : list Z) : option Z :=
  let n := Z.to_nat (sizeof T) in
  if (n <=? length aligned)%nat
  then
    let t := CopyBytes n aligned (repeat 0 n) in
    Some (lane_of_bytes T t)
  else None.

Definition load_unaligned (T : LaneType) (p : list Z) : option Z := load T p.

Definition store (T : LaneType) (v : Z) (aligned : list Z)
  : option (list Z) :=
  let n := Z.to_nat (sizeof T) in
  if (n <=? length aligned)%nat
  then Some (CopyBytes n (object_bytes T v) aligned)
  else None.

Definition store_unaligned (T : LaneType) (v : Z) (p : list Z)
  : option (list Z) := store T v p.

Definition stream (T : LaneType) (v : Z) (aligned : list Z)
  : option (list Z) := store T v aligned.

(** *** Conversion between integer types: [scalar<ToT>(from.raw)]. *)
Definition convert_to (ToT : LaneType) (from : Z) : Z := wrap ToT from.

(** *** Finite floats: zeros, subnormal and normal numbers. *)
Definition is_finite (fmt : format) (x : Z) : bool :=
  match decode fmt x with
  | S754_zero _ | S754_finite _ _ _ => true
  | _ => false
  end.

End ScalarOps.

(** ** The allocation helpers of namespace pik *)

Module Pik.
Import Bytes Scalar CacheAligned.

(** [AllocateArray<T>(entries)]: does not invoke constructors.  [sizeof_T]
    is [sizeof(T)]; the product is a [size_t].  The pointer returned is
    owned by a [unique_ptr] whose deleter is [CacheAligned::Free]. *)
Definition AllocateArray (malloc_result : Z) (sizeof_T entries : Z) : M Z :=
  Allocate malloc_result (wrap U64 (entries * sizeof_T)).

End Pik.

(** ** Theorems: integer lanes *)

Module ScalarFacts.
Import Bytes Scalar.

Ltac lane_cases T :=
  destruct T; try discriminate;
  unfold lane, LimitsMin, LimitsMax, bit_width in *; simpl in *.

Ltac lane_tac :=
  unfold lane, LimitsMin, LimitsMax, bit_width; cbn; lia.

Lemma wrap_lane (T : LaneType) (x : Z) : lane T x -> wrap T x = x.
Proof.
  intros H. unfold wrap.
  destruct T; unfold lane, LimitsMin, LimitsMax, bit_width in *; simpl in *;
    try (apply Z.mod_small; lia);
    rewrite Z.mod_small; lia.
Qed.

Lemma wrap_is_lane (T : LaneType) (x : Z) : lane T (wrap T x).
Proof.
  unfold wrap, lane, LimitsMin, LimitsMax.
  assert (Hp : 0 < 2 ^ bit_width T) by (destruct T; reflexivity).
  assert (Hh : 2 ^ bit_width T = 2 * 2 ^ (bit_width T - 1))
    by (destruct T; reflexivity).
  destruct (IsSigned T).
  - pose proof (Z.mod_pos_bound (x + 2 ^ (bit_width T - 1)) _ Hp). lia.
  - pose proof (Z.mod_pos_bound x _ Hp). lia.
Qed.

Lemma SIMD_MIN_min a b : SIMD_MIN a b = Z.min a b.
Proof. unfold SIMD_MIN. destruct (Z.ltb_spec a b); lia. Qed.

Lemma SIMD_MAX_max a b : SIMD_MAX a b = Z.max a b.
Proof. unfold SIMD_MAX. destruct (Z.ltb_spec a b); lia. Qed.

(** C1. For T among uint8, uint16, int8 and int16 and lanes a, b of T,
    add_sat returns the exact sum a + b clamped to [T_min, T_max] and
    sub_sat the exact difference a - b clamped to the same range. *)
Theorem add_sub_sat_clamp (T : LaneType) (a b : Z) :
  has_sat T = true -> lane T a -> lane T b ->
  add_sat T a b = Some (clamp_to T (a + b)) /\
  sub_sat T a b = Some (clamp_to T (a - b)).
Proof.
  intros HT Ha Hb.
  assert (Hs : wrap I32 (a + b) = a + b /\ wrap I32 (a - b) = a - b).
  { split; apply wrap_lane; lane_cases T; lia. }
  destruct Hs as [Hadd Hsub].
  assert (Hc : forall x, wrap T (clamp_to T x) = clamp_to T x).
  { intros x. apply wrap_lane. unfold clamp_to. lane_cases T; lia. }
  split.
  - rewrite <- (Hc (a + b)).
    destruct T; try discriminate; simpl;
      unfold add_sat_u8, add_sat_u16, add_sat_i8, add_sat_i16, clamp_to;
      rewrite Hadd, SIMD_MIN_min, SIMD_MAX_max; do 2 f_equal;
      unfold LimitsMin, LimitsMax, bit_width; simpl; lia.
  - rewrite <- (Hc (a - b)).
    destruct T; try discriminate; simpl;
      unfold sub_sat_u8, sub_sat_u16, sub_sat_i8, sub_sat_i16, clamp_to;
      rewrite Hsub, SIMD_MIN_min, SIMD_MAX_max; do 2 f_equal;
      unfold LimitsMin, LimitsMax, bit_width; simpl; lia.
Qed.

(** The scenario of the specification: 250 + 10 saturates to 255 over
    uint8 lanes (it does not wrap to 4). *)
Lemma add_sub_sat_clamp_witness :
  add_sat U8 250 10 = Some 255 /\ sub_sat U8 250 10 = Some 240.
Proof.
  apply (add_sub_sat_clamp U8 250 10); [reflexivity | lane_tac | lane_tac].
Defined.

(** *** Bits of wrapped values *)

Lemma bit_width_pos (T : LaneType) : 0 < bit_width T.
Proof. destruct T; reflexivity. Qed.

Lemma wrap_mod (T : LaneType) (x : Z) :
  wrap T x mod 2 ^ bit_width T = x mod 2 ^ bit_width T.
Proof.
  unfold wrap. destruct (IsSigned T).
  - rewrite Zminus_mod_idemp_l. f_equal. lia.
  - apply Z.mod_mod. pose proof (bit_width_pos T).
    apply Z.pow_nonzero; lia.
Qed.

Lemma wrap_testbit (T : LaneType) (x i : Z) :
  0 <= i < bit_width T -> Z.testbit (wrap T x) i = Z.testbit x i.
Proof.
  intros Hi.
  rewrite <- (Z.mod_pow2_bits_low (wrap T x) (bit_width T) i) by lia.
  rewrite wrap_mod. apply Z.mod_pow2_bits_low. lia.
Qed.

Lemma bits_of_testbit (T : LaneType) (x i : Z) :
  0 <= i < bit_width T -> Z.testbit (bits_of T x) i = Z.testbit x i.
Proof. intros Hi. unfold bits_of. apply Z.mod_pow2_bits_low. lia. Qed.

Lemma bits_of_ext (T : LaneType) (x y : Z) :
  (forall i, 0 <= i < bit_width T -> Z.testbit x i = Z.testbit y i) ->
  bits_of T x = bits_of T y.
Proof.
  intros H. unfold bits_of. apply Z.bits_inj'. intros i Hi.
  destruct (Z.lt_ge_cases i (bit_width T)).
  - rewrite !Z.mod_pow2_bits_low by lia. apply H. lia.
  - pose proof (bit_width_pos T). rewrite !Z.mod_pow2_bits_high by lia.
    reflexivity.
Qed.

Lemma lane_eq_bits (T : LaneType) (x y : Z) :
  lane T x -> lane T y -> bits_of T x = bits_of T y -> x = y.
Proof.
  intros Hx Hy H.
  rewrite <- (wrap_lane T x Hx), <- (wrap_lane T y Hy).
  unfold wrap, bits_of in *. destruct (IsSigned T).
  - f_equal.
    rewrite <- (Zplus_mod_idemp_l x), <- (Zplus_mod_idemp_l y). now rewrite H.
  - exact H.
Qed.

Lemma lane_ext (T : LaneType) (x y : Z) :
  lane T x -> lane T y ->
  (forall i, 0 <= i < bit_width T -> Z.testbit x i = Z.testbit y i) -> x = y.
Proof. intros Hx Hy H. apply (lane_eq_bits T); auto using bits_of_ext. Qed.

Lemma BitwiseOp_testbit (B : LaneType) op (a b i : Z) :
  0 <= i < bit_width B ->
  Z.testbit (BitwiseOp B op a b) i = Z.testbit (op (wrap B a) (wrap B b)) i.
Proof.
  intros Hi. unfold BitwiseOp.
  rewrite bits_of_testbit, wrap_testbit by assumption. reflexivity.
Qed.

Lemma BitwiseOp_lane (T B : LaneType) op (a b : Z) :
  IsSigned T = false -> bit_width T = bit_width B ->
  lane T (BitwiseOp B op a b).
Proof.
  intros Hs Hw. unfold BitwiseOp, bits_of, lane, LimitsMin, LimitsMax.
  rewrite Hs, Hw.
  assert (0 < 2 ^ bit_width B)
    by (apply Z.pow_pos_nonneg; pose proof (bit_width_pos B); lia).
  match goal with |- _ <= ?x mod ?m <= _ =>
    pose proof (Z.mod_pos_bound x m) end.
  lia.
Qed.

Lemma promote_width (T : LaneType) : bit_width T <= bit_width (promote T).
Proof. destruct T; unfold bit_width; simpl; lia. Qed.

Lemma op_and_testbit (T : LaneType) (a b i : Z) :
  0 <= i < bit_width T ->
  Z.testbit (op_and T a b) i = Z.testbit a i && Z.testbit b i.
Proof.
  intros Hi.
  destruct T; unfold op_and;
    try (rewrite wrap_testbit by assumption; apply Z.land_spec);
    rewrite BitwiseOp_testbit by assumption;
    rewrite Z.land_spec, !wrap_testbit by assumption; reflexivity.
Qed.

Lemma op_or_testbit (T : LaneType) (a b i : Z) :
  0 <= i < bit_width T ->
  Z.testbit (op_or T a b) i = Z.testbit a i || Z.testbit b i.
Proof.
  intros Hi.
  destruct T; unfold op_or;
    try (rewrite wrap_testbit by assumption; apply Z.lor_spec);
    rewrite BitwiseOp_testbit by assumption;
    rewrite Z.lor_spec, !wrap_testbit by assumption; reflexivity.
Qed.

Lemma andnot_testbit (T : LaneType) (a b i : Z) :
  0 <= i < bit_width T ->
  Z.testbit (andnot T a b) i = negb (Z.testbit a i) && Z.testbit b i.
Proof.
  intros Hi. pose proof (promote_width T) as Hp.
  destruct T; unfold andnot;
    try (rewrite wrap_testbit by assumption;
         rewrite Z.land_spec, wrap_testbit by lia;
         rewrite Z.lnot_spec by lia; reflexivity);
    rewrite BitwiseOp_testbit by assumption;
    rewrite Z.land_spec, !wrap_testbit by assumption;
    rewrite Z.lnot_spec by lia; rewrite wrap_testbit by assumption;
    reflexivity.
Qed.

Lemma op_lane (T : LaneType) (a b : Z) :
  lane T (op_and T a b) /\ lane T (op_or T a b) /\ lane T (andnot T a b).
Proof.
  destruct T; unfold op_and, op_or, andnot;
    repeat split;
    try apply wrap_is_lane; apply BitwiseOp_lane; reflexivity.
Qed.

(** C10. For every element type (floats through their bits) and lanes a, b,
    every bit of andnot(a, b) is the conjunction of the complemented bit of
    the first argument with the bit of the second: andnot(a, b) = ~a & b. *)
Theorem andnot_complements_first (T : LaneType) (a b i : Z) :
  0 <= i < bit_width T ->
  lane T (andnot T a b) /\
  Z.testbit (bits_of T (andnot T a b)) i
  = negb (Z.testbit (bits_of T a) i) && Z.testbit (bits_of T b) i.
Proof.
  intros Hi. split.
  - apply op_lane.
  - rewrite !bits_of_testbit by assumption. now apply andnot_testbit.
Qed.

Lemma andnot_complements_first_witness :
  lane U8 (andnot U8 240 255) /\
  Z.testbit (bits_of U8 (andnot U8 240 255)) 0
  = negb (Z.testbit (bits_of U8 240) 0) && Z.testbit (bits_of U8 255) 0.
Proof.
  apply (andnot_complements_first U8 240 255 0). unfold bit_width. simpl. lia.
Defined.

(** The complemented operand is the first one: over uint8 lanes,
    andnot(0xF0, 0xFF) is 0x0F, where complementing the second operand
    would give 0. *)
Example andnot_is_not_symmetric :
  andnot U8 240 255 = 15 /\ andnot U8 255 240 = 0.
Proof. split; reflexivity. Qed.

(** A true comparison returns the all-one mask, a false one the all-zero
    mask. *)
Lemma ComparisonResult_mask (T : LaneType) (result : bool) :
  ComparisonResult T result
  = if result then all_one_mask T else all_zero_mask T.
Proof. destruct T, result; reflexivity. Qed.

Lemma all_one_mask_testbit (T : LaneType) (i : Z) :
  0 <= i < bit_width T -> Z.testbit (all_one_mask T) i = true.
Proof.
  intros Hi. unfold all_one_mask. rewrite wrap_testbit by assumption.
  rewrite Z.lnot_spec by lia. now rewrite Z.bits_0.
Qed.

(** C8. For every element type and lanes a, b: select is computed as
    (mask & b) | andnot(mask, a); it returns a under the all-zero mask and
    b under the all-one mask. *)
Theorem select_by_mask (T : LaneType) (a b : Z) :
  lane T a -> lane T b ->
  (forall mask,
     select T a b mask = op_or T (op_and T mask b) (andnot T mask a)) /\
  select T a b (all_zero_mask T) = a /\
  select T a b (all_one_mask T) = b.
Proof.
  intros Ha Hb. split; [reflexivity |].
  assert (Hl : forall m, lane T (select T a b m)) by (intros m; apply op_lane).
  split; apply (lane_ext T); auto; intros i Hi; unfold select;
    rewrite op_or_testbit, op_and_testbit, andnot_testbit by assumption.
  - unfold all_zero_mask. rewrite Z.bits_0. reflexivity.
  - rewrite all_one_mask_testbit by assumption. simpl.
    now rewrite orb_false_r.
Qed.

Lemma select_by_mask_witness :
  (forall mask, select I16 (-7) 300 mask
                = op_or I16 (op_and I16 mask 300) (andnot I16 mask (-7))) /\
  select I16 (-7) 300 (all_zero_mask I16) = -7 /\
  select I16 (-7) 300 (all_one_mask I16) = 300.
Proof. apply (select_by_mask I16 (-7) 300); lane_tac. Defined.

(** *** Zip *)

Lemma pow2_pos (n : Z) : 0 <= n -> 0 < 2 ^ n.
Proof. intros. apply Z.pow_pos_nonneg; lia. Qed.

Lemma pow2_divide (n m : Z) : 0 <= n <= m -> (2 ^ n | 2 ^ m).
Proof.
  intros H. exists (2 ^ (m - n)). rewrite <- Z.pow_add_r by lia.
  f_equal. lia.
Qed.

Lemma zip_core (w W a b : Z) :
  0 < w -> 2 * w <= W ->
  ((((b mod 2 ^ W) * 2 ^ w) mod 2 ^ W + a mod 2 ^ W) mod 2 ^ W) mod 2 ^ (2 * w)
  = (a + 2 ^ w * b) mod 2 ^ (2 * w).
Proof.
  intros Hw HW.
  assert (Hd : (2 ^ (2 * w) | 2 ^ W)) by (apply pow2_divide; lia).
  rewrite Z.mod_mod_divide by assumption.
  rewrite Zplus_mod, !Z.mod_mod_divide by assumption.
  rewrite Zmult_mod, Z.mod_mod_divide by assumption.
  rewrite <- Zmult_mod, <- Zplus_mod. f_equal. lia.
Qed.

Lemma low_high_mod (w a b : Z) :
  0 < w -> 0 <= a < 2 ^ w ->
  (a + 2 ^ w * b) mod 2 ^ (2 * w) = a + 2 ^ w * (b mod 2 ^ w).
Proof.
  intros Hw Ha. pose proof (pow2_pos w ltac:(lia)) as Hp.
  replace (2 ^ (2 * w)) with (2 ^ w * 2 ^ w)
    by (rewrite <- Z.pow_add_r by lia; f_equal; lia).
  pose proof (Z.div_mod b (2 ^ w) ltac:(lia)) as Hb.
  pose proof (Z.mod_pos_bound b (2 ^ w) Hp) as Hr.
  replace (a + 2 ^ w * b)
    with (a + 2 ^ w * (b mod 2 ^ w) + (b / 2 ^ w) * (2 ^ w * 2 ^ w)) by nia.
  rewrite Z_mod_plus_full. apply Z.mod_small. nia.
Qed.

Lemma lor_shiftl_add (w x y : Z) :
  0 <= w -> 0 <= y < 2 ^ w -> Z.lor (Z.shiftl x w) y = y + 2 ^ w * x.
Proof.
  intros Hw Hy.
  assert (Hl : Z.land (Z.shiftl x w) y = 0).
  { apply Z.bits_inj'. intros i Hi. rewrite Z.land_spec, Z.bits_0.
    destruct (Z.lt_ge_cases i w).
    - rewrite Z.shiftl_spec_low by assumption. reflexivity.
    - rewrite <- (Z.mod_small y (2 ^ w)) by assumption.
      rewrite Z.mod_pow2_bits_high by lia. apply andb_false_r. }
  rewrite <- Z.lxor_lor, <- Z.add_nocarry_lxor by assumption.
  rewrite Z.shiftl_mul_pow2 by assumption. lia.
Qed.

Lemma interleave_eq (T : LaneType) (a b : Z) :
  interleave T a b
  = a mod 2 ^ bit_width T + 2 ^ bit_width T * (b mod 2 ^ bit_width T).
Proof.
  unfold interleave, bits_of. pose proof (bit_width_pos T).
  apply lor_shiftl_add; [lia |].
  apply Z.mod_pos_bound, pow2_pos; lia.
Qed.

(** What the six overloads compute, whatever the signs: the bits of the
    result are those of the number a + 2^width * b. *)
Lemma zip_lo_bits (T : LaneType) (a b : Z) :
  has_zip T = true ->
  exists z, zip_lo T a b = Some z /\ lane (wide T) z /\
    bits_of (wide T) z
    = (a + 2 ^ bit_width T * b) mod 2 ^ (2 * bit_width T).
Proof.
  intros HT.
  destruct T; try discriminate; simpl; eexists; (split; [reflexivity |]);
    (split; [apply wrap_is_lane |]);
    unfold zip_lo_u8, zip_lo_u16, zip_lo_u32, zip_lo_i8, zip_lo_i16, zip_lo_i32;
    unfold bits_of; rewrite wrap_mod;
    unfold wrap; simpl IsSigned; cbv iota;
    rewrite Z.shiftl_mul_pow2 by lia.
  - apply (zip_core 8 32); lia.
  - apply (zip_core 16 32); lia.
  - apply (zip_core 32 64); lia.
  - apply (zip_core 8 32); lia.
  - apply (zip_core 16 32); lia.
  - apply (zip_core 32 64); lia.
Qed.

(** Over the unsigned types zip_lo is the interleaving the specification
    describes: a in the low half, b in the high half. *)
Lemma zip_lo_unsigned (T : LaneType) (a b : Z) :
  has_zip T = true -> IsSigned T = false -> lane T a -> lane T b ->
  zip_lo T a b = Some (interleave T a b).
Proof.
  intros HT Hs Ha Hb.
  destruct (zip_lo_bits T a b HT) as (z & Hz & Hl & Hbits).
  rewrite Hz. f_equal.
  assert (Hi : interleave T a b = a + 2 ^ bit_width T * b).
  { rewrite interleave_eq.
    rewrite !Z.mod_small; [reflexivity | |]; lane_cases T; lia. }
  rewrite low_high_mod in Hbits
    by (pose proof (bit_width_pos T); lane_cases T; lia).
  rewrite (Z.mod_small b) in Hbits by (lane_cases T; lia).
  apply (lane_eq_bits (wide T)); [assumption | |].
  - rewrite Hi. lane_cases T; lia.
  - rewrite Hbits, Hi. unfold bits_of. symmetry. apply Z.mod_small.
    lane_cases T; lia.
Qed.

(** Over the signed types the same holds as long as a is not negative. *)
Lemma zip_lo_signed_nonneg (T : LaneType) (a b : Z) :
  has_zip T = true -> lane T a -> lane T b -> 0 <= a ->
  exists z, zip_lo T a b = Some z /\
    bits_of (wide T) z = interleave T a b.
Proof.
  intros HT Ha Hb Hpos.
  destruct (zip_lo_bits T a b HT) as (z & Hz & Hl & Hbits).
  exists z. split; [assumption |].
  rewrite Hbits, interleave_eq.
  rewrite low_high_mod by (pose proof (bit_width_pos T); lane_cases T; lia).
  rewrite (Z.mod_small a) by (lane_cases T; lia). reflexivity.
Qed.

(** A negative a is sign-extended before it is added, and borrows one from
    the high half: the result interleaves a with b - 1. *)
Lemma zip_lo_signed_negative (T : LaneType) (a b : Z) :
  has_zip T = true -> lane T a -> lane T b -> a < 0 ->
  exists z, zip_lo T a b = Some z /\
    bits_of (wide T) z = interleave T a (b - 1).
Proof.
  intros HT Ha Hb Hneg.
  destruct (zip_lo_bits T a b HT) as (z & Hz & Hl & Hbits).
  exists z. split; [assumption |].
  rewrite Hbits, interleave_eq.
  assert (Hm : a mod 2 ^ bit_width T = a + 2 ^ bit_width T).
  { symmetry. apply Z.mod_unique_pos with (q := -1); lane_cases T; lia. }
  rewrite Hm.
  replace (a + 2 ^ bit_width T * b)
    with (a + 2 ^ bit_width T + 2 ^ bit_width T * (b - 1)) by lia.
  apply low_high_mod; [apply bit_width_pos | lane_cases T; lia].
Qed.

Lemma zip_hi_is_zip_lo (T : LaneType) (a b : Z) : zip_hi T a b = zip_lo T a b.
Proof. reflexivity. Qed.

(** C4 (code defect). zip_lo is specified to put the bits of a in the low
    half and the bits of b in the high half for the six integer types.  The
    signed overloads add a.raw after sign extension: over int8 lanes, a = -1
    and b = 0 give the int16 value -1, whose bits are 0xFFFF, where the
    interleaving of the two lanes is 0x00FF; zip_hi returns the same. *)
Theorem zip_lo_signed_sign_extends :
  zip_lo I8 (-1) 0 = Some (-1) /\
  bits_of I16 (-1) = 65535 /\
  interleave I8 (-1) 0 = 255 /\
  zip_hi I8 (-1) 0 = Some (-1).
Proof. repeat split. Qed.

(** The scenario of the specification over uint8 lanes. *)
Example zip_lo_u8_scenario : zip_lo U8 0x12 0x34 = Some 0x3412.
Proof. reflexivity. Qed.

(** *** Cast *)

Lemma le_bytes_length (n : nat) (x : Z) : length (le_bytes n x) = n.
Proof. revert x. induction n as [| n IH]; intros x; simpl; auto. Qed.

Lemma le_value_le_bytes (n : nat) (x : Z) :
  le_value (le_bytes n x) = x mod 2 ^ (8 * Z.of_nat n).
Proof.
  revert x. induction n as [| n IH]; intros x.
  - simpl. now rewrite Z.mod_1_r.
  - cbn [le_bytes le_value]. rewrite IH.
    replace (8 * Z.of_nat (S n)) with (8 + 8 * Z.of_nat n) by lia.
    rewrite Z.pow_add_r by lia. change (2 ^ 8) with 256.
    rewrite Z.rem_mul_r by (try apply Z.pow_nonzero; lia). reflexivity.
Qed.

Lemma firstn_le_bytes (k n : nat) (x : Z) :
  (k <= n)%nat -> firstn k (le_bytes n x) = le_bytes k x.
Proof.
  revert n x. induction k as [| k IH]; intros n x Hk; [reflexivity |].
  destruct n as [| n]; [lia |]. cbn [le_bytes firstn]. f_equal.
  apply IH. lia.
Qed.

Lemma le_bytes_mod (n : nat) (x : Z) :
  le_bytes n (x mod 2 ^ (8 * Z.of_nat n)) = le_bytes n x.
Proof.
  revert x. induction n as [| n IH]; intros x; [reflexivity |].
  cbn [le_bytes].
  replace (8 * Z.of_nat (S n)) with (8 + 8 * Z.of_nat n) by lia.
  rewrite Z.pow_add_r by lia. change (2 ^ 8) with 256.
  rewrite Z.rem_mul_r by (try apply Z.pow_nonzero; lia).
  set (q := (x / 256) mod 2 ^ (8 * Z.of_nat n)).
  rewrite (Z.mul_comm 256 q). f_equal.
  - rewrite Z_mod_plus_full. apply Z.mod_mod. lia.
  - rewrite <- (IH (x / 256)). fold q. f_equal.
    rewrite Z_div_plus_full by lia.
    rewrite (Z.div_small (x mod 256)) by (apply Z.mod_pos_bound; lia). lia.
Qed.

Lemma sizeof_nat (T : LaneType) :
  8 * Z.of_nat (Z.to_nat (sizeof T)) = bit_width T.
Proof. destruct T; reflexivity. Qed.

(** Whenever the instantiation compiles, the lane returned is made of the
    first sizeof(T) bytes of the source lane. *)
Lemma cast_to_value (T FromT : LaneType) (v : Z) (stack : list Z) :
  sizeof T <= sizeof FromT ->
  exists to stack',
    cast_to T FromT v stack = Some (to, stack') /\
    lane T to /\
    object_bytes T to
    = firstn (Z.to_nat (sizeof T)) (object_bytes FromT v).
Proof.
  intros Hle. unfold cast_to.
  destruct (Z.leb_spec (sizeof T) (sizeof FromT)); [| lia].
  eexists _, _. split; [reflexivity |].
  split; [apply wrap_is_lane |].
  unfold CopyBytes, object_bytes, lane_of_bytes.
  rewrite (firstn_all2 (n := Z.to_nat (sizeof FromT)))
    by (rewrite le_bytes_length; lia).
  rewrite firstn_app, le_bytes_length.
  replace (Z.to_nat (sizeof T) - Z.to_nat (sizeof FromT))%nat with 0%nat by lia.
  rewrite firstn_O, app_nil_r.
  rewrite !firstn_le_bytes by lia.
  rewrite le_value_le_bytes. unfold bits_of at 1.
  rewrite wrap_mod, sizeof_nat.
  rewrite <- sizeof_nat at 2. rewrite le_bytes_mod.
  rewrite <- sizeof_nat. apply le_bytes_mod.
Qed.

(** The copy has the size of the source: when the target is narrower, the
    bytes that follow [to] in memory are overwritten with the remaining
    bytes of the source lane. *)
Lemma cast_to_writes_source_size (T FromT : LaneType) (v : Z) (stack : list Z) :
  sizeof T <= sizeof FromT ->
  exists to stack',
    cast_to T FromT v stack = Some (to, stack') /\
    firstn (Z.to_nat (sizeof FromT)) stack' = object_bytes FromT v.
Proof.
  intros Hle. unfold cast_to.
  destruct (Z.leb_spec (sizeof T) (sizeof FromT)); [| lia].
  eexists _, _. split; [reflexivity |].
  unfold CopyBytes, object_bytes.
  set (src := le_bytes (Z.to_nat (sizeof FromT)) (bits_of FromT v)).
  assert (Hlen : length src = Z.to_nat (sizeof FromT))
    by apply le_bytes_length.
  rewrite (firstn_all2 src) by lia.
  rewrite firstn_app, Hlen, Nat.sub_diag, firstn_O, app_nil_r.
  apply firstn_all2. lia.
Qed.

(** A cast to a larger type does not compile. *)
Lemma cast_to_promotion_rejected (T FromT : LaneType) (v : Z) (stack : list Z) :
  sizeof FromT < sizeof T -> cast_to T FromT v stack = None.
Proof.
  intros H. unfold cast_to.
  destruct (Z.leb_spec (sizeof T) (sizeof FromT)); [lia | reflexivity].
Qed.

(** C6 (code defect). cast_to is specified to copy no more than sizeof(T)
    bytes into its destination.  It copies sizeof(FromT) bytes: casting the
    uint32 lane 0x11223344 to uint8 returns 0x44, the low byte, and also
    overwrites the three bytes that follow the one-byte destination
    (0xAA, 0xBB, 0xCC here) with 0x33, 0x22, 0x11. *)
Theorem cast_to_overruns_destination :
  cast_to U8 U32 0x11223344 [0; 0xAA; 0xBB; 0xCC; 0xDD]
  = Some (0x44, [0x44; 0x33; 0x22; 0x11; 0xDD]).
Proof. reflexivity. Qed.

(** *** movemask over uint8 lanes *)

Lemma movemask_u8_top_bit (v : Z) :
  lane U8 v -> movemask_u8 v = top_bit U8 v.
Proof.
  intros Hv. unfold movemask_u8, top_bit, bits_of.
  assert (H : 0 <= v <= 255)
    by (unfold lane, LimitsMin, LimitsMax, bit_width in Hv; simpl in Hv; lia).
  rewrite (Z.mod_small v) by (unfold bit_width; simpl; lia).
  rewrite Z.shiftr_div_pow2 by lia. change (2 ^ 7) with 128.
  change (bit_width U8 - 1) with 7.
  rewrite Z.testbit_eqb by lia. change (2 ^ 7) with 128.
  assert (Hq : v / 128 = 0 \/ v / 128 = 1).
  { assert (0 <= v / 128 < 2)
      by (split; [apply Z.div_pos | apply Z.div_lt_upper_bound]; lia). lia. }
  destruct Hq as [-> | ->]; reflexivity.
Qed.

End ScalarFacts.

(** ** Theorems: IEEE-754 lanes *)

Module IeeeFacts.
Import Scalar Ieee ScalarFacts.

Lemma supported_binary32 : supported binary32 U32.
Proof. split; vm_compute; first [reflexivity | intuition discriminate]. Qed.

Lemma supported_binary64 : supported binary64 U64.
Proof. split; vm_compute; first [reflexivity | intuition discriminate]. Qed.

Section Format.

Variable fmt : format.
Variable Bits : LaneType.
Hypothesis Hsup : supported fmt Bits.

Local Abbreviation M := (mant_bits fmt).
Local Abbreviation E := (exp_bits fmt).
Local Abbreviation P := (2 ^ mant_bits fmt).
Local Abbreviation Q := (2 ^ exp_bits fmt).
Local Abbreviation SB := (2 ^ (mant_bits fmt + exp_bits fmt)).

Local Abbreviation pattern := (Ieee.pattern fmt).
Local Abbreviation frac_bits := (Ieee.frac_bits fmt).
Local Abbreviation round_core := (Ieee.round_core fmt Bits).
Local Abbreviation repr := (Ieee.repr fmt).

Lemma fmt_facts :
  1 <= M /\ 2 <= E <= 30 /\ 0 < P /\ 0 < Q /\ SB = P * Q /\
  Q = 2 * (bias fmt + 1) /\ Z.ones E = Q - 1 /\ Z.ones M = P - 1 /\
  2 <= P /\ 4 <= Q /\ bias fmt + M < Q - 1 /\ 1 <= bias fmt /\
  2 ^ bit_width Bits = 2 * SB /\ Q <= 2 ^ 30 /\ M + E + 1 <= 64.
Proof.
  destruct Hsup as [HM HE Hfin Hu Hw Hwide _ _ _].
  assert (HP : 0 < P) by (apply pow2_pos; lia).
  assert (HQ : 0 < Q) by (apply pow2_pos; lia).
  assert (HQ2 : Q = 2 * 2 ^ (E - 1)).
  { rewrite <- (Z.pow_succ_r 2 (E - 1)) by lia. f_equal. lia. }
  assert (HP2 : P = 2 * 2 ^ (M - 1)).
  { rewrite <- (Z.pow_succ_r 2 (M - 1)) by lia. f_equal. lia. }
  assert (0 < 2 ^ (M - 1)) by (apply pow2_pos; lia).
  assert (HE1 : 2 <= 2 ^ (E - 1)).
  { change 2 with (2 ^ 1) at 1. apply Z.pow_le_mono_r; lia. }
  assert (Hones : Z.ones E = Q - 1) by (rewrite Z.ones_equiv; lia).
  repeat split; try lia.
  - apply Z.pow_add_r; lia.
  - unfold bias. lia.
  - rewrite Z.ones_equiv. lia.
  - unfold bias. lia.
  - rewrite Hw. unfold total_bits.
    replace (1 + E + M) with (Z.succ (M + E)) by lia.
    rewrite Z.pow_succ_r by lia. reflexivity.
  - apply Z.pow_le_mono_r; lia.
  - unfold total_bits in Hw. lia.
Qed.

Lemma fields (x : Z) :
  pattern x ->
  mant_of fmt x = x mod P /\
  exp_of fmt x = (x / P) mod Q /\
  sign_of fmt x = (SB <=? x) /\
  mag fmt x = exp_of fmt x * P + mant_of fmt x /\
  x = Z.b2z (sign_of fmt x) * SB + mag fmt x /\
  0 <= mant_of fmt x < P /\ 0 <= exp_of fmt x < Q /\ 0 <= mag fmt x < SB.
Proof.
  intros Hx. destruct fmt_facts as (HM & HE & HP & HQ & HH & _).
  change (0 <= x < 2 * SB) in Hx.
  assert (Hm : mant_of fmt x = x mod P).
  { unfold mant_of. apply Z.land_ones. lia. }
  assert (He : exp_of fmt x = (x / P) mod Q).
  { unfold exp_of. rewrite Z.land_ones, Z.shiftr_div_pow2 by lia.
    reflexivity. }
  pose proof (Z.div_mod x P ltac:(lia)) as D1.
  pose proof (Z.mod_pos_bound x P HP) as B1.
  pose proof (Z.div_mod (x / P) Q ltac:(lia)) as D2.
  pose proof (Z.mod_pos_bound (x / P) Q HQ) as B2.
  assert (D3 : x / P / Q = x / SB) by (rewrite HH; apply Z.div_div; lia).
  assert (B3 : 0 <= x / SB < 2).
  { split; [apply Z.div_pos; lia | apply Z.div_lt_upper_bound; lia]. }
  assert (Hmag : mag fmt x = (x / P) mod Q * P + x mod P).
  { unfold mag. rewrite HH. rewrite Z.rem_mul_r by lia. lia. }
  assert (Hs : sign_of fmt x = (SB <=? x)).
  { unfold sign_of. rewrite Z.testbit_eqb by lia.
    destruct (Z.leb_spec SB x) as [Hle | Hlt].
    - assert (x / SB = 1).
      { assert (1 <= x / SB) by (apply Z.div_le_lower_bound; lia). lia. }
      replace (x / SB) with 1. reflexivity.
    - rewrite Z.div_small by lia. reflexivity. }
  assert (Hx' : x = x / SB * SB + mag fmt x).
  { rewrite Hmag. rewrite <- D3. nia. }
  assert (Hb : 0 <= mag fmt x < SB).
  { unfold mag. apply Z.mod_pos_bound. lia. }
  rewrite Hm, He. repeat split; try lia; try exact Hs.
  rewrite Hs. destruct (Z.leb_spec SB x) as [Hle | Hlt]; simpl Z.b2z.
  - assert (1 <= x / SB) by (apply Z.div_le_lower_bound; lia).
    replace (x / SB) with 1 in Hx' by lia. lia.
  - rewrite (Z.div_small x SB) in Hx' by lia. lia.
Qed.


(** *** Order: a float that is not a NaN is ranked by its sign and
    magnitude bits *)

Lemma emin_eq : emin (prec fmt) (emax fmt) = 1 - bias fmt - M.
Proof. unfold emin, prec, emax, bias. lia. Qed.

Lemma decode_repr (x : Z) :
  pattern x -> is_nan fmt x = false -> repr (decode fmt x) (rank fmt x).
Proof.
  intros Hx Hnan.
  destruct fmt_facts
    as (HM & HE & HP & HQ & HH & HQb & HoE & HoM & HP2 & HQ4 & Hfin & Hb1
        & _).
  destruct (fields x Hx) as (Hm & He & Hs & Hmag & Hxeq & Bm & Be & Bmag).
  unfold is_nan in Hnan. unfold decode in *. unfold rank.
  fold (sgn (sign_of fmt x) (mag fmt x)). rewrite Hmag.
  rewrite HoE in Hnan |- *.
  destruct (Z.eqb_spec (exp_of fmt x) 0) as [He0 | He0].
  - rewrite He0. destruct (mant_of fmt x) as [| p | p] eqn:Hmant.
    + replace (0 * P + 0) with 0 by lia.
      replace (sgn (sign_of fmt x) 0) with 0
        by (destruct (sign_of fmt x); reflexivity).
      constructor.
    + replace (0 * P + Z.pos p)
        with ((emin (prec fmt) (emax fmt) - emin (prec fmt) (emax fmt)) * P
              + Z.pos p)
        by lia.
      constructor; try lia; nia.
    + lia.
  - destruct (Z.eqb_spec (exp_of fmt x) (Q - 1)) as [He1 | He1].
    + destruct (Z.eqb_spec (mant_of fmt x) 0) as [Hm0 | Hm0]; [| discriminate].
      rewrite He1, Hm0. replace ((Q - 1) * P + 0) with ((Q - 1) * P) by lia.
      constructor.
    + destruct (P + mant_of fmt x) as [| p | p] eqn:Hp; try lia.
      replace (exp_of fmt x * P + mant_of fmt x)
        with ((exp_of fmt x - bias fmt - M - emin (prec fmt) (emax fmt)) * P
              + Z.pos p)
        by (rewrite emin_eq; nia).
      constructor; rewrite ?emin_eq; try lia; nia.
Qed.

Lemma sgn_compare_pos (s : bool) (v : Z) :
  0 < v -> (sgn s v ?= 0) = if s then Lt else Gt.
Proof.
  intros Hv. destruct s; unfold sgn.
  - apply Z.compare_lt_iff. lia.
  - apply Z.compare_gt_iff. lia.
Qed.

Lemma compare_sgn_pos (s : bool) (v : Z) :
  0 < v -> (0 ?= sgn s v) = if s then Gt else Lt.
Proof.
  intros Hv. destruct s; unfold sgn.
  - apply Z.compare_gt_iff. lia.
  - apply Z.compare_lt_iff. lia.
Qed.

Lemma compare_repr (f g : spec_float) (r r' : Z) :
  repr f r -> repr g r' -> SFcompare f g = Some (r ?= r').
Proof.
  destruct fmt_facts
    as (HM & HE & HP & HQ & HH & HQb & HoE & HoM & HP2 & HQ4 & _).
  assert (Hinf : 0 < (Q - 1) * P) by nia.
  intros Hf Hg.
  destruct Hf as [s | s | s p ex A1 A2 A3 A4];
    destruct Hg as [s' | s' | s' p' ex' B1 B2 B3 B4];
    cbn [SFcompare]; f_equal; symmetry;
    try change (Pos.compare_cont Eq p p') with (Z.pos p ?= Z.pos p');
    try (destruct (Z.compare_spec ex ex') as [Hex | Hex | Hex];
         [subst ex';
          destruct (Z.compare_spec (Z.pos p) (Z.pos p')) as [Hp | Hp | Hp]
         | | ]);
    repeat match goal with b : bool |- _ => destruct b end;
    unfold sgn; cbn [CompOpp];
    first [apply Z.compare_eq_iff; lia | apply Z.compare_lt_iff; nia
          | apply Z.compare_gt_iff; nia].
Qed.

Lemma SFcompare_rank (x y : Z) :
  pattern x -> pattern y -> is_nan fmt x = false -> is_nan fmt y = false ->
  SFcompare (decode fmt x) (decode fmt y) = Some (rank fmt x ?= rank fmt y).
Proof. intros. apply compare_repr; apply decode_repr; assumption. Qed.

Lemma fle_rank (x y : Z) :
  pattern x -> pattern y -> is_nan fmt x = false -> is_nan fmt y = false ->
  fle fmt x y = (rank fmt x <=? rank fmt y).
Proof.
  intros. unfold fle, SFleb. rewrite SFcompare_rank by assumption.
  unfold Z.leb. destruct (rank fmt x ?= rank fmt y); reflexivity.
Qed.

Lemma flt_rank (x y : Z) :
  pattern x -> pattern y -> is_nan fmt x = false -> is_nan fmt y = false ->
  flt fmt x y = (rank fmt x <? rank fmt y).
Proof.
  intros. unfold flt, SFltb. rewrite SFcompare_rank by assumption.
  unfold Z.ltb. destruct (rank fmt x ?= rank fmt y); reflexivity.
Qed.

Lemma feq_rank (x y : Z) :
  pattern x -> pattern y -> is_nan fmt x = false -> is_nan fmt y = false ->
  feq fmt x y = (rank fmt x =? rank fmt y).
Proof.
  intros. unfold feq, SFeqb. rewrite SFcompare_rank by assumption.
  destruct (Z.compare_spec (rank fmt x) (rank fmt y));
    destruct (Z.eqb_spec (rank fmt x) (rank fmt y)); try lia; reflexivity.
Qed.

Lemma is_nan_fields (x : Z) :
  pattern x ->
  is_nan fmt x = (exp_of fmt x =? Q - 1) && negb (mant_of fmt x =? 0).
Proof.
  intros Hx.
  destruct fmt_facts
    as (HM & HE & HP & HQ & HH & HQb & HoE & HoM & HP2 & HQ4 & _).
  destruct (fields x Hx) as (Hm & He & Hs & Hmag & Hxeq & Bm & Be & Bmag).
  unfold is_nan, decode. rewrite HoE.
  destruct (Z.eqb_spec (exp_of fmt x) 0) as [He0 | He0].
  - rewrite He0. destruct (Z.eqb_spec 0 (Q - 1)); [lia |].
    destruct (mant_of fmt x); reflexivity.
  - destruct (Z.eqb_spec (exp_of fmt x) (Q - 1)).
    + destruct (Z.eqb_spec (mant_of fmt x) 0); reflexivity.
    + destruct (P + mant_of fmt x) eqn:Hp; try reflexivity; lia.
Qed.


(** *** The two templates, computed on the fields *)

Lemma Ceiling_core (v : Z) :
  Ceiling fmt Bits M E v
  = round_core (flt fmt 0 v) (float_of_Z fmt (Z.b2z (flt fmt 0 v))) v.
Proof. reflexivity. Qed.

Lemma Floor_core (v : Z) :
  Floor fmt Bits M E v
  = round_core (flt fmt v 0)
      (float_of_Z fmt (if flt fmt v 0 then -1 else 0)) v.
Proof. reflexivity. Qed.

Lemma wrap_Bits_small (y : Z) : 0 <= y < 2 * SB -> wrap Bits y = y.
Proof.
  intros Hy.
  destruct fmt_facts
    as (_ & _ & _ & _ & _ & _ & _ & _ & _ & _ & _ & _ & HW & _).
  unfold wrap. rewrite (sup_unsigned _ _ Hsup), HW. apply Z.mod_small. lia.
Qed.

Lemma wrap_Bits_range (y : Z) : 0 <= wrap Bits y < 2 * SB.
Proof.
  destruct fmt_facts
    as (_ & _ & HP & HQ & HH & _ & _ & _ & _ & _ & _ & _ & HW & _).
  unfold wrap. rewrite (sup_unsigned _ _ Hsup), HW.
  apply Z.mod_pos_bound. nia.
Qed.

Lemma wrap_int_Bits (y : Z) :
  - 2 ^ 31 <= y < 2 ^ 31 -> wrap I32 (wrap Bits y) = y.
Proof.
  intros Hy. apply (lane_eq_bits I32).
  - apply wrap_is_lane.
  - unfold lane, LimitsMin, LimitsMax, bit_width. cbn. lia.
  - unfold bits_of. rewrite wrap_mod.
    unfold wrap. rewrite (sup_unsigned _ _ Hsup).
    apply Z.mod_mod_divide. apply pow2_divide.
    pose proof (sup_wide _ _ Hsup). change (bit_width I32) with 32. lia.
Qed.

Lemma land_lnot_ones (y k : Z) :
  0 <= y < 2 * SB -> 0 <= k ->
  Z.land y (wrap Bits (Z.lnot (Z.ones k))) = y - y mod 2 ^ k.
Proof.
  intros Hy Hk.
  destruct fmt_facts
    as (_ & _ & HP & HQ & HH & _ & _ & _ & _ & _ & _ & _ & HW & _).
  pose proof (bit_width_pos Bits) as Hw.
  unfold wrap. rewrite (sup_unsigned _ _ Hsup).
  rewrite <- Z.land_ones by lia.
  rewrite (Z.land_comm (Z.lnot _)), Z.land_assoc.
  rewrite Z.land_ones by lia. rewrite (Z.mod_small y) by lia.
  rewrite <- Z.ldiff_land, Z.ldiff_ones_r by lia.
  rewrite Z.shiftl_mul_pow2, Z.shiftr_div_pow2 by lia.
  pose proof (Z.div_mod y (2 ^ k) ltac:(apply Z.pow_nonzero; lia)). lia.
Qed.

Lemma constants :
  wrap Bits (wrap U64 (Z.shiftl 1 E) - 1) = Q - 1 /\
  wrap Bits (wrap U64 (Z.shiftl 1 M) - 1) = P - 1 /\
  (Q - 1) / 2 = bias fmt.
Proof.
  destruct fmt_facts
    as (HM & HE & HP & HQ & HH & HQb & HoE & HoM & HP2 & HQ4 & Hfin & Hb1
        & HW & HQ30 & H64).
  assert (HP64 : P < 2 ^ 64).
  { apply Z.pow_lt_mono_r; lia. }
  assert (HQ64 : Q < 2 ^ 64) by lia.
  assert (HPH : P < 2 * SB) by nia.
  assert (HQH : Q < 2 * SB) by nia.
  rewrite !Z.shiftl_mul_pow2 by lia. rewrite !Z.mul_1_l.
  assert (Hu : forall y, 0 <= y < 2 ^ 64 -> wrap U64 y = y).
  { intros y Hy. unfold wrap. cbn [IsSigned]. apply Z.mod_small.
    exact Hy. }
  rewrite !Hu by lia. rewrite !wrap_Bits_small by lia.
  repeat split. rewrite HQb.
  replace (2 * (bias fmt + 1) - 1) with (1 + bias fmt * 2) by lia.
  rewrite Z_div_plus_full by lia. reflexivity.
Qed.

Lemma round_core_fields (flag : bool) (small x : Z) :
  pattern x ->
  round_core flag small x =
  if M <=? exp_of fmt x - bias fmt then x
  else if exp_of fmt x - bias fmt <? 0 then small
  else if x mod 2 ^ frac_bits x =? 0 then x
  else
    let y := if flag then wrap Bits (x + 2 ^ frac_bits x) else x in
    y - y mod 2 ^ frac_bits x.
Proof.
  intros Hx.
  destruct fmt_facts
    as (HM & HE & HP & HQ & HH & HQb & HoE & HoM & HP2 & HQ4 & Hfin & Hb1
        & HW & HQ30 & H64).
  destruct (fields x Hx) as (Hm & He & Hs & Hmag & Hxeq & Bm & Be & Bmag).
  destruct constants as (C1 & C2 & C3).
  unfold Ieee.round_core. rewrite C1, C2, C3.
  rewrite <- HoE.
  change (Z.land (Z.shiftr x M) (Z.ones E)) with (exp_of fmt x).
  rewrite wrap_int_Bits by lia.
  destruct (Z.leb_spec M (exp_of fmt x - bias fmt)) as [Hbig | Hbig];
    [reflexivity |].
  destruct (Z.ltb_spec (exp_of fmt x - bias fmt) 0) as [Hsmall | Hsmall];
    [reflexivity |].
  set (ex := exp_of fmt x - bias fmt) in *.
  assert (Hmask : Z.shiftr (P - 1) ex = Z.ones (frac_bits x)).
  { rewrite <- HoM, Z.shiftr_div_pow2 by lia. apply Z.ones_div_pow2. lia. }
  assert (Hinc : Z.shiftr (wrap Bits (P - 1 + 1)) ex = 2 ^ frac_bits x).
  { replace (P - 1 + 1) with P by lia. rewrite wrap_Bits_small by nia.
    rewrite Z.shiftr_div_pow2 by lia. unfold Ieee.frac_bits. fold ex.
    symmetry. apply Z.pow_sub_r; lia. }
  rewrite Hmask, Hinc.
  assert (Hk : 0 <= frac_bits x) by (unfold Ieee.frac_bits; fold ex; lia).
  rewrite Z.land_ones by assumption.
  destruct (Z.eqb_spec (x mod 2 ^ frac_bits x) 0); [reflexivity |].
  cbv zeta. apply land_lnot_ones; [| assumption].
  destruct flag; [apply wrap_Bits_range | assumption].
Qed.


(** *** Sign and magnitude *)

Lemma exp_mant_of_mag (x : Z) :
  pattern x ->
  exp_of fmt x = mag fmt x / P /\ mant_of fmt x = mag fmt x mod P.
Proof.
  intros Hx.
  destruct (fields x Hx) as (Hm & He & Hs & Hmag & Hxeq & Bm & Be & Bmag).
  rewrite Hmag. split.
  - apply Z.div_unique with (r := mant_of fmt x); lia.
  - apply Z.mod_unique with (q := exp_of fmt x); lia.
Qed.

Lemma mk_pattern (S : bool) (X : Z) :
  0 <= X < SB ->
  pattern (Z.b2z S * SB + X) /\
  sign_of fmt (Z.b2z S * SB + X) = S /\
  mag fmt (Z.b2z S * SB + X) = X.
Proof.
  intros HX.
  assert (Hp : pattern (Z.b2z S * SB + X))
    by (change (0 <= Z.b2z S * SB + X < 2 * SB); destruct S; simpl Z.b2z; lia).
  destruct (fields _ Hp) as (_ & _ & Hs & _ & _ & _ & _ & _).
  split; [exact Hp |]. split.
  - rewrite Hs. destruct S; simpl Z.b2z;
      [destruct (Z.leb_spec SB (1 * SB + X))
      | destruct (Z.leb_spec SB (0 * SB + X))];
      first [reflexivity | lia].
  - unfold mag. rewrite Z.add_comm, Z_mod_plus_full.
    apply Z.mod_small. lia.
Qed.

Lemma rank_mk (S : bool) (X : Z) :
  0 <= X < SB -> rank fmt (Z.b2z S * SB + X) = sgn S X.
Proof.
  intros HX. destruct (mk_pattern S X HX) as (_ & Hs & Hm).
  unfold rank. rewrite Hs, Hm. reflexivity.
Qed.

Lemma rank_eq (x : Z) : rank fmt x = sgn (sign_of fmt x) (mag fmt x).
Proof. reflexivity. Qed.

Lemma is_nan_mag (x : Z) :
  pattern x -> mag fmt x <= (Q - 1) * P -> is_nan fmt x = false.
Proof.
  intros Hx Hle.
  destruct (fields x Hx) as (Hm & He & Hs & Hmag & Hxeq & Bm & Be & Bmag).
  rewrite is_nan_fields by assumption.
  destruct (Z.eqb_spec (exp_of fmt x) (Q - 1)) as [He1 | He1];
    [| reflexivity].
  destruct (Z.eqb_spec (mant_of fmt x) 0); [reflexivity | nia].
Qed.

Lemma not_nan_mag (x : Z) :
  pattern x -> is_nan fmt x = false -> mag fmt x <= (Q - 1) * P.
Proof.
  intros Hx Hn.
  destruct (fields x Hx) as (Hm & He & Hs & Hmag & Hxeq & Bm & Be & Bmag).
  rewrite is_nan_fields in Hn by assumption.
  destruct (Z.eqb_spec (exp_of fmt x) (Q - 1)) as [He1 | He1].
  - destruct (Z.eqb_spec (mant_of fmt x) 0); [nia | discriminate].
  - nia.
Qed.

Lemma fle_refl (x : Z) :
  pattern x -> is_nan fmt x = false -> fle fmt x x = true.
Proof. intros. rewrite fle_rank by assumption. apply Z.leb_refl. Qed.


(** The constants the two templates return below one. *)
Lemma const_facts :
  pattern 0 /\ is_nan fmt 0 = false /\ rank fmt 0 = 0 /\
  pattern (bias fmt * P) /\ is_nan fmt (bias fmt * P) = false /\
  rank fmt (bias fmt * P) = bias fmt * P /\
  pattern (SB + bias fmt * P) /\ is_nan fmt (SB + bias fmt * P) = false /\
  rank fmt (SB + bias fmt * P) = - (bias fmt * P) /\
  pattern SB /\ is_nan fmt SB = false /\ rank fmt SB = 0.
Proof.
  destruct fmt_facts
    as (HM & HE & HP & HQ & HH & HQb & HoE & HoM & HP2 & HQ4 & Hfin & Hb1
        & HW & HQ30 & H64).
  assert (B0 : 0 <= 0 < SB) by nia.
  assert (B1 : 0 <= bias fmt * P < SB) by nia.
  destruct (mk_pattern false 0 B0) as (P0 & S0 & M0).
  destruct (mk_pattern false _ B1) as (P1 & S1 & M1).
  destruct (mk_pattern true _ B1) as (P2 & S2 & M2).
  destruct (mk_pattern true 0 B0) as (P3 & S3 & M3).
  pose proof (rank_mk false 0 B0) as R0.
  pose proof (rank_mk false _ B1) as R1.
  pose proof (rank_mk true _ B1) as R2.
  pose proof (rank_mk true 0 B0) as R3.
  simpl Z.b2z in *.
  replace (0 * SB + 0) with 0 in * by lia.
  replace (0 * SB + bias fmt * P) with (bias fmt * P) in * by lia.
  replace (1 * SB + bias fmt * P) with (SB + bias fmt * P) in * by lia.
  replace (1 * SB + 0) with SB in * by lia.
  unfold sgn in *.
  repeat split; try assumption; try lia;
    apply is_nan_mag; try assumption; nia.
Qed.

(** *** Negation *)





(** *** Rounding the magnitude *)

Lemma frac_mod (x : Z) :
  pattern x -> 0 <= exp_of fmt x - bias fmt < M ->
  x mod 2 ^ frac_bits x = mag fmt x mod 2 ^ frac_bits x /\
  mag fmt x mod 2 ^ frac_bits x = mant_of fmt x mod 2 ^ frac_bits x /\
  P = 2 ^ frac_bits x * 2 ^ (exp_of fmt x - bias fmt) /\
  0 < 2 ^ frac_bits x /\ 0 < 2 ^ (exp_of fmt x - bias fmt).
Proof.
  intros Hx Hex.
  destruct fmt_facts
    as (HM & HE & HP & HQ & HH & _).
  destruct (fields x Hx) as (Hm & He & Hs & Hmag & Hxeq & Bm & Be & Bmag).
  set (k := frac_bits x). set (ex := exp_of fmt x - bias fmt) in *.
  assert (Hk : 0 <= k) by (unfold k, Ieee.frac_bits; fold ex; lia).
  assert (HD : 0 < 2 ^ k) by (apply pow2_pos; lia).
  assert (HR : 0 < 2 ^ ex) by (apply pow2_pos; lia).
  assert (HPD : P = 2 ^ k * 2 ^ ex).
  { rewrite <- Z.pow_add_r by lia. f_equal.
    unfold k, Ieee.frac_bits. fold ex. lia. }
  repeat split; try assumption.
  - rewrite Hxeq at 1. rewrite HH, HPD.
    replace (Z.b2z (sign_of fmt x) * (2 ^ k * 2 ^ ex * Q) + mag fmt x)
      with (mag fmt x + (Z.b2z (sign_of fmt x) * 2 ^ ex * Q) * 2 ^ k) by lia.
    apply Z_mod_plus_full.
  - rewrite Hmag, HPD.
    replace (exp_of fmt x * (2 ^ k * 2 ^ ex) + mant_of fmt x)
      with (mant_of fmt x + (exp_of fmt x * 2 ^ ex) * 2 ^ k) by lia.
    apply Z_mod_plus_full.
Qed.

Lemma frac_round (flag : bool) (x : Z) :
  pattern x ->
  0 <= exp_of fmt x - bias fmt < M ->
  x mod 2 ^ frac_bits x <> 0 ->
  let k := frac_bits x in
  let t := mag fmt x - mag fmt x mod 2 ^ k in
  let y := if flag then wrap Bits (x + 2 ^ k) else x in
  y - y mod 2 ^ k
  = Z.b2z (sign_of fmt x) * SB + (t + if flag then 2 ^ k else 0) /\
  0 <= t < mag fmt x /\ mag fmt x < t + 2 ^ k /\
  t + 2 ^ k <= (Q - 1) * P /\ (Q - 1) * P < SB.
Proof.
  intros Hx Hex Hfrac k t y.
  destruct fmt_facts
    as (HM & HE & HP & HQ & HH & HQb & HoE & HoM & HP2 & HQ4 & Hfin & Hb1
        & HW & HQ30 & H64).
  destruct (fields x Hx) as (Hm & He & Hs & Hmag & Hxeq & Bm & Be & Bmag).
  destruct (frac_mod x Hx Hex) as (Hxm & Hmm & HPD & HD & HR).
  fold k in Hxm, Hmm, HPD, HD, Hfrac.
  set (ex := exp_of fmt x - bias fmt) in *.
  set (D := 2 ^ k) in *. set (R := 2 ^ ex) in *.
  set (X := mag fmt x) in *. set (e := exp_of fmt x) in *.
  pose proof (Z.mod_pos_bound X D HD) as Bmod.
  pose proof (Z.div_mod X D ltac:(lia)) as Dmag.
  assert (Hq : 0 <= X / D) by (apply Z.div_pos; lia).
  assert (Ht : t = D * (X / D)) by (unfold t; lia).
  assert (HeP : (e + 1) * P = D * ((e + 1) * R)) by (rewrite HPD; ring).
  assert (Hup : t + D <= (e + 1) * P).
  { assert (Hlt : X / D < (e + 1) * R).
    { apply Z.div_lt_upper_bound; [assumption |]. rewrite <- HeP. lia. }
    rewrite Ht, HeP.
    replace (D * (X / D) + D) with (D * (X / D + 1)) by ring.
    apply Z.mul_le_mono_nonneg_l; lia. }
  assert (Hfinite : (e + 1) * P <= (Q - 1) * P)
    by (apply Z.mul_le_mono_nonneg_r; lia).
  assert (HQP : (Q - 1) * P < SB) by (rewrite HH; lia).
  assert (HkP : D <= P).
  { rewrite HPD. replace D with (D * 1) at 1 by lia.
    apply Z.mul_le_mono_nonneg_l; lia. }
  assert (Hsmall : 0 <= x + D < 2 * SB).
  { rewrite Hxeq. destruct (sign_of fmt x); simpl Z.b2z; lia. }
  assert (Hy : y - y mod D
               = Z.b2z (sign_of fmt x) * SB + (t + if flag then D else 0)).
  { unfold y. destruct flag.
    - rewrite wrap_Bits_small by exact Hsmall.
      replace (x + D) with (x + 1 * D) at 2 by lia.
      rewrite Z_mod_plus_full, Hxm. unfold t. lia.
    - rewrite Hxm. unfold t. lia. }
  split; [exact Hy |]. repeat split; lia.
Qed.

(** *** Floor and ceiling bound their argument *)

Lemma round_core_rank (flag : bool) (small x : Z) :
  pattern x -> is_nan fmt x = false ->
  pattern small -> is_nan fmt small = false ->
  let r := round_core flag small x in
  pattern r /\ is_nan fmt r = false /\
  (r = x \/
   (exp_of fmt x < bias fmt /\ r = small) \/
   (0 <= exp_of fmt x - bias fmt < M /\ 0 < mag fmt x /\
    sign_of fmt r = sign_of fmt x /\
    if flag then mag fmt x < mag fmt r else mag fmt r < mag fmt x)).
Proof.
  intros Hx Hn Hs Hsn r. unfold r.
  rewrite round_core_fields by assumption.
  destruct (Z.leb_spec M (exp_of fmt x - bias fmt)) as [Hbig | Hbig];
    [auto |].
  destruct (Z.ltb_spec (exp_of fmt x - bias fmt) 0) as [Hsmall | Hsmall].
  { split; [assumption |]. split; [assumption |]. right. left.
    split; [lia | reflexivity]. }
  destruct (Z.eqb_spec (x mod 2 ^ frac_bits x) 0) as [Hint | Hfrac];
    [auto |].
  destruct (frac_round flag x Hx ltac:(lia) Hfrac)
    as (Hy & Ht & Hlt & Hup & HQP).
  cbv zeta in Hy |- *. rewrite Hy.
  set (t := mag fmt x - mag fmt x mod 2 ^ frac_bits x) in *.
  assert (HD : 0 < 2 ^ frac_bits x).
  { apply pow2_pos. unfold Ieee.frac_bits. lia. }
  assert (Hb : 0 <= t + (if flag then 2 ^ frac_bits x else 0) < SB)
    by (destruct flag; lia).
  destruct (mk_pattern (sign_of fmt x) _ Hb) as (Pr & Sr & Mr).
  split; [assumption |]. split.
  - apply is_nan_mag; [assumption |]. rewrite Mr. destruct flag; lia.
  - right. right. rewrite Sr, Mr.
    split; [lia |]. split; [lia |]. split; [reflexivity |].
    destruct flag; lia.
Qed.

Lemma flt_zero_r (x : Z) :
  pattern x -> is_nan fmt x = false ->
  flt fmt x 0 = sign_of fmt x && (0 <? mag fmt x).
Proof.
  intros Hx Hn. destruct const_facts as (P0 & N0 & R0 & _).
  destruct (fields x Hx) as (_ & _ & _ & _ & _ & _ & _ & Bmag).
  rewrite flt_rank, R0, rank_eq by assumption. unfold sgn.
  destruct (sign_of fmt x); cbn [andb negb];
    destruct (Z.ltb_spec 0 (mag fmt x));
    first [reflexivity | apply Z.ltb_lt; lia | apply Z.ltb_ge; lia].
Qed.

Lemma flt_zero_l (x : Z) :
  pattern x -> is_nan fmt x = false ->
  flt fmt 0 x = negb (sign_of fmt x) && (0 <? mag fmt x).
Proof.
  intros Hx Hn. destruct const_facts as (P0 & N0 & R0 & _).
  destruct (fields x Hx) as (_ & _ & _ & _ & _ & _ & _ & Bmag).
  rewrite flt_rank, R0, rank_eq by assumption. unfold sgn.
  destruct (sign_of fmt x); cbn [andb negb];
    destruct (Z.ltb_spec 0 (mag fmt x));
    first [reflexivity | apply Z.ltb_lt; lia | apply Z.ltb_ge; lia].
Qed.

Lemma small_mag (x : Z) :
  pattern x -> exp_of fmt x < bias fmt -> mag fmt x < bias fmt * P.
Proof.
  intros Hx He.
  destruct (fields x Hx) as (_ & _ & _ & Hmag & _ & Bm & Be & _).
  rewrite Hmag. nia.
Qed.

Lemma Floor_below (x : Z) :
  pattern x -> is_nan fmt x = false ->
  pattern (Floor fmt Bits M E x) /\
  is_nan fmt (Floor fmt Bits M E x) = false /\
  rank fmt (Floor fmt Bits M E x) <= rank fmt x.
Proof.
  intros Hx Hn. rewrite Floor_core, flt_zero_r by assumption.
  destruct const_facts
    as (P0 & N0 & R0 & P1 & N1 & R1 & Pm & Nm & Rm & _).
  destruct (fields x Hx) as (_ & _ & _ & _ & _ & _ & _ & Bmag).
  set (flag := sign_of fmt x && (0 <? mag fmt x)).
  assert (Hsmall : pattern (float_of_Z fmt (if flag then -1 else 0)) /\
            is_nan fmt (float_of_Z fmt (if flag then -1 else 0)) = false).
  { destruct flag;
      [rewrite (sup_minus_one _ _ Hsup) | rewrite (sup_zero _ _ Hsup)];
      auto. }
  destruct Hsmall as [Ps Ns].
  destruct (round_core_rank flag _ x Hx Hn Ps Ns)
    as (Pr & Nr & [Hr | [[He Hr] | (Hex & Hpos & Hsr & Hmr)]]);
    (split; [assumption |]); (split; [assumption |]).
  - rewrite Hr. lia.
  - rewrite Hr. pose proof (small_mag x Hx He) as Hm.
    rewrite (rank_eq x). unfold sgn, flag.
    destruct (sign_of fmt x); cbn [andb].
    + destruct (Z.ltb_spec 0 (mag fmt x)).
      * rewrite (sup_minus_one _ _ Hsup). lia.
      * rewrite (sup_zero _ _ Hsup). lia.
    + rewrite (sup_zero _ _ Hsup). lia.
  - rewrite !rank_eq, Hsr. unfold sgn. subst flag.
    destruct (Z.ltb_spec 0 (mag fmt x)); [| lia].
    destruct (sign_of fmt x); cbn [andb] in Hmr |- *; lia.
Qed.

Lemma Ceiling_above (x : Z) :
  pattern x -> is_nan fmt x = false ->
  pattern (Ceiling fmt Bits M E x) /\
  is_nan fmt (Ceiling fmt Bits M E x) = false /\
  rank fmt x <= rank fmt (Ceiling fmt Bits M E x).
Proof.
  intros Hx Hn. rewrite Ceiling_core, flt_zero_l by assumption.
  destruct const_facts
    as (P0 & N0 & R0 & P1 & N1 & R1 & Pm & Nm & Rm & _).
  destruct (fields x Hx) as (_ & _ & _ & _ & _ & _ & _ & Bmag).
  set (flag := negb (sign_of fmt x) && (0 <? mag fmt x)).
  assert (Hsmall : pattern (float_of_Z fmt (Z.b2z flag)) /\
            is_nan fmt (float_of_Z fmt (Z.b2z flag)) = false).
  { destruct flag; simpl Z.b2z;
      [rewrite (sup_one _ _ Hsup) | rewrite (sup_zero _ _ Hsup)];
      auto. }
  destruct Hsmall as [Ps Ns].
  destruct (round_core_rank flag _ x Hx Hn Ps Ns)
    as (Pr & Nr & [Hr | [[He Hr] | (Hex & Hpos & Hsr & Hmr)]]);
    (split; [assumption |]); (split; [assumption |]).
  - rewrite Hr. lia.
  - rewrite Hr. pose proof (small_mag x Hx He) as Hm.
    rewrite (rank_eq x). unfold sgn, flag.
    destruct (sign_of fmt x); cbn [andb negb].
    + simpl Z.b2z. rewrite (sup_zero _ _ Hsup). lia.
    + destruct (Z.ltb_spec 0 (mag fmt x)); simpl Z.b2z.
      * rewrite (sup_one _ _ Hsup). lia.
      * rewrite (sup_zero _ _ Hsup). lia.
  - rewrite !rank_eq, Hsr. unfold sgn. subst flag.
    destruct (Z.ltb_spec 0 (mag fmt x)); [| lia].
    destruct (sign_of fmt x); cbn [andb negb] in Hmr |- *; lia.
Qed.


(** *** Whole numbers are fixed points *)

Lemma is_integral_fields (x : Z) :
  pattern x -> is_integral fmt x = true ->
  mag fmt x = 0 \/
  (bias fmt <= exp_of fmt x /\
   (M <= exp_of fmt x - bias fmt \/
    mant_of fmt x mod 2 ^ frac_bits x = 0)).
Proof.
  intros Hx Hint.
  destruct fmt_facts
    as (HM & HE & HP & HQ & HH & HQb & HoE & HoM & HP2 & HQ4 & Hfin & Hb1
        & _).
  destruct (fields x Hx) as (Hm & He & Hs & Hmag & Hxeq & Bm & Be & Bmag).
  unfold is_integral, decode in Hint.
  rewrite HoE, emin_eq in Hint.
  destruct (Z.eqb_spec (exp_of fmt x) 0) as [He0 | He0].
  - destruct (mant_of fmt x) as [| p | p] eqn:Hmant; [left; nia | | lia].
    exfalso.
    destruct (Z.leb_spec 0 (1 - bias fmt - M)); [lia |].
    cbn [orb] in Hint. apply Z.eqb_eq in Hint.
    rewrite Z.mod_small in Hint; [lia |].
    split; [lia |].
    apply Z.lt_le_trans with P; [lia |].
    apply Z.pow_le_mono_r; lia.
  - destruct (Z.eqb_spec (exp_of fmt x) (Q - 1)) as [He1 | He1].
    + destruct (mant_of fmt x =? 0); discriminate.
    + destruct (P + mant_of fmt x) as [| p | p] eqn:Hp; try lia.
      destruct (Z.leb_spec 0 (exp_of fmt x - bias fmt - M)) as [Hbig | Hbig].
      * right. split; lia.
      * cbn [orb] in Hint. apply Z.eqb_eq in Hint.
        replace (- (exp_of fmt x - bias fmt - M)) with (frac_bits x) in Hint
          by (unfold Ieee.frac_bits; lia).
        destruct (Z.lt_ge_cases (exp_of fmt x) (bias fmt)) as [Hlow | Hhigh].
        -- exfalso. rewrite Z.mod_small in Hint; [lia |].
           split; [lia |].
           apply Z.lt_le_trans with (2 ^ (M + 1)).
           ++ rewrite Z.pow_add_r by lia. lia.
           ++ apply Z.pow_le_mono_r; unfold Ieee.frac_bits; lia.
        -- right. split; [lia |]. right.
           destruct (frac_mod x Hx ltac:(lia)) as (_ & _ & HPD & _ & _).
           rewrite <- Hp, HPD in Hint.
           rewrite Z.add_comm, (Z.mul_comm (2 ^ frac_bits x)) in Hint.
           now rewrite Z_mod_plus_full in Hint.
Qed.

Lemma is_integral_not_nan (x : Z) :
  is_integral fmt x = true -> is_nan fmt x = false.
Proof.
  unfold is_integral, is_nan. destruct (decode fmt x); auto.
Qed.


(** *** Ceiling of the negation *)


End Format.

(** *** The two instantiations *)

Lemma supported_of (F : FloatType) : supported (format_of F) (bits_type F).
Proof. destruct F; [apply supported_binary32 | apply supported_binary64]. Qed.

Lemma round_neg_inf_Floor (F : FloatType) (x : Z) :
  round_neg_inf F x
  = Floor (format_of F) (bits_type F)
      (mant_bits (format_of F)) (exp_bits (format_of F)) x.
Proof. destruct F; reflexivity. Qed.

Lemma round_pos_inf_Ceiling (F : FloatType) (x : Z) :
  round_pos_inf F x
  = Ceiling (format_of F) (bits_type F)
      (mant_bits (format_of F)) (exp_bits (format_of F)) x.
Proof. destruct F; reflexivity. Qed.

Lemma lane_pattern (F : FloatType) (x : Z) :
  lane (lane_type F) x -> pattern (format_of F) x.
Proof.
  unfold lane, pattern, LimitsMin, LimitsMax, bit_width.
  destruct F; cbn; lia.
Qed.




(** The scenario of the specification: -1.5f is rounded down to -2.0f
    (0xC0000000) and up to -1.0f (0xBF800000). *)
Example round_minus_one_and_a_half :
  round_neg_inf Float 0xBFC00000 = 0xC0000000 /\
  round_pos_inf Float 0xBFC00000 = 0xBF800000.
Proof. split; reflexivity. Qed.

(** *** movemask over float lanes *)

(** On numbers, movemask tells whether the lane is below zero. *)
Lemma movemask_float_negative (F : FloatType) (x : Z) :
  lane (lane_type F) x -> is_nan (format_of F) x = false ->
  (match F with Float => movemask_f32 | Double => movemask_f64 end) x
  = Z.b2z (sign_of (format_of F) x && (0 <? mag (format_of F) x)).
Proof.
  intros Hl Hn. apply lane_pattern in Hl.
  pose proof (flt_zero_r _ _ (supported_of F) x Hl Hn) as Hf.
  destruct F; unfold movemask_f32, movemask_f64; now rewrite <- Hf.
Qed.

(** C7 (code defect).  movemask is documented to return the most
    significant bit of a float or double lane.  It returns v.raw < 0:
    for the all-ones lane a true comparison produces (a NaN) and for -0.0
    the top bit is 1 and movemask returns 0. *)
Theorem movemask_float_misses_top_bit :
  movemask_f32 0xFFFFFFFF = 0 /\ top_bit F32 0xFFFFFFFF = 1 /\
  movemask_f32 0x80000000 = 0 /\ top_bit F32 0x80000000 = 1 /\
  movemask_f64 0xFFFFFFFFFFFFFFFF = 0 /\
  top_bit F64 0xFFFFFFFFFFFFFFFF = 1 /\
  movemask_f64 0x8000000000000000 = 0 /\
  top_bit F64 0x8000000000000000 = 1.
Proof. repeat split; vm_compute; reflexivity. Qed.

(** The all-ones lane is what a true comparison returns: movemask of a
    comparison result is 0 whether the comparison held or not. *)
Example movemask_of_comparison :
  ComparisonResult F32 true = 0xFFFFFFFF /\
  movemask_f32 (ComparisonResult F32 true) = 0 /\
  movemask_f32 (ComparisonResult F32 false) = 0.
Proof. repeat split; vm_compute; reflexivity. Qed.

(** *** Square root *)





(** The square root of the double 4.0 is not 2.0: the result has the
    precision of the float approximation. *)
Example sqrt_f64_is_approximate :
  sqrt_f64 0x4010000000000000 = 0x3FFFF221E0000000 /\
  encode binary64 (SFsqrt 53 1024 (decode binary64 0x4010000000000000))
  = 0x4000000000000000.
Proof. split; vm_compute; reflexivity. Qed.

End IeeeFacts.

(** ** Theorems: the cache-aligned allocator *)

Module CacheAlignedFacts.
Import Bytes Scalar CacheAligned ScalarFacts.

Lemma in_block_live (h : Heap) (b sz addr len : Z) :
  blocks h !! b = Some sz -> b <= addr -> addr + len <= b + sz ->
  in_block h addr len = true.
Proof.
  intros Hb Hlo Hhi. unfold in_block. apply existsb_exists.
  exists (b, sz). split.
  - apply list_elem_of_In, elem_of_map_to_list. exact Hb.
  - apply andb_true_intro. split; apply Z.leb_le; assumption.
Qed.

Lemma read_bytes_insert_below (a addr v : Z) (n : nat) (m : gmap Z Z) :
  a < addr -> read_bytes addr n (<[a := v]> m) = read_bytes addr n m.
Proof.
  revert addr. induction n as [| n IH]; intros addr Hlt; [reflexivity |].
  cbn [read_bytes]. rewrite lookup_insert_ne by lia.
  rewrite IH by lia. reflexivity.
Qed.

Lemma read_write_bytes (addr : Z) (l : list Z) (m : gmap Z Z) :
  read_bytes addr (length l) (write_bytes addr l m) = Some l.
Proof.
  revert addr. induction l as [| b t IH]; intros addr; [reflexivity |].
  cbn [length read_bytes write_bytes].
  rewrite lookup_insert_eq, read_bytes_insert_below by lia.
  rewrite IH. reflexivity.
Qed.

Lemma land_line (p : Z) : Z.land p (kCacheLineSize - 1) = p mod 64.
Proof. change (kCacheLineSize - 1) with (Z.ones 6). apply Z.land_ones. lia. Qed.

Lemma aligned_of_facts (p : Z) :
  p mod kPointerSize = 0 ->
  aligned_of p mod 64 = 0 /\
  kPointerSize <= aligned_of p - p <= kCacheLineSize /\
  forall d, 0 < d < aligned_of p - p -> (p + d) mod 64 <> 0.
Proof.
  unfold aligned_of, kPointerSize, kCacheLineSize. intros H8.
  pose proof (Z.div_mod p 64 ltac:(lia)) as D.
  pose proof (Z.mod_pos_bound p 64 ltac:(lia)) as B.
  assert (H64 : (p mod 64) mod 8 = 0).
  { rewrite Z.mod_mod_divide; [assumption | exists 8; reflexivity]. }
  pose proof (Z.div_mod (p mod 64) 8 ltac:(lia)) as D8.
  split; [| split].
  - replace (p + 64 - p mod 64) with ((p / 64 + 1) * 64) by lia.
    apply Z_mod_mult.
  - lia.
  - intros d Hd Hz.
    replace (p + d) with (p mod 64 + d + (p / 64) * 64) in Hz by lia.
    rewrite Z_mod_plus_full, Z.mod_small in Hz; lia.
Qed.

Lemma Allocate_success (h : Heap) (n p : Z) :
  0 <= n < 2 ^ 63 -> malloc_returns h (n + kCacheLineSize) p -> p <> 0 ->
  Allocate p n h
  = Done (aligned_of p)
      {| blocks := <[p := n + kCacheLineSize]> (blocks h);
         mem := write_bytes (aligned_of p - kPointerSize)
                  (le_bytes (Z.to_nat kPointerSize) p) (mem h) |}.
Proof.
  intros Hn [Hp | (Hpos & Hend & Hal & Hfresh & Hdisj)] Hnz; [contradiction |].
  destruct (aligned_of_facts p Hal) as (Hm & Hoff & _).
  unfold kPointerSize, kCacheLineSize in *.
  unfold Allocate, mbind, M_bind, PIK_ASSERT, malloc, mret, M_ret, store_bytes.
  assert (Hp0 : (p =? 0) = false) by (apply Z.eqb_neq; assumption).
  destruct (Z.ltb_spec n (2 ^ 63)); [| lia].
  rewrite !Hp0. rewrite land_line.
  assert (Hw : wrap U64 (n + kCacheLineSize) = n + 64).
  { apply wrap_lane. unfold lane, LimitsMin, LimitsMax, bit_width,
      kCacheLineSize. cbn. lia. }
  rewrite Hw.
  rewrite Z.mod_mod_divide by (exists 8; reflexivity).
  unfold kPointerSize. rewrite Hal. cbn [Z.eqb].
  fold (aligned_of p). rewrite ?Hp0. cbv beta.
  rewrite (in_block_live _ p (n + 64)); [reflexivity | | |].
  - cbn [blocks]. apply lookup_insert_eq.
  - unfold kPointerSize, kCacheLineSize. lia.
  - rewrite le_bytes_length. unfold kPointerSize, kCacheLineSize. lia.
Qed.

(** [Free] on a heap in which the block is live and the header intact:
    whatever else happened since the allocation, it releases that block. *)
Lemma Free_releases (h : Heap) (p a sz : Z) :
  0 < p < 2 ^ 64 ->
  blocks h !! p = Some sz ->
  a mod kCacheLineSize = 0 ->
  kPointerSize <= a - p <= kCacheLineSize ->
  a <= p + sz ->
  read_bytes (a - kPointerSize) (Z.to_nat kPointerSize) (mem h)
  = Some (le_bytes (Z.to_nat kPointerSize) p) ->
  Free a h = free p h /\
  free p h = Done tt {| blocks := delete p (blocks h); mem := mem h |}.
Proof.
  unfold kPointerSize, kCacheLineSize. intros Hp Hb Hm Hoff Hend Hread.
  assert (Hval : le_value (le_bytes (Z.to_nat 8) p) = p).
  { rewrite le_value_le_bytes. apply Z.mod_small.
    change (8 * Z.of_nat (Z.to_nat 8)) with 64. lia. }
  assert (Hfree : free p h
                  = Done tt {| blocks := delete p (blocks h); mem := mem h |}).
  { unfold free. destruct (Z.eqb_spec p 0); [lia |]. now rewrite Hb. }
  split; [| exact Hfree].
  unfold Free, kPointerSize, kCacheLineSize, mbind, M_bind, PIK_ASSERT,
    load_bytes.
  destruct (Z.eqb_spec a 0); [lia |].
  rewrite Hm. cbn [Z.eqb].
  rewrite (in_block_live h p sz)
    by (try assumption; change (Z.of_nat (Z.to_nat 8)) with 8; lia).
  rewrite Hread, Hval.
  destruct (Z.leb_spec p (a - 8)); [| lia].
  destruct (Z.leb_spec (a - 64) p); [| lia].
  reflexivity.
Qed.

Lemma Free_after_Allocate (h : Heap) (n p : Z) :
  0 <= n < 2 ^ 63 -> malloc_returns h (n + kCacheLineSize) p -> p <> 0 ->
  forall h',
    h' = {| blocks := <[p := n + kCacheLineSize]> (blocks h);
            mem := write_bytes (aligned_of p - kPointerSize)
                     (le_bytes (Z.to_nat kPointerSize) p) (mem h) |} ->
    load_bytes (aligned_of p - kPointerSize) (Z.to_nat kPointerSize) h'
    = Done (le_bytes (Z.to_nat kPointerSize) p) h' /\
    Free (aligned_of p) h' = free p h' /\
    free p h' = Done tt {| blocks := blocks h; mem := mem h' |}.
Proof.
  intros Hn [Hp | (Hpos & Hend & Hal & Hfresh & Hdisj)] Hnz h' Hh';
    [contradiction |].
  destruct (aligned_of_facts p Hal) as (Hm & Hoff & _).
  assert (Hb : blocks h' !! p = Some (n + kCacheLineSize))
    by (subst h'; apply lookup_insert_eq).
  assert (Hread : read_bytes (aligned_of p - kPointerSize)
                    (Z.to_nat kPointerSize) (mem h')
                  = Some (le_bytes (Z.to_nat kPointerSize) p)).
  { subst h'. cbn [mem].
    pose proof (read_write_bytes (aligned_of p - kPointerSize)
                  (le_bytes (Z.to_nat kPointerSize) p) (mem h)) as R.
    now rewrite le_bytes_length in R. }
  destruct (Free_releases h' p (aligned_of p) (n + kCacheLineSize))
    as (HF & Hfree); try assumption;
    try (unfold kPointerSize, kCacheLineSize in *; lia).
  split; [| split; [exact HF |]].
  - unfold load_bytes.
    rewrite (in_block_live h' p (n + kCacheLineSize))
      by (try assumption; unfold kPointerSize, kCacheLineSize in *;
          change (Z.of_nat (Z.to_nat 8)) with 8; lia).
    now rewrite Hread.
  - rewrite Hfree. subst h'. cbn [blocks mem].
    now rewrite delete_insert_id by assumption.
Qed.

Lemma in_block_dead (h : Heap) (addr len : Z) :
  (forall b sz, blocks h !! b = Some sz ->
                addr < b \/ b + sz < addr + len) ->
  in_block h addr len = false.
Proof.
  intros Hout. unfold in_block.
  destruct (existsb _ _) eqn:Hex; [| reflexivity].
  apply existsb_exists in Hex. destruct Hex as ([b sz] & Hin & Hc).
  apply list_elem_of_In, elem_of_map_to_list in Hin.
  apply andb_prop in Hc. destruct Hc as [H1 H2].
  apply Z.leb_le in H1, H2. destruct (Hout b sz Hin); lia.
Qed.

(** Sizes from 2^63 on fail the first assertion: [malloc] is not reached. *)
Lemma Allocate_too_large (h : Heap) (n p : Z) :
  2 ^ 63 <= n -> Allocate p n h = Abort.
Proof.
  intros Hn. unfold Allocate, mbind, M_bind, PIK_ASSERT.
  destruct (Z.ltb_spec n (2 ^ 63)); [lia | reflexivity].
Qed.

Lemma Allocate_failure (h : Heap) (n : Z) :
  n < 2 ^ 63 -> Allocate 0 n h = Done 0 h.
Proof.
  intros Hn. unfold Allocate, mbind, M_bind, PIK_ASSERT, malloc.
  destruct (Z.ltb_spec n (2 ^ 63)); [reflexivity | lia].
Qed.

(** A second [Free] of the same pointer reads a header that is no longer
    inside a live block. *)
Lemma Free_twice_undefined (h : Heap) (n p : Z) (m : gmap Z Z) :
  0 <= n < 2 ^ 63 -> malloc_returns h (n + kCacheLineSize) p -> p <> 0 ->
  Free (aligned_of p) {| blocks := blocks h; mem := m |} = Undefined.
Proof.
  intros Hn [Hp | (Hpos & Hend & Hal & Hfresh & Hdisj)] Hnz;
    [contradiction |].
  destruct (aligned_of_facts p Hal) as (Hm & Hoff & _).
  unfold kPointerSize, kCacheLineSize in *.
  unfold Free, kPointerSize, kCacheLineSize, mbind, M_bind, PIK_ASSERT,
    load_bytes.
  destruct (Z.eqb_spec (aligned_of p) 0); [lia |].
  rewrite Hm. cbn [Z.eqb]. rewrite in_block_dead; [reflexivity |].
  cbn [blocks]. intros b sz Hb.
  change (Z.of_nat (Z.to_nat 8)) with 8.
  destruct (Hdisj b sz Hb); lia.
Qed.

(** C2. For a size n > 0 and a successful malloc, Allocate returns a
    pointer that is not null and is a multiple of 64; one call of Free on
    it releases the block malloc returned and nothing else; Free of the
    null pointer changes nothing; when malloc fails, Allocate returns
    null.  (Sizes of 2^63 and more stop at the first assertion, before
    malloc is called.) *)
Theorem Allocate_aligned_Free_releases (h : Heap) (n p : Z) :
  0 < n < 2 ^ 63 ->
  malloc_returns h (n + kCacheLineSize) p ->
  (p <> 0 ->
   exists a h',
     Allocate p n h = Done a h' /\
     a <> 0 /\ a mod kCacheLineSize = 0 /\
     blocks h' !! p = Some (n + kCacheLineSize) /\
     Free a h' = Done tt {| blocks := delete p (blocks h'); mem := mem h' |} /\
     delete p (blocks h') = blocks h) /\
  (p = 0 -> Allocate p n h = Done 0 h) /\
  Free 0 h = Done tt h.
Proof.
  intros Hn Hmal. split; [| split].
  - intros Hnz. eexists _, _.
    split; [apply Allocate_success; [lia | assumption | assumption] |].
    destruct (Free_after_Allocate h n p ltac:(lia) Hmal Hnz _ eq_refl)
      as (_ & HF & Hfree).
    destruct Hmal as [Hp | (Hpos & Hend & Hal & Hfresh & Hdisj)];
      [contradiction |].
    destruct (aligned_of_facts p Hal) as (Hm & Hoff & _).
    unfold kPointerSize, kCacheLineSize in *. cbn [blocks mem].
    rewrite delete_insert_id by assumption.
    split; [lia |]. split; [exact Hm |].
    split; [apply lookup_insert_eq |].
    split; [| reflexivity].
    rewrite HF. exact Hfree.
  - intros ->. apply Allocate_failure. lia.
  - reflexivity.
Qed.

Lemma malloc_returns_example :
  malloc_returns empty_heap (100 + kCacheLineSize) 4104.
Proof.
  right. unfold kPointerSize, kCacheLineSize. cbn [empty_heap blocks].
  repeat split; try lia; try reflexivity.
  intros b sz Hb. rewrite lookup_empty in Hb. discriminate.
Qed.

Lemma Allocate_aligned_Free_releases_witness :
  (4104 <> 0 ->
   exists a h',
     Allocate 4104 100 empty_heap = Done a h' /\
     a <> 0 /\ a mod kCacheLineSize = 0 /\
     blocks h' !! 4104 = Some (100 + kCacheLineSize) /\
     Free a h'
     = Done tt {| blocks := delete 4104 (blocks h'); mem := mem h' |} /\
     delete 4104 (blocks h') = blocks empty_heap) /\
  (4104 = 0 -> Allocate 4104 100 empty_heap = Done 0 empty_heap) /\
  Free 0 empty_heap = Done tt empty_heap.
Proof.
  apply (Allocate_aligned_Free_releases empty_heap 100 4104).
  - lia.
  - exact malloc_returns_example.
Defined.

(** C9, as the code has it.  When malloc succeeds, Allocate has asked it
    for exactly bytes + 64 bytes; the address returned is the block's
    address advanced by the smallest strictly positive offset that makes
    it a multiple of 64 (between 8 and 64 bytes: a whole line when the
    block is already aligned); the 8 bytes before it lie inside the block
    and hold the block's address; the bytes asked for fit behind it; and
    Free reads that address back and releases it. *)
Theorem Allocate_layout (h : Heap) (n p : Z) :
  0 <= n < 2 ^ 63 ->
  malloc_returns h (n + kCacheLineSize) p ->
  p <> 0 ->
  exists a h',
    Allocate p n h = Done a h' /\
    blocks h' = <[p := n + kCacheLineSize]> (blocks h) /\
    a mod kCacheLineSize = 0 /\
    kPointerSize <= a - p <= kCacheLineSize /\
    (forall d, 0 < d < a - p -> (p + d) mod kCacheLineSize <> 0) /\
    a + n <= p + (n + kCacheLineSize) /\
    load_bytes (a - kPointerSize) (Z.to_nat kPointerSize) h'
    = Done (le_bytes (Z.to_nat kPointerSize) p) h' /\
    le_value (le_bytes (Z.to_nat kPointerSize) p) = p /\
    Free a h' = free p h' /\
    free p h' = Done tt {| blocks := blocks h; mem := mem h' |}.
Proof.
  intros Hn Hmal Hnz. eexists _, _.
  split; [apply Allocate_success; assumption |].
  destruct (Free_after_Allocate h n p Hn Hmal Hnz _ eq_refl)
    as (Hload & HF & Hfree).
  destruct Hmal as [Hp | (Hpos & Hend & Hal & Hfresh & Hdisj)];
    [contradiction |].
  destruct (aligned_of_facts p Hal) as (Hm & Hoff & Hmin).
  split; [reflexivity |]. split; [exact Hm |]. split; [exact Hoff |].
  split; [exact Hmin |].
  split; [unfold kPointerSize, kCacheLineSize in *; lia |].
  split; [exact Hload |].
  split; [| split; assumption].
  rewrite le_value_le_bytes. apply Z.mod_small.
  change (8 * Z.of_nat (Z.to_nat kPointerSize)) with 64.
  unfold kCacheLineSize in Hend. lia.
Qed.

Lemma Allocate_layout_witness :
  exists a h',
    Allocate 4104 100 empty_heap = Done a h' /\
    blocks h' = <[4104 := 100 + kCacheLineSize]> (blocks empty_heap) /\
    a mod kCacheLineSize = 0 /\
    kPointerSize <= a - 4104 <= kCacheLineSize /\
    (forall d, 0 < d < a - 4104 -> (4104 + d) mod kCacheLineSize <> 0) /\
    a + 100 <= 4104 + (100 + kCacheLineSize) /\
    load_bytes (a - kPointerSize) (Z.to_nat kPointerSize) h'
    = Done (le_bytes (Z.to_nat kPointerSize) 4104) h' /\
    le_value (le_bytes (Z.to_nat kPointerSize) 4104) = 4104 /\
    Free a h' = free 4104 h' /\
    free 4104 h' = Done tt {| blocks := blocks empty_heap; mem := mem h' |}.
Proof.
  apply (Allocate_layout empty_heap 100 4104).
  - lia.
  - exact malloc_returns_example.
  - lia.
Defined.

(** C9 as stated fails when malloc returns an aligned block: for the block
    at 4096 the offset 0 already gives a multiple of 64, and Allocate
    advances by 64 to make room for the header. *)
Lemma Allocate_aligned_block_full_line :
  malloc_returns empty_heap (100 + kCacheLineSize) 4096 /\
  (exists h', Allocate 4096 100 empty_heap = Done 4160 h') /\
  (4096 + 0) mod kCacheLineSize = 0 /\
  0 <= 0 < 4160 - 4096.
Proof.
  split; [| split; [| split]].
  - right. unfold kPointerSize, kCacheLineSize. cbn [empty_heap blocks].
    repeat split; try lia; try reflexivity.
    intros b sz Hb. rewrite lookup_empty in Hb. discriminate.
  - eexists. vm_compute. reflexivity.
  - reflexivity.
  - lia.
Qed.

End CacheAlignedFacts.

(** ** Theorems: arithmetic, comparison, memory and conversion of the
    scalar backend *)

Module ScalarOpsFacts.
Import Bytes Scalar Ieee ScalarOps ScalarFacts.

(** Turns the bounds of the lanes of a given type into numerals. *)
Ltac lane_bounds :=
  unfold lane in *;
  repeat match goal with
  | |- context [LimitsMin ?T] =>
      let v := eval vm_compute in (LimitsMin T) in
      change (LimitsMin T) with v
  | |- context [LimitsMax ?T] =>
      let v := eval vm_compute in (LimitsMax T) in
      change (LimitsMax T) with v
  | H : context [LimitsMin ?T] |- _ =>
      let v := eval vm_compute in (LimitsMin T) in
      change (LimitsMin T) with v in H
  | H : context [LimitsMax ?T] |- _ =>
      let v := eval vm_compute in (LimitsMax T) in
      change (LimitsMax T) with v in H
  end.

(** *** Arithmetic modulo a power of two *)

Local Abbreviation eqm w x y := (x mod 2 ^ w = y mod 2 ^ w).

Lemma wrap_cong (T : LaneType) (x y : Z) :
  eqm (bit_width T) x y -> wrap T x = wrap T y.
Proof.
  intros H. unfold wrap. destruct (IsSigned T); [| exact H].
  f_equal. rewrite (Zplus_mod x), (Zplus_mod y), H. reflexivity.
Qed.

Lemma eqm_le (w k x : Z) : 0 <= w <= k -> eqm w (x mod 2 ^ k) x.
Proof.
  intros H. apply Z.mod_mod_divide. apply pow2_divide; lia.
Qed.

Lemma eqm_wrap (T : LaneType) (w x y : Z) :
  0 <= w <= bit_width T -> eqm w x y -> eqm w (wrap T x) y.
Proof.
  intros Hw H. rewrite <- H, <- (eqm_le w (bit_width T) (wrap T x)) by lia.
  rewrite wrap_mod. apply eqm_le; lia.
Qed.

Lemma eqm_ones (w k x y : Z) :
  0 <= w <= k -> eqm w x y -> eqm w (Z.land x (Z.ones k)) y.
Proof.
  intros Hw H. rewrite Z.land_ones by lia. rewrite <- H. apply eqm_le; lia.
Qed.

Lemma eqm_add (w x x' y y' : Z) :
  eqm w x x' -> eqm w y y' -> eqm w (x + y) (x' + y').
Proof. intros H1 H2. rewrite (Zplus_mod x), (Zplus_mod x'), H1, H2. reflexivity. Qed.

Lemma eqm_sub (w x x' y y' : Z) :
  eqm w x x' -> eqm w y y' -> eqm w (x - y) (x' - y').
Proof. intros H1 H2. rewrite (Zminus_mod x), (Zminus_mod x'), H1, H2. reflexivity. Qed.

Lemma eqm_mul (w x x' y y' : Z) :
  eqm w x x' -> eqm w y y' -> eqm w (x * y) (x' * y').
Proof. intros H1 H2. rewrite (Zmult_mod x), (Zmult_mod x'), H1, H2. reflexivity. Qed.

Lemma width_le_64 (T : LaneType) : 0 <= bit_width T <= 64.
Proof. destruct T; unfold bit_width; simpl; lia. Qed.

Lemma width_64 : bit_width U64 = 64 /\ bit_width I64 = 64.
Proof. split; reflexivity. Qed.

(** The mask [~T(0)] of the two templates, as a [uint64_t]: all 64 bits
    are set, but for [uint32_t], where the complement is taken in
    [unsigned] and the upper half stays clear. *)
Lemma add_mask (T : LaneType) :
  IsFloat T = false ->
  exists k, bit_width T <= k /\
    wrap U64 (wrap (promote T) (Z.lnot (wrap T 0))) = Z.ones k.
Proof.
  intros HT. destruct T; try discriminate;
    try (exists 64; split; [unfold bit_width; simpl; lia | reflexivity]).
  exists 32. split; [unfold bit_width; simpl; lia | reflexivity].
Qed.

Lemma op_add_wrap (T : LaneType) (a b : Z) :
  IsFloat T = false -> op_add T a b = wrap T (a + b).
Proof.
  intros HT. destruct (add_mask T HT) as (k & Hk & Hm).
  pose proof (width_le_64 T) as HW.
  assert (E : op_add T a b
              = wrap T (Z.land (wrap U64 (wrap U64 (wrap I64 a)
                                          + wrap U64 (wrap I64 b)))
                               (Z.ones k))).
  { rewrite <- Hm. destruct T; try discriminate; reflexivity. }
  rewrite E. apply wrap_cong. apply eqm_ones; [lia |].
  apply eqm_wrap; [exact HW |].
  apply eqm_add; apply eqm_wrap; try exact HW; apply eqm_wrap; try exact HW;
    reflexivity.
Qed.

Lemma op_sub_wrap (T : LaneType) (a b : Z) :
  IsFloat T = false -> op_sub T a b = wrap T (a - b).
Proof.
  intros HT. destruct (add_mask T HT) as (k & Hk & Hm).
  pose proof (width_le_64 T) as HW.
  assert (E : op_sub T a b
              = wrap T (Z.land (wrap U64 (wrap U64 (wrap I64 a)
                                          - wrap U64 (wrap I64 b)))
                               (Z.ones k))).
  { rewrite <- Hm. destruct T; try discriminate; reflexivity. }
  rewrite E. apply wrap_cong. apply eqm_ones; [lia |].
  apply eqm_wrap; [exact HW |].
  apply eqm_sub; apply eqm_wrap; try exact HW; apply eqm_wrap; try exact HW;
    reflexivity.
Qed.

(** X1. For every integer element type and lanes a, b: a + b and a - b are
    the exact sum and difference reduced into the range of T (two's
    complement wrap-around, also for the signed types), they are the exact
    results whenever those fit, and subtraction undoes addition:
    (a + b) - b = a and (a - b) + b = a, whether or not the intermediate
    result wrapped. *)
Theorem add_sub_wrap_around (T : LaneType) (a b : Z) :
  IsFloat T = false -> lane T a -> lane T b ->
  op_add T a b = wrap T (a + b) /\
  op_sub T a b = wrap T (a - b) /\
  (lane T (a + b) -> op_add T a b = a + b) /\
  (lane T (a - b) -> op_sub T a b = a - b) /\
  op_sub T (op_add T a b) b = a /\
  op_add T (op_sub T a b) b = a.
Proof.
  intros HT Ha Hb. pose proof (width_le_64 T) as HW.
  rewrite !op_add_wrap, !op_sub_wrap by assumption.
  split; [reflexivity |]. split; [reflexivity |].
  split; [apply wrap_lane |]. split; [apply wrap_lane |].
  assert (R : forall x y, eqm (bit_width T) x y -> lane T y -> wrap T x = y).
  { intros x y H Hy. rewrite (wrap_cong T x y H). now apply wrap_lane. }
  split; apply R; try assumption.
  - replace (a mod 2 ^ bit_width T) with ((a + b - b) mod 2 ^ bit_width T)
      by (f_equal; lia).
    apply eqm_sub; [apply eqm_wrap; [lia | reflexivity] | reflexivity].
  - replace (a mod 2 ^ bit_width T) with ((a - b + b) mod 2 ^ bit_width T)
      by (f_equal; lia).
    apply eqm_add; [apply eqm_wrap; [lia | reflexivity] | reflexivity].
Qed.

Lemma add_sub_wrap_around_witness :
  op_add U8 200 100 = wrap U8 (200 + 100) /\
  op_sub U8 200 100 = wrap U8 (200 - 100) /\
  (lane U8 (200 + 100) -> op_add U8 200 100 = 200 + 100) /\
  (lane U8 (200 - 100) -> op_sub U8 200 100 = 200 - 100) /\
  op_sub U8 (op_add U8 200 100) 100 = 200 /\
  op_add U8 (op_sub U8 200 100) 100 = 200.
Proof. apply (add_sub_wrap_around U8 200 100); [reflexivity | lane_tac | lane_tac]. Defined.

(** X2. avg on uint8 and uint16 lanes is (a + b + 1) / 2 computed without
    overflow: the sum is taken in int, so the result is the exact average
    rounded up, lies between the two arguments and is a lane of T. *)
Theorem avg_rounds_up (T : LaneType) (a b r : Z) :
  lane T a -> lane T b -> avg T a b = Some r ->
  r = (a + b + 1) / 2 /\ Z.min a b <= r <= Z.max a b /\ lane T r.
Proof.
  intros Ha Hb H.
  assert (HT : T = U8 \/ T = U16)
    by (destruct T; try discriminate; auto).
  assert (E : r = wrap T (Z.quot (wrap I32 (wrap I32 (a + b) + 1)) 2)).
  { destruct HT; subst T; simpl in H; injection H as <-; reflexivity. }
  assert (Hr : 0 <= a <= 65535 /\ 0 <= b <= 65535).
  { destruct HT; subst T; lane_bounds; lia. }
  rewrite (wrap_lane I32 (a + b)) in E by (lane_bounds; lia).
  rewrite (wrap_lane I32 (a + b + 1)) in E by (lane_bounds; lia).
  rewrite Z.quot_div_nonneg in E by lia.
  assert (L : lane T ((a + b + 1) / 2)).
  { destruct HT; subst T; lane_bounds; clear H E;
      Z.div_mod_to_equations; lia. }
  rewrite wrap_lane in E by exact L. subst r.
  split; [reflexivity |]. split; [| exact L].
  clear L. Z.div_mod_to_equations. lia.
Qed.

Lemma avg_rounds_up_witness :
  254 = (253 + 254 + 1) / 2 /\ Z.min 253 254 <= 254 <= Z.max 253 254 /\
  lane U8 254.
Proof.
  apply (avg_rounds_up U8 253 254 254); [lane_tac | lane_tac | reflexivity].
Defined.


(** *** Absolute value *)

(** X3. abs on an integer lane returns the magnitude of every value but
    the smallest one of a signed type, whose magnitude T cannot hold: that
    value is returned unchanged (and stays negative).  On unsigned lanes
    abs is the identity. *)
Theorem abs_magnitude (T : LaneType) (a : Z) :
  IsFloat T = false -> lane T a ->
  (a <> LimitsMin T -> abs T a = Z.abs a /\ lane T (abs T a)) /\
  abs T (LimitsMin T) = LimitsMin T.
Proof.
  intros HT Ha. split.
  - intros Hm. unfold abs.
    destruct (Z.leb_spec 0 a) as [Hp | Hn]; cbn [orb].
    + rewrite Z.abs_eq by exact Hp. split; [reflexivity | exact Ha].
    + destruct (Z.eqb_spec a (LimitsMin T)) as [E | _]; [contradiction |].
      assert (L : lane T (- a) /\ lane (promote T) (- a)).
      { destruct T; try discriminate; cbn [promote]; lane_bounds; lia. }
      destruct L as [L L'].
      rewrite (wrap_lane _ _ L'), (wrap_lane _ _ L).
      split; [lia | exact L].
  - unfold abs. rewrite Z.eqb_refl, orb_true_r. reflexivity.
Qed.

Lemma abs_magnitude_witness :
  (-7 <> LimitsMin I8 -> abs I8 (-7) = Z.abs (-7) /\ lane I8 (abs I8 (-7))) /\
  abs I8 (LimitsMin I8) = LimitsMin I8.
Proof. apply (abs_magnitude I8 (-7)); [reflexivity | lane_tac]. Defined.

(** *** Shifts by a constant *)

Lemma lane_zero (T : LaneType) : LimitsMin T <= 0 <= LimitsMax T.
Proof. destruct T; lane_bounds; lia. Qed.

Lemma lane_promote (T : LaneType) (x : Z) : lane T x -> lane (promote T) x.
Proof. destruct T; cbn [promote]; intros H; lane_bounds; lia. Qed.

Lemma div_pow2_between (a k : Z) :
  0 <= k -> (0 <= a -> 0 <= a / 2 ^ k <= a) /\ (a < 0 -> a <= a / 2 ^ k < 0).
Proof.
  intros Hk. pose proof (pow2_pos k Hk) as HP.
  pose proof (Z.div_mod a (2 ^ k) ltac:(lia)) as E.
  pose proof (Z.mod_pos_bound a (2 ^ k) HP) as R.
  split; intros Ha; nia.
Qed.

Lemma shift_guard (k : Z) (T : LaneType) :
  0 <= k < bit_width T -> (0 <=? k) && (k <? sizeof T * 8) = true.
Proof.
  unfold bit_width. intros H. apply andb_true_intro. split.
  - apply Z.leb_le; lia.
  - apply Z.ltb_lt; lia.
Qed.

Lemma shift_right_floor (kBits : Z) (T : LaneType) (a : Z) :
  IsFloat T = false -> 0 <= kBits < bit_width T -> lane T a ->
  shift_right kBits T a = Some (a / 2 ^ kBits).
Proof.
  intros HT Hk Ha. unfold shift_right.
  rewrite (shift_guard kBits T Hk).
  destruct (div_pow2_between a kBits ltac:(lia)) as [Dp Dn].
  pose proof (lane_zero T) as Z0.
  assert (Lq : lane T (a / 2 ^ kBits)) by (unfold lane in *; lia).
  rewrite Z.shiftr_div_pow2 by lia.
  rewrite (wrap_lane _ _ (lane_promote T _ Lq)), (wrap_lane _ _ Lq).
  reflexivity.
Qed.

(** X4. For an integer type and a shift count the static assertion
    accepts (0 <= kBits < the width of T): shift_right divides by 2^kBits
    rounding toward minus infinity (an arithmetic shift on signed lanes);
    shifting a non-negative lane right and then left by the same count
    clears its low kBits bits and nothing else; shift_left on an unsigned
    lane multiplies by 2^kBits modulo 2^width. *)
Theorem shift_right_then_left (kBits : Z) (T : LaneType) (a : Z) :
  IsFloat T = false -> 0 <= kBits < bit_width T -> lane T a ->
  shift_right kBits T a = Some (a / 2 ^ kBits) /\
  (0 <= a ->
   shift_left kBits T (a / 2 ^ kBits) = Some (a - a mod 2 ^ kBits)) /\
  (IsSigned T = false ->
   shift_left kBits T a = Some ((a * 2 ^ kBits) mod 2 ^ bit_width T)).
Proof.
  intros HT Hk Ha.
  split; [now apply shift_right_floor |].
  unfold shift_left.
  rewrite (shift_guard kBits T Hk).
  destruct (div_pow2_between a kBits ltac:(lia)) as [Dp Dn].
  pose proof (lane_zero T) as Z0.
  split.
  - intros Hp. rewrite Z.shiftl_mul_pow2 by lia.
    assert (E : a / 2 ^ kBits * 2 ^ kBits = a - a mod 2 ^ kBits).
    { pose proof (Z.div_mod a (2 ^ kBits)) as D.
      pose proof (pow2_pos kBits) as HP. lia. }
    rewrite E.
    pose proof (Z.mod_pos_bound a (2 ^ kBits) (pow2_pos kBits ltac:(lia))) as R.
    assert (L : lane T (a - a mod 2 ^ kBits)).
    { pose proof (Z.mod_le a (2 ^ kBits) Hp (pow2_pos kBits ltac:(lia))).
      unfold lane in *; lia. }
    rewrite (wrap_lane _ _ (lane_promote T _ L)), (wrap_lane _ _ L).
    reflexivity.
  - intros HS. rewrite Z.shiftl_mul_pow2 by lia. f_equal.
    rewrite (wrap_cong T _ (a * 2 ^ kBits)).
    + unfold wrap. rewrite HS. reflexivity.
    + apply eqm_wrap; [| reflexivity].
      pose proof (promote_width T). pose proof (bit_width_pos T). lia.
Qed.

Lemma shift_right_then_left_witness :
  shift_right 4 U8 0xAB = Some (0xAB / 2 ^ 4) /\
  (0 <= 0xAB ->
   shift_left 4 U8 (0xAB / 2 ^ 4) = Some (0xAB - 0xAB mod 2 ^ 4)) /\
  (IsSigned U8 = false ->
   shift_left 4 U8 0xAB = Some ((0xAB * 2 ^ 4) mod 2 ^ bit_width U8)).
Proof.
  apply (shift_right_then_left 4 U8 0xAB);
    [reflexivity | unfold bit_width; simpl; lia | lane_tac].
Defined.

(** *** min, max and clamp on integers *)

Lemma raw_lt_int (T : LaneType) (a b : Z) :
  IsFloat T = false -> raw_lt T a b = (a <? b).
Proof. destruct T; try discriminate; reflexivity. Qed.

Lemma min_int (T : LaneType) (a b : Z) :
  IsFloat T = false -> lane T a -> lane T b -> min T a b = Z.min a b.
Proof.
  intros HT Ha Hb. unfold min, to_lane. rewrite HT, raw_lt_int by exact HT.
  destruct (Z.ltb_spec a b); rewrite wrap_lane by assumption; lia.
Qed.

Lemma max_int (T : LaneType) (a b : Z) :
  IsFloat T = false -> lane T a -> lane T b -> max T a b = Z.max a b.
Proof.
  intros HT Ha Hb. unfold max, to_lane. rewrite HT, raw_lt_int by exact HT.
  destruct (Z.ltb_spec a b); rewrite wrap_lane by assumption; lia.
Qed.

(** X5. clamp on integer lanes with lo <= hi returns the value of
    [lo, hi] closest to v: v itself when it is inside, lo when v is below
    and hi when v is above. *)
Theorem clamp_closest (T : LaneType) (v lo hi : Z) :
  IsFloat T = false -> lane T v -> lane T lo -> lane T hi -> lo <= hi ->
  lo <= clamp T v lo hi <= hi /\
  (lo <= v <= hi -> clamp T v lo hi = v) /\
  (v < lo -> clamp T v lo hi = lo) /\
  (hi < v -> clamp T v lo hi = hi).
Proof.
  intros HT Hv Hlo Hhi Hle. unfold clamp.
  rewrite (max_int T lo v HT Hlo Hv).
  rewrite min_int; [lia | exact HT | unfold lane in *; lia | exact Hhi].
Qed.

Lemma clamp_closest_witness :
  -10 <= clamp I8 100 (-10) 20 <= 20 /\
  (-10 <= 100 <= 20 -> clamp I8 100 (-10) 20 = 100) /\
  (100 < -10 -> clamp I8 100 (-10) 20 = -10) /\
  (20 < 100 -> clamp I8 100 (-10) 20 = 20).
Proof.
  apply (clamp_closest I8 100 (-10) 20);
    [reflexivity | lane_tac | lane_tac | lane_tac | lia].
Defined.

(** X6. With the bounds the wrong way round (hi < lo), clamp on integer
    lanes returns hi whatever v is: min is applied last. *)
Theorem clamp_crossed_bounds (T : LaneType) (v lo hi : Z) :
  IsFloat T = false -> lane T v -> lane T lo -> lane T hi -> hi < lo ->
  clamp T v lo hi = hi.
Proof.
  intros HT Hv Hlo Hhi Hlt. unfold clamp.
  rewrite (max_int T lo v HT Hlo Hv).
  rewrite min_int; [lia | exact HT | unfold lane in *; lia | exact Hhi].
Qed.

Lemma clamp_crossed_bounds_witness : clamp U8 7 20 10 = 10.
Proof.
  apply (clamp_crossed_bounds U8 7 20 10);
    [reflexivity | lane_tac | lane_tac | lane_tac | lia].
Defined.

(** *** Multiplication *)

Lemma op_mul_wrap (T : LaneType) (a b : Z) :
  IsFloat T = false -> op_mul T a b = wrap T (a * b).
Proof.
  intros HT. unfold op_mul. rewrite HT.
  pose proof (width_le_64 T) as HW.
  destruct (IsSigned T); apply wrap_cong;
    (apply eqm_wrap; [exact HW |]);
    apply eqm_mul; (apply eqm_wrap; [exact HW | reflexivity]).
Qed.

(** X7. On integer lanes operator* is the exact product reduced into
    the range of T, and mul_add, mul_sub and nmul_add are mul * x + add,
    mul * x - sub and add - mul * x reduced into the range of T, although
    the intermediate product has already been reduced.  (For int64_t the
    product is taken in int64_t and must not overflow.) *)
Theorem mul_add_wraps (T : LaneType) (mul x c : Z) :
  IsFloat T = false -> lane T mul -> lane T x -> lane T c ->
  (T = I64 -> lane I64 (mul * x)) ->
  op_mul T mul x = wrap T (mul * x) /\
  mul_add T mul x c = wrap T (mul * x + c) /\
  mul_sub T mul x c = wrap T (mul * x - c) /\
  nmul_add T mul x c = wrap T (c - mul * x).
Proof.
  intros HT _ _ _ _. pose proof (width_le_64 T) as HW.
  unfold mul_add, mul_sub, nmul_add.
  rewrite op_add_wrap, !op_sub_wrap, !op_mul_wrap by exact HT.
  split; [reflexivity |].
  split; [| split]; apply wrap_cong.
  - apply eqm_add; [apply eqm_wrap; [lia | reflexivity] | reflexivity].
  - apply eqm_sub; [apply eqm_wrap; [lia | reflexivity] | reflexivity].
  - apply eqm_sub; [reflexivity | apply eqm_wrap; [lia | reflexivity]].
Qed.

Lemma mul_add_wraps_witness :
  op_mul I16 300 200 = wrap I16 (300 * 200) /\
  mul_add I16 300 200 (-5) = wrap I16 (300 * 200 + -5) /\
  mul_sub I16 300 200 (-5) = wrap I16 (300 * 200 - -5) /\
  nmul_add I16 300 200 (-5) = wrap I16 (-5 - 300 * 200).
Proof.
  apply (mul_add_wraps I16 300 200 (-5));
    [reflexivity | lane_tac | lane_tac | lane_tac | discriminate].
Defined.

Lemma i16_product (a b : Z) :
  lane I16 a -> lane I16 b ->
  - 1073709056 <= a * b <= 1073741824 /\
  (1073709056 < a * b -> a = -32768 /\ b = -32768).
Proof.
  intros Ha Hb. lane_bounds. split; [nia |].
  intros H.
  destruct (Z.eq_dec a (-32768)) as [-> | Na];
    destruct (Z.eq_dec b (-32768)) as [-> | Nb]; try (split; reflexivity);
    exfalso; nia.
Qed.

(** X8. ext::mulhi returns the upper 16 bits of the 32-bit product:
    floor(a * b / 2^16), which always fits an int16 lane. *)
Theorem mulhi_upper_half (a b : Z) :
  lane I16 a -> lane I16 b ->
  mulhi a b = (a * b) / 2 ^ 16 /\ lane I16 (mulhi a b).
Proof.
  intros Ha Hb. destruct (i16_product a b Ha Hb) as [Hp _].
  unfold mulhi.
  rewrite (wrap_lane I32 (a * b)) by (lane_bounds; lia).
  rewrite Z.shiftr_div_pow2 by lia.
  assert (Hq : -16384 <= (a * b) / 2 ^ 16 <= 16384).
  { change (2 ^ 16) with 65536. Z.div_mod_to_equations. lia. }
  rewrite (wrap_lane I32) by (lane_bounds; lia).
  rewrite (wrap_lane I16) by (lane_bounds; lia).
  split; [reflexivity | lane_bounds; lia].
Qed.

Lemma mulhi_upper_half_witness :
  mulhi (-32768) 3 = (-32768 * 3) / 2 ^ 16 /\ lane I16 (mulhi (-32768) 3).
Proof. apply (mulhi_upper_half (-32768) 3); lane_tac. Defined.

(** X9. ext::mulhrs computes (a * b + 2^14) >> 15, which equals the
    formula of its comment, (((a * b) >> 14) + 1) >> 1, on every pair of
    int16 lanes but (-32768, -32768): there the formula gives 32768 and
    the function saturates to 32767. *)
Theorem mulhrs_rounds_and_saturates (a b : Z) :
  lane I16 a -> lane I16 b ->
  mulhrs a b
  = (if (a =? -32768) && (b =? -32768) then 32767 else mulhrs_doc a b) /\
  mulhrs_doc (-32768) (-32768) = 32768.
Proof.
  intros Ha Hb. split; [| reflexivity].
  destruct (i16_product a b Ha Hb) as [Hp Hx].
  unfold mulhrs, mulhrs_doc.
  rewrite (wrap_lane I32 (a * b)) by (lane_bounds; lia).
  change (wrap I32 (Z.shiftl 1 14)) with 16384.
  rewrite (wrap_lane I32 (a * b + 16384)) by (lane_bounds; lia).
  rewrite !Z.shiftr_div_pow2 by lia.
  change (2 ^ 15) with 32768. change (2 ^ 14) with 16384.
  change (2 ^ 1) with 2.
  set (p := a * b) in *.
  assert (E : (p + 16384) / 32768 = (p / 16384 + 1) / 2).
  { Z.div_mod_to_equations. lia. }
  assert (R : -32768 <= (p + 16384) / 32768 <= 32768).
  { Z.div_mod_to_equations. lia. }
  rewrite (wrap_lane I32) by (lane_bounds; lia).
  rewrite SIMD_MAX_max, SIMD_MIN_min.
  destruct (Z.eqb_spec a (-32768)) as [Ea | Na];
    destruct (Z.eqb_spec b (-32768)) as [Eb | Nb]; cbn [andb].
  - subst a b. reflexivity.
  - assert (Hs : (p + 16384) / 32768 <= 32767).
    { assert (p <= 1073709056) by (destruct (Z_lt_le_dec 1073709056 p);
        [destruct Hx; [assumption | contradiction] | assumption]).
      Z.div_mod_to_equations. lia. }
    rewrite wrap_lane by (lane_bounds; lia). lia.
  - assert (Hs : (p + 16384) / 32768 <= 32767).
    { assert (p <= 1073709056) by (destruct (Z_lt_le_dec 1073709056 p);
        [destruct Hx; [assumption | contradiction] | assumption]).
      Z.div_mod_to_equations. lia. }
    rewrite wrap_lane by (lane_bounds; lia). lia.
  - assert (Hs : (p + 16384) / 32768 <= 32767).
    { assert (p <= 1073709056) by (destruct (Z_lt_le_dec 1073709056 p);
        [destruct Hx; [assumption | contradiction] | assumption]).
      Z.div_mod_to_equations. lia. }
    rewrite wrap_lane by (lane_bounds; lia). lia.
Qed.

Lemma mulhrs_rounds_and_saturates_witness :
  mulhrs 16384 3
  = (if (16384 =? -32768) && (3 =? -32768) then 32767
     else mulhrs_doc 16384 3) /\
  mulhrs_doc (-32768) (-32768) = 32768.
Proof. apply (mulhrs_rounds_and_saturates 16384 3); lane_tac. Defined.

(** X10. mul_even returns the exact product of its int32 (uint32) lanes
    as an int64 (uint64) lane: the double-wide result never wraps. *)
Theorem mul_even_exact (T : LaneType) (a b r : Z) :
  lane T a -> lane T b -> mul_even T a b = Some r ->
  r = a * b /\ lane (wide T) r.
Proof.
  intros Ha Hb H.
  destruct T; try discriminate; injection H as <-;
    unfold mul_even_i32, mul_even_u32; cbn [wide]; lane_bounds.
  - rewrite (wrap_lane U64 a), (wrap_lane U64 b) by (lane_bounds; lia).
    assert (0 <= a * b <= 18446744065119617025) by nia.
    rewrite !(wrap_lane U64 (a * b)) by (lane_bounds; lia).
    split; [reflexivity | lia].
  - rewrite (wrap_lane I64 a), (wrap_lane I64 b) by (lane_bounds; lia).
    assert (-4611686016279904256 <= a * b <= 4611686018427387904) by nia.
    rewrite !(wrap_lane I64 (a * b)) by (lane_bounds; lia).
    split; [reflexivity | lia].
Qed.

Lemma mul_even_exact_witness :
  -4294967296 = -2147483648 * 2 /\ lane (wide I32) (-4294967296).
Proof.
  apply (mul_even_exact I32 (-2147483648) 2 (-4294967296));
    [lane_tac | lane_tac | reflexivity].
Defined.


(** *** Division *)

Lemma quot_range (a b lo hi : Z) :
  lo <= a <= hi -> b <> 0 -> lo = 0 \/ lo = - hi - 1 -> 0 <= hi ->
  (lo = 0 -> 0 <= b) -> ~ (a = lo /\ b = -1) ->
  lo <= Z.quot a b <= hi /\ Z.abs (Z.quot a b * b) <= Z.abs a.
Proof.
  intros Ha Hnz Hlo Hhi Hu Hov.
  pose proof (Z.mul_quot_le a b) as F1.
  pose proof (Z.mul_quot_ge a b) as F2.
  destruct (Z.eq_dec b (-1)) as [-> | Hm1].
  { change (-1) with (- (1)). rewrite Z.quot_opp_r, Z.quot_1_r by lia. lia. }
  destruct (Z.eq_dec b 1) as [-> | H1].
  { rewrite Z.quot_1_r. lia. }
  set (q := Z.quot a b) in *.
  split; [| rewrite (Z.mul_comm q b); lia].
  destruct (Z_le_gt_dec 0 a) as [Hpa | Hna].
  - specialize (F1 Hpa Hnz). clear F2.
    destruct (Z_le_gt_dec 0 b); split; nia.
  - specialize (F2 ltac:(lia) Hnz). clear F1.
    destruct (Z_le_gt_dec 0 b); split; nia.
Qed.

(** X11. operator/ on integer lanes: division by zero is undefined;
    otherwise the quotient is truncated toward zero and is a lane of T,
    the one exception being the smallest signed value divided by -1,
    which wraps back to the smallest value on int8 and int16 lanes (the
    division is done in int) and is undefined on int32 and int64 lanes. *)
Theorem div_truncates (T : LaneType) (a b : Z) :
  IsFloat T = false -> lane T a -> lane T b ->
  (b = 0 -> op_div T a b = None) /\
  (b <> 0 -> ~ (a = LimitsMin T /\ b = -1) ->
   op_div T a b = Some (Z.quot a b) /\ lane T (Z.quot a b) /\
   Z.abs (Z.quot a b * b) <= Z.abs a) /\
  (IsSigned T = true ->
   op_div T (LimitsMin T) (-1)
   = if bit_width T <? 32 then Some (LimitsMin T) else None).
Proof.
  intros HT Ha Hb. split; [| split].
  - intros ->. destruct T; try discriminate; reflexivity.
  - intros Hnz Hov.
    assert (Hr : LimitsMin T <= Z.quot a b <= LimitsMax T /\
                 Z.abs (Z.quot a b * b) <= Z.abs a).
    { apply quot_range; try assumption.
      - destruct T; try discriminate; vm_compute; auto.
      - destruct T; vm_compute; discriminate.
      - intros H0. unfold lane in Hb. lia. }
    destruct Hr as [Hl Hm].
    pose proof (lane_promote T _ Hl) as Hp. unfold lane in Hp.
    assert (E : op_div T a b
                = if b =? 0 then None
                  else if (LimitsMin (promote T) <=? Z.quot a b)
                          && (Z.quot a b <=? LimitsMax (promote T))
                       then Some (wrap T (Z.quot a b)) else None)
      by (destruct T; try discriminate; reflexivity).
    rewrite E. destruct (Z.eqb_spec b 0); [contradiction |].
    destruct (Z.leb_spec (LimitsMin (promote T)) (Z.quot a b)); [| lia].
    destruct (Z.leb_spec (Z.quot a b) (LimitsMax (promote T))); [| lia].
    cbn [andb]. rewrite (wrap_lane T _ Hl). auto.
  - intros HS. destruct T; try discriminate; reflexivity.
Qed.

Lemma div_truncates_witness :
  (3 = 0 -> op_div I16 (-7) 3 = None) /\
  (3 <> 0 -> ~ (-7 = LimitsMin I16 /\ 3 = -1) ->
   op_div I16 (-7) 3 = Some (Z.quot (-7) 3) /\ lane I16 (Z.quot (-7) 3) /\
   Z.abs (Z.quot (-7) 3 * 3) <= Z.abs (-7)) /\
  (IsSigned I16 = true ->
   op_div I16 (LimitsMin I16) (-1)
   = if bit_width I16 <? 32 then Some (LimitsMin I16) else None).
Proof. apply (div_truncates I16 (-7) 3); [reflexivity | lane_tac | lane_tac]. Defined.

(** *** Exclusive or *)

Lemma op_xor_testbit (T : LaneType) (a b i : Z) :
  0 <= i < bit_width T ->
  Z.testbit (op_xor T a b) i = xorb (Z.testbit a i) (Z.testbit b i).
Proof.
  intros Hi.
  destruct T; unfold op_xor;
    try (rewrite wrap_testbit by assumption; apply Z.lxor_spec);
    rewrite BitwiseOp_testbit by assumption;
    rewrite Z.lxor_spec, !wrap_testbit by assumption; reflexivity.
Qed.

Lemma op_xor_lane (T : LaneType) (a b : Z) : lane T (op_xor T a b).
Proof.
  destruct T; unfold op_xor; try apply wrap_is_lane;
    apply BitwiseOp_lane; reflexivity.
Qed.

(** X12. Laws of the bitwise operators on every element type (floats
    through their bits): xor with the same lane twice gives the lane
    back, a lane xor itself is zero, xor with the all-one mask is the
    complement, andnot(a, b) is (a ^ ~0) & b, and andnot(a, b) | (a & b)
    is b. *)
Theorem xor_laws (T : LaneType) (a b : Z) :
  lane T a -> lane T b ->
  op_xor T (op_xor T a b) b = a /\
  op_xor T a a = all_zero_mask T /\
  op_xor T a (all_one_mask T) = andnot T a (all_one_mask T) /\
  andnot T a b = op_and T (op_xor T a (all_one_mask T)) b /\
  op_or T (andnot T a b) (op_and T a b) = b.
Proof.
  intros Ha Hb.
  assert (L0 : lane T (all_zero_mask T)) by apply lane_zero.
  repeat split; apply (lane_ext T);
    try apply op_xor_lane; try apply op_lane; try assumption;
    intros i Hi;
    rewrite ?op_or_testbit, ?op_and_testbit, ?andnot_testbit,
      ?op_xor_testbit, ?all_one_mask_testbit by assumption;
    unfold all_zero_mask; rewrite ?Z.bits_0;
    destruct (Z.testbit a i), (Z.testbit b i); reflexivity.
Qed.

Lemma xor_laws_witness :
  op_xor F32 (op_xor F32 0x3F800000 0x80000000) 0x80000000 = 0x3F800000 /\
  op_xor F32 0x3F800000 0x3F800000 = all_zero_mask F32 /\
  op_xor F32 0x3F800000 (all_one_mask F32)
  = andnot F32 0x3F800000 (all_one_mask F32) /\
  andnot F32 0x3F800000 0x80000000
  = op_and F32 (op_xor F32 0x3F800000 (all_one_mask F32)) 0x80000000 /\
  op_or F32 (andnot F32 0x3F800000 0x80000000)
            (op_and F32 0x3F800000 0x80000000) = 0x80000000.
Proof. apply (xor_laws F32 0x3F800000 0x80000000); lane_tac. Defined.

(** *** Comparisons and select *)

Lemma ComparisonResult_testbit (T : LaneType) (c : bool) (i : Z) :
  0 <= i < bit_width T -> Z.testbit (ComparisonResult T c) i = c.
Proof.
  intros Hi. rewrite ComparisonResult_mask. destruct c.
  - now apply all_one_mask_testbit.
  - apply Z.bits_0.
Qed.

Lemma ComparisonResult_lane (T : LaneType) (c : bool) :
  lane T (ComparisonResult T c).
Proof. apply wrap_is_lane. Qed.





Lemma raw_le_lt_eq (T : LaneType) (a b : Z) :
  raw_le T a b = raw_lt T a b || raw_eq T a b.
Proof.
  assert (F : forall fmt, fle fmt a b = flt fmt a b || feq fmt a b).
  { intros fmt. unfold fle, flt, feq, SFleb, SFltb, SFeqb.
    destruct (SFcompare _ _) as [[| |] |]; reflexivity. }
  destruct T; try apply F; unfold raw_le, raw_lt, raw_eq;
    destruct (Z.leb_spec a b), (Z.ltb_spec a b), (Z.eqb_spec a b);
    try reflexivity; lia.
Qed.

(** X14. Comparisons return masks: every bit of a < b and of a == b is
    the truth value of the comparison of the raw values; a <= b is
    (a < b) | (a == b) and a >= b is (a > b) | (b == a) on every element
    type; on uint8 lanes ext::movemask of the mask is 1 when the
    comparison holds and 0 otherwise. *)
Theorem comparison_masks (T : LaneType) (a b i : Z) :
  0 <= i < bit_width T ->
  op_le T a b = op_or T (op_lt T a b) (op_eq T a b) /\
  op_ge T a b = op_or T (op_gt T a b) (op_eq T b a) /\
  Z.testbit (op_lt T a b) i = raw_lt T a b /\
  Z.testbit (op_eq T a b) i = raw_eq T a b /\
  movemask_u8 (op_lt U8 a b) = Z.b2z (a <? b) /\
  movemask_u8 (op_eq U8 a b) = Z.b2z (a =? b).
Proof.
  intros Hi.
  assert (R : forall x y,
            op_le T x y = op_or T (op_lt T x y) (op_eq T x y)).
  { intros x y. apply (lane_ext T).
    - apply ComparisonResult_lane.
    - apply op_lane.
    - intros j Hj. unfold op_le, op_lt, op_eq.
      rewrite op_or_testbit, !ComparisonResult_testbit by assumption.
      apply raw_le_lt_eq. }
  split; [apply R |]. split; [apply (R b a) |].
  split; [now apply ComparisonResult_testbit |].
  split; [now apply ComparisonResult_testbit |].
  split.
  - unfold op_lt, raw_lt. now destruct (a <? b).
  - unfold op_eq, raw_eq. now destruct (a =? b).
Qed.

Lemma comparison_masks_witness :
  op_le U8 3 5 = op_or U8 (op_lt U8 3 5) (op_eq U8 3 5) /\
  op_ge U8 3 5 = op_or U8 (op_gt U8 3 5) (op_eq U8 5 3) /\
  Z.testbit (op_lt U8 3 5) 7 = raw_lt U8 3 5 /\
  Z.testbit (op_eq U8 3 5) 7 = raw_eq U8 3 5 /\
  movemask_u8 (op_lt U8 3 5) = Z.b2z (3 <? 5) /\
  movemask_u8 (op_eq U8 3 5) = Z.b2z (3 =? 5).
Proof.
  apply (comparison_masks U8 3 5 7). unfold bit_width; simpl; lia.
Defined.

(** *** load and store *)

Lemma lane_of_object_bytes (T : LaneType) (v : Z) :
  lane T v -> lane_of_bytes T (object_bytes T v) = v.
Proof.
  intros Hv. unfold lane_of_bytes, object_bytes, bits_of.
  rewrite le_value_le_bytes, sizeof_nat.
  rewrite <- (wrap_lane T v Hv) at 2. apply wrap_cong.
  now rewrite !Zmod_mod.
Qed.

Lemma le_value_bound (l : list Z) :
  Forall (fun b => 0 <= b < 256) l ->
  0 <= le_value l < 2 ^ (8 * Z.of_nat (length l)).
Proof.
  induction 1 as [| b t Hb Ht IH]; [simpl; lia |].
  cbn [le_value length]. rewrite Nat2Z.inj_succ.
  replace (8 * Z.succ (Z.of_nat (length t)))
    with (8 + 8 * Z.of_nat (length t)) by lia.
  rewrite Z.pow_add_r by lia. change (2 ^ 8) with 256. lia.
Qed.

Lemma le_bytes_le_value (l : list Z) :
  Forall (fun b => 0 <= b < 256) l ->
  le_bytes (length l) (le_value l) = l.
Proof.
  induction 1 as [| b t Hb Ht IH]; [reflexivity |].
  cbn [le_value length le_bytes].
  assert (E1 : (b + 256 * le_value t) mod 256 = b).
  { generalize (le_value t). intros q. Z.div_mod_to_equations. lia. }
  assert (E2 : (b + 256 * le_value t) / 256 = le_value t).
  { generalize (le_value t). intros q. Z.div_mod_to_equations. lia. }
  now rewrite E1, E2, IH.
Qed.

(** X15. store followed by load at the same address returns the lane
    stored, for every element type; store writes sizeof(T) bytes: the
    size of the memory and the bytes after the first sizeof(T) are
    unchanged. *)
Theorem store_load_round_trip (T : LaneType) (v : Z) (aligned : list Z) :
  lane T v ->
  (Z.to_nat (sizeof T) <= length aligned)%nat ->
  exists aligned',
    store T v aligned = Some aligned' /\
    load T aligned' = Some v /\
    length aligned' = length aligned /\
    skipn (Z.to_nat (sizeof T)) aligned'
    = skipn (Z.to_nat (sizeof T)) aligned.
Proof.
  intros Hv Hlen. unfold store, load, CopyBytes.
  set (n := Z.to_nat (sizeof T)) in *.
  assert (Ho : length (object_bytes T v) = n) by apply le_bytes_length.
  destruct (Nat.leb_spec n (length aligned)) as [_ | C]; [| lia].
  rewrite (firstn_all2 (object_bytes T v)) by lia.
  eexists. split; [reflexivity |].
  assert (L : length (object_bytes T v ++ skipn n aligned) = length aligned).
  { rewrite length_app, length_skipn. lia. }
  destruct (Nat.leb_spec n (length (object_bytes T v ++ skipn n aligned)))
    as [_ | C]; [| lia].
  split; [| split; [exact L |]].
  - f_equal. rewrite firstn_app, Ho, Nat.sub_diag, firstn_O, app_nil_r.
    rewrite (firstn_all2 (object_bytes T v)) by lia.
    rewrite (skipn_all2 (repeat 0 n)) by (rewrite repeat_length; lia).
    rewrite app_nil_r. now apply lane_of_object_bytes.
  - rewrite skipn_app, Ho, Nat.sub_diag, skipn_O.
    rewrite (skipn_all2 (object_bytes T v)) by lia. reflexivity.
Qed.

Lemma store_load_round_trip_witness :
  exists aligned',
    store I16 (-2) [1; 2; 3] = Some aligned' /\
    load I16 aligned' = Some (-2) /\
    length aligned' = length [1; 2; 3] /\
    skipn (Z.to_nat (sizeof I16)) aligned'
    = skipn (Z.to_nat (sizeof I16)) [1; 2; 3].
Proof.
  apply (store_load_round_trip I16 (-2) [1; 2; 3]); [lane_tac | simpl; lia].
Defined.

(** X16. load followed by store of the loaded lane leaves the memory as
    it was, for every element type and every content of the memory (a
    float lane is copied bit for bit, a NaN included). *)
Theorem load_store_unchanged (T : LaneType) (aligned : list Z) :
  Forall (fun b => 0 <= b < 256) aligned ->
  (Z.to_nat (sizeof T) <= length aligned)%nat ->
  exists v,
    load T aligned = Some v /\ lane T v /\ store T v aligned = Some aligned.
Proof.
  intros Hb Hlen. unfold store, load, CopyBytes.
  set (n := Z.to_nat (sizeof T)) in *.
  destruct (Nat.leb_spec n (length aligned)) as [_ | C]; [| lia].
  eexists. split; [reflexivity |]. split; [apply wrap_is_lane |].
  f_equal.
  rewrite (skipn_all2 (repeat 0 n)) by (rewrite repeat_length; lia).
  rewrite app_nil_r.
  assert (Hf : Forall (fun b => 0 <= b < 256) (firstn n aligned))
    by now apply Forall_take.
  assert (Hl : length (firstn n aligned) = n)
    by (rewrite length_firstn; lia).
  assert (E : object_bytes T (lane_of_bytes T (firstn n aligned))
              = firstn n aligned).
  { unfold object_bytes, lane_of_bytes, bits_of. rewrite wrap_mod.
    fold n. rewrite <- sizeof_nat. fold n. rewrite le_bytes_mod.
    rewrite <- Hl at 1. now apply le_bytes_le_value. }
  rewrite E, firstn_firstn, Nat.min_id. apply firstn_skipn.
Qed.

Lemma load_store_unchanged_witness :
  exists v,
    load F32 [0; 0; 192; 127; 9] = Some v /\ lane F32 v /\
    store F32 v [0; 0; 192; 127; 9] = Some [0; 0; 192; 127; 9].
Proof.
  apply (load_store_unchanged F32 [0; 0; 192; 127; 9]);
    [repeat constructor; lia | simpl; lia].
Defined.

(** *** Conversions *)

(** X17. convert_to between integer types: converting a lane to a type
    at least as wide and back returns the lane, whatever the signedness
    of the two types; a value the target type can hold is not changed. *)
Theorem convert_to_round_trip (FromT ToT : LaneType) (v : Z) :
  IsFloat FromT = false -> IsFloat ToT = false ->
  lane FromT v -> bit_width FromT <= bit_width ToT ->
  convert_to FromT (convert_to ToT v) = v /\
  (lane ToT v -> convert_to ToT v = v).
Proof.
  intros _ _ Hv Hw. unfold convert_to. split.
  - rewrite <- (wrap_lane FromT v Hv) at 2. apply wrap_cong.
    apply eqm_wrap; [| reflexivity].
    pose proof (bit_width_pos FromT). lia.
  - apply wrap_lane.
Qed.

Lemma convert_to_round_trip_witness :
  convert_to I8 (convert_to U32 (-1)) = -1 /\
  (lane U32 (-1) -> convert_to U32 (-1) = -1).
Proof.
  apply (convert_to_round_trip I8 U32 (-1));
    [reflexivity | reflexivity | lane_tac | unfold bit_width; simpl; lia].
Defined.

Lemma object_bytes_inj (T : LaneType) (x y : Z) :
  lane T x -> lane T y -> object_bytes T x = object_bytes T y -> x = y.
Proof.
  intros Hx Hy E.
  rewrite <- (lane_of_object_bytes T x Hx), <- (lane_of_object_bytes T y Hy).
  now rewrite E.
Qed.

(** X18. cast_to between types of one size reinterprets the bytes: the
    result has the object representation of the source, nothing outside
    the destination is written, and casting back returns the source
    lane. *)
Theorem cast_to_same_size (T FromT : LaneType) (v : Z) (stack : list Z) :
  sizeof T = sizeof FromT -> lane FromT v ->
  (Z.to_nat (sizeof T) <= length stack)%nat ->
  exists to stack',
    cast_to T FromT v stack = Some (to, stack') /\
    lane T to /\
    object_bytes T to = object_bytes FromT v /\
    length stack' = length stack /\
    skipn (Z.to_nat (sizeof T)) stack' = skipn (Z.to_nat (sizeof T)) stack /\
    exists stack'', cast_to FromT T to stack' = Some (v, stack'').
Proof.
  intros Hs Hv Hlen.
  destruct (cast_to_value T FromT v stack ltac:(lia))
    as (to & stack' & E & Lto & Hb).
  assert (Ho : length (object_bytes FromT v) = Z.to_nat (sizeof T)).
  { unfold object_bytes. rewrite le_bytes_length. now rewrite Hs. }
  rewrite (firstn_all2 (object_bytes FromT v)) in Hb by lia.
  exists to, stack'. split; [exact E |]. split; [exact Lto |].
  split; [exact Hb |].
  assert (S' : stack' = object_bytes FromT v
                        ++ skipn (Z.to_nat (sizeof T)) stack).
  { unfold cast_to in E. rewrite Hs, Z.leb_refl in E.
    injection E as _ <-. unfold CopyBytes. rewrite <- Hs.
    now rewrite (firstn_all2 (object_bytes FromT v)) by lia. }
  split; [| split].
  - rewrite S', length_app, length_skipn. lia.
  - rewrite S', skipn_app, Ho, Nat.sub_diag, skipn_O.
    now rewrite (skipn_all2 (object_bytes FromT v)) by lia.
  - destruct (cast_to_value FromT T to stack' ltac:(lia))
      as (back & stack'' & E' & Lb & Hb').
    assert (Ho' : length (object_bytes T to) = Z.to_nat (sizeof FromT)).
    { unfold object_bytes. rewrite le_bytes_length. now rewrite Hs. }
    rewrite (firstn_all2 (object_bytes T to)) in Hb' by lia.
    rewrite Hb in Hb'.
    rewrite (object_bytes_inj FromT back v Lb Hv Hb') in E'.
    now exists stack''.
Qed.

Lemma cast_to_same_size_witness :
  exists to stack',
    cast_to U32 F32 0xBFC00000 [0; 0; 0; 0; 7] = Some (to, stack') /\
    lane U32 to /\
    object_bytes U32 to = object_bytes F32 0xBFC00000 /\
    length stack' = length [0; 0; 0; 0; 7] /\
    skipn (Z.to_nat (sizeof U32)) stack'
    = skipn (Z.to_nat (sizeof U32)) [0; 0; 0; 0; 7] /\
    exists stack'', cast_to F32 U32 to stack' = Some (0xBFC00000, stack'').
Proof.
  apply (cast_to_same_size U32 F32 0xBFC00000 [0; 0; 0; 0; 7]);
    [reflexivity | lane_tac | simpl; lia].
Defined.


(** *** Saturating and wrapping arithmetic side by side *)

Lemma sat_forms (T : LaneType) (a b : Z) :
  has_sat T = true ->
  add_sat T a b
  = Some (wrap T (SIMD_MIN (SIMD_MAX (LimitsMin T) (wrap I32 (a + b)))
                           (LimitsMax T))) /\
  sub_sat T a b
  = Some (wrap T (SIMD_MIN (SIMD_MAX (LimitsMin T) (wrap I32 (a - b)))
                           (LimitsMax T))).
Proof. destruct T; try discriminate; split; reflexivity. Qed.

Lemma sat_cases (T : LaneType) (x : Z) :
  has_sat T = true ->
  LimitsMin T - 2 ^ bit_width T < x < LimitsMax T + 2 ^ bit_width T ->
  wrap I32 x = x /\
  (LimitsMin T <= x <= LimitsMax T ->
     wrap T (Z.min (Z.max (LimitsMin T) x) (LimitsMax T)) = x /\
     wrap T x = x) /\
  (LimitsMax T < x ->
     wrap T (Z.min (Z.max (LimitsMin T) x) (LimitsMax T)) = LimitsMax T /\
     wrap T x = x - 2 ^ bit_width T /\ x - 2 ^ bit_width T < LimitsMax T) /\
  (x < LimitsMin T ->
     wrap T (Z.min (Z.max (LimitsMin T) x) (LimitsMax T)) = LimitsMin T /\
     wrap T x = x + 2 ^ bit_width T /\ LimitsMin T < x + 2 ^ bit_width T).
Proof.
  intros HT Hx.
  assert (L : lane T (LimitsMin T) /\ lane T (LimitsMax T))
    by (destruct T; try discriminate; split; lane_bounds; lia).
  assert (W : LimitsMax T - LimitsMin T + 1 = 2 ^ bit_width T /\
              0 < 2 ^ bit_width T <= 65536)
    by (destruct T; try discriminate; vm_compute; repeat split;
        try reflexivity; discriminate).
  destruct L as [Lmin Lmax]. destruct W as [W Wb].
  split.
  { apply wrap_lane. destruct T; try discriminate; lane_bounds;
      repeat match goal with
      | H : context [bit_width ?T] |- _ =>
          let v := eval vm_compute in (bit_width T) in
          change (bit_width T) with v in H
      end; lia. }
  assert (R : forall y, LimitsMin T <= y <= LimitsMax T ->
            eqm (bit_width T) x y -> wrap T x = y).
  { intros y Hy E. rewrite (wrap_cong T x y E). now apply wrap_lane. }
  split; [| split].
  - intros Hin. rewrite Z.max_r, Z.min_l by lia.
    split; now apply wrap_lane.
  - intros Hhi. rewrite Z.max_r, Z.min_r by lia.
    split; [now apply wrap_lane |]. split; [| lia].
    apply R; [lia |].
    replace x with (x - 2 ^ bit_width T + 1 * 2 ^ bit_width T) at 1 by lia.
    apply Z_mod_plus_full.
  - intros Hlo. rewrite Z.max_l, Z.min_l by (unfold lane in *; lia).
    split; [now apply wrap_lane |]. split; [| lia].
    apply R; [lia |].
    replace x with (x + 2 ^ bit_width T + (-1) * 2 ^ bit_width T) at 1 by lia.
    apply Z_mod_plus_full.
Qed.

(** X29. On the four types that have them, add_sat and sub_sat agree with
    operator+ and operator- exactly when the exact result fits T; when it
    does not, the wrapping operators return the result off by 2^width and
    the saturating ones the bound of T on the side of the overflow. *)
Theorem saturating_or_wrapping (T : LaneType) (a b : Z) :
  has_sat T = true -> lane T a -> lane T b ->
  exists s d,
    add_sat T a b = Some s /\ sub_sat T a b = Some d /\
    (s = op_add T a b <-> lane T (a + b)) /\
    (d = op_sub T a b <-> lane T (a - b)) /\
    (LimitsMax T < a + b ->
     s = LimitsMax T /\ op_add T a b = a + b - 2 ^ bit_width T) /\
    (a + b < LimitsMin T ->
     s = LimitsMin T /\ op_add T a b = a + b + 2 ^ bit_width T) /\
    (LimitsMax T < a - b ->
     d = LimitsMax T /\ op_sub T a b = a - b - 2 ^ bit_width T) /\
    (a - b < LimitsMin T ->
     d = LimitsMin T /\ op_sub T a b = a - b + 2 ^ bit_width T).
Proof.
  intros HT Ha Hb.
  destruct (sat_forms T a b HT) as [Es Ed].
  assert (HF : IsFloat T = false) by (destruct T; try discriminate; reflexivity).
  assert (W : LimitsMax T - LimitsMin T + 1 = 2 ^ bit_width T /\
              LimitsMin T <= 0 <= LimitsMax T)
    by (destruct T; try discriminate; vm_compute; repeat split;
        try reflexivity; discriminate).
  destruct W as [W W0].
  destruct (sat_cases T (a + b) HT) as (I1 & A1 & A2 & A3);
    [unfold lane in *; lia |].
  destruct (sat_cases T (a - b) HT) as (I2 & S1 & S2 & S3);
    [unfold lane in *; lia |].
  eexists _, _. split; [exact Es |]. split; [exact Ed |].
  rewrite op_add_wrap, op_sub_wrap by exact HF.
  rewrite !SIMD_MIN_min, !SIMD_MAX_max, I1, I2.
  unfold lane.
  split; [split |]; [| | split; [split |]; [| | split; [| split; [| split]]]].
  - intros E.
    destruct (Z_lt_le_dec (LimitsMax T) (a + b)) as [H | H];
      [destruct (A2 H) as (X1 & X2 & X3); lia |].
    destruct (Z_lt_le_dec (a + b) (LimitsMin T)) as [H' | H'];
      [destruct (A3 H') as (X1 & X2 & X3); lia | lia].
  - intros H. destruct (A1 H) as [X1 X2]. now rewrite X1, X2.
  - intros E.
    destruct (Z_lt_le_dec (LimitsMax T) (a - b)) as [H | H];
      [destruct (S2 H) as (X1 & X2 & X3); lia |].
    destruct (Z_lt_le_dec (a - b) (LimitsMin T)) as [H' | H'];
      [destruct (S3 H') as (X1 & X2 & X3); lia | lia].
  - intros H. destruct (S1 H) as [X1 X2]. now rewrite X1, X2.
  - intros H. now destruct (A2 H) as (X1 & X2 & X3).
  - intros H. now destruct (A3 H) as (X1 & X2 & X3).
  - intros H. now destruct (S2 H) as (X1 & X2 & X3).
  - intros H. now destruct (S3 H) as (X1 & X2 & X3).
Qed.

Lemma saturating_or_wrapping_witness :
  exists s d,
    add_sat U8 250 10 = Some s /\ sub_sat U8 250 10 = Some d /\
    (s = op_add U8 250 10 <-> lane U8 (250 + 10)) /\
    (d = op_sub U8 250 10 <-> lane U8 (250 - 10)) /\
    (LimitsMax U8 < 250 + 10 ->
     s = LimitsMax U8 /\ op_add U8 250 10 = 250 + 10 - 2 ^ bit_width U8) /\
    (250 + 10 < LimitsMin U8 ->
     s = LimitsMin U8 /\ op_add U8 250 10 = 250 + 10 + 2 ^ bit_width U8) /\
    (LimitsMax U8 < 250 - 10 ->
     d = LimitsMax U8 /\ op_sub U8 250 10 = 250 - 10 - 2 ^ bit_width U8) /\
    (250 - 10 < LimitsMin U8 ->
     d = LimitsMin U8 /\ op_sub U8 250 10 = 250 - 10 + 2 ^ bit_width U8).
Proof.
  apply (saturating_or_wrapping U8 250 10); [reflexivity | lane_tac | lane_tac].
Defined.

(** *** Zip and its halves *)

(** X30. On the unsigned types that have zip_lo, the two operands come
    back out of the zipped lane: converting it to T returns a, and
    shifting it right by the width of T returns b. *)
Theorem zip_lo_halves (T : LaneType) (a b z : Z) :
  has_zip T = true -> IsSigned T = false -> lane T a -> lane T b ->
  zip_lo T a b = Some z ->
  lane (wide T) z /\ z = a + 2 ^ bit_width T * b /\
  convert_to T z = a /\
  shift_right (bit_width T) (wide T) z = Some b.
Proof.
  intros HZ HS Ha Hb Hz.
  rewrite (zip_lo_unsigned T a b HZ HS Ha Hb) in Hz. injection Hz as <-.
  rewrite interleave_eq.
  pose proof (bit_width_pos T) as Hw.
  assert (HP : 0 < 2 ^ bit_width T) by (apply pow2_pos; lia).
  assert (Ra : 0 <= a < 2 ^ bit_width T /\ 0 <= b < 2 ^ bit_width T).
  { unfold lane, LimitsMin, LimitsMax in Ha, Hb. rewrite HS in Ha, Hb. lia. }
  rewrite !Z.mod_small by lia.
  assert (WW : bit_width (wide T) = 2 * bit_width T /\ IsSigned (wide T) = false
               /\ IsFloat (wide T) = false)
    by (destruct T; try discriminate; repeat split; reflexivity).
  destruct WW as (WW & WS & WF).
  assert (Lz : lane (wide T) (a + 2 ^ bit_width T * b)).
  { unfold lane, LimitsMin, LimitsMax. rewrite WS, WW.
    replace (2 * bit_width T) with (bit_width T + bit_width T) by lia.
    rewrite Z.pow_add_r by lia. nia. }
  split; [exact Lz |]. split; [reflexivity |]. split.
  - unfold convert_to, wrap. rewrite HS.
    replace (a + 2 ^ bit_width T * b) with (a + b * 2 ^ bit_width T) by lia.
    rewrite Z_mod_plus_full. apply Z.mod_small. lia.
  - rewrite (shift_right_floor (bit_width T) (wide T) _ WF ltac:(lia) Lz).
    f_equal.
    replace (a + 2 ^ bit_width T * b) with (a + b * 2 ^ bit_width T) by lia.
    rewrite Z_div_plus_full by lia.
    rewrite Z.div_small by lia. lia.
Qed.

Lemma zip_lo_halves_witness :
  lane (wide U16) 0x56781234 /\ 0x56781234 = 0x1234 + 2 ^ bit_width U16 * 0x5678 /\
  convert_to U16 0x56781234 = 0x1234 /\
  shift_right (bit_width U16) (wide U16) 0x56781234 = Some 0x5678.
Proof.
  apply (zip_lo_halves U16 0x1234 0x5678 0x56781234);
    [reflexivity | reflexivity | lane_tac | lane_tac | reflexivity].
Defined.

End ScalarOpsFacts.

(** ** Theorems: float lanes *)

Module FloatOpsFacts.
Import Scalar Ieee ScalarOps ScalarFacts IeeeFacts ScalarOpsFacts.

Section Format.

Variable fmt : format.
Variable Bits : LaneType.
Hypothesis Hsup : supported fmt Bits.

Local Abbreviation M := (mant_bits fmt).
Local Abbreviation E := (exp_bits fmt).
Local Abbreviation P := (2 ^ mant_bits fmt).
Local Abbreviation Q := (2 ^ exp_bits fmt).
Local Abbreviation SB := (2 ^ (mant_bits fmt + exp_bits fmt)).
Local Abbreviation pattern := (Ieee.pattern fmt).
Local Abbreviation frac_bits := (Ieee.frac_bits fmt).
Local Abbreviation round_core := (Ieee.round_core fmt Bits).
Local Abbreviation fmt_facts := (IeeeFacts.fmt_facts fmt Bits Hsup).
Local Abbreviation fields := (IeeeFacts.fields fmt Bits Hsup).
Local Abbreviation frac_mod := (IeeeFacts.frac_mod fmt Bits Hsup).
Local Abbreviation frac_round := (IeeeFacts.frac_round fmt Bits Hsup).
Local Abbreviation const_facts := (IeeeFacts.const_facts fmt Bits Hsup).
Local Abbreviation mk_pattern := (IeeeFacts.mk_pattern fmt Bits Hsup).
Local Abbreviation round_core_fields :=
  (IeeeFacts.round_core_fields fmt Bits Hsup).
Local Abbreviation flt_zero_r := (IeeeFacts.flt_zero_r fmt Bits Hsup).
Local Abbreviation flt_zero_l := (IeeeFacts.flt_zero_l fmt Bits Hsup).
Local Abbreviation rank_mk := (IeeeFacts.rank_mk fmt Bits Hsup).
Local Abbreviation small_mag := (IeeeFacts.small_mag fmt Bits Hsup).
Local Abbreviation exp_mant_of_mag :=
  (IeeeFacts.exp_mant_of_mag fmt Bits Hsup).
Local Abbreviation is_integral_fields :=
  (IeeeFacts.is_integral_fields fmt Bits Hsup).
Local Abbreviation Floor_below := (IeeeFacts.Floor_below fmt Bits Hsup).
Local Abbreviation Ceiling_above := (IeeeFacts.Ceiling_above fmt Bits Hsup).

(** *** Finite numbers and whole numbers, read off the fields *)

Lemma is_finite_fields (x : Z) :
  pattern x -> is_finite fmt x = (exp_of fmt x <? Q - 1).
Proof.
  intros Hx.
  destruct fmt_facts
    as (HM & HE & HP & HQ & HH & HQb & HoE & HoM & HP2 & HQ4 & _).
  destruct (fields x Hx) as (Hm & He & Hs & Hmag & Hxeq & Bm & Be & Bmag).
  unfold is_finite, decode. rewrite HoE.
  destruct (Z.eqb_spec (exp_of fmt x) 0) as [He0 | He0].
  - rewrite He0. destruct (Z.ltb_spec 0 (Q - 1)); [| lia].
    destruct (mant_of fmt x); reflexivity.
  - destruct (Z.eqb_spec (exp_of fmt x) (Q - 1)) as [He1 | He1].
    + rewrite He1, Z.ltb_irrefl.
      destruct (mant_of fmt x =? 0); reflexivity.
    + destruct (Z.ltb_spec (exp_of fmt x) (Q - 1)); [| lia].
      destruct (P + mant_of fmt x) eqn:Hp; try reflexivity; lia.
Qed.

Lemma integral_of_fields (x : Z) :
  pattern x -> exp_of fmt x < Q - 1 ->
  mag fmt x = 0 \/
  (bias fmt <= exp_of fmt x /\
   (M <= exp_of fmt x - bias fmt \/
    mant_of fmt x mod 2 ^ frac_bits x = 0)) ->
  is_integral fmt x = true.
Proof.
  intros Hx Hfinx Hc.
  destruct fmt_facts
    as (HM & HE & HP & HQ & HH & HQb & HoE & HoM & HP2 & HQ4 & Hfin & Hb1
        & _).
  destruct (fields x Hx) as (Hm & He & Hs & Hmag & Hxeq & Bm & Be & Bmag).
  unfold is_integral, decode. rewrite HoE.
  destruct (Z.eqb_spec (exp_of fmt x) 0) as [He0 | He0].
  - destruct Hc as [Hz | [Hb _]]; [| lia].
    assert (Hm0 : mant_of fmt x = 0) by nia.
    now rewrite Hm0.
  - destruct (Z.eqb_spec (exp_of fmt x) (Q - 1)) as [He1 | He1]; [lia |].
    destruct Hc as [Hz | [Hb Hc]]; [nia |].
    destruct (P + mant_of fmt x) as [| p | p] eqn:Hp; try lia.
    destruct (Z.leb_spec 0 (exp_of fmt x - bias fmt - M)) as [Hbig | Hbig];
      [reflexivity |].
    destruct Hc as [Hc | Hc]; [lia |].
    cbn [orb]. apply Z.eqb_eq.
    replace (- (exp_of fmt x - bias fmt - M)) with (frac_bits x)
      by (unfold Ieee.frac_bits; lia).
    destruct (frac_mod x Hx ltac:(lia)) as (_ & _ & HPD & _ & _).
    rewrite <- Hp, HPD.
    rewrite Z.add_comm, (Z.mul_comm (2 ^ frac_bits x)).
    now rewrite Z_mod_plus_full.
Qed.

Lemma whole_at_least_one (y : Z) :
  pattern y -> is_integral fmt y = true -> 0 < mag fmt y ->
  bias fmt * P <= mag fmt y.
Proof.
  intros Hy Hi Hpos.
  destruct fmt_facts as (HM & HE & HP & _).
  destruct (fields y Hy) as (_ & _ & _ & Hmag & _ & Bm & Be & _).
  destruct (is_integral_fields y Hy Hi) as [Hz | [Hb _]];
    [lia | nia].
Qed.

(** The window of a number with a fractional part: the multiples of
    [2 ^ frac_bits x] around its magnitude lie in the same binade. *)
Lemma frac_window (x : Z) :
  pattern x -> 0 <= exp_of fmt x - bias fmt < M ->
  let k := frac_bits x in
  let t := mag fmt x - mag fmt x mod 2 ^ k in
  exp_of fmt x * P <= t /\ t + 2 ^ k <= (exp_of fmt x + 1) * P /\
  t mod 2 ^ k = 0 /\ 0 < 2 ^ k /\ (2 ^ k | P).
Proof.
  intros Hx Hex k t.
  destruct fmt_facts as (HM & HE & HP & HQ & HH & _).
  destruct (fields x Hx) as (Hm & He & Hs & Hmag & Hxeq & Bm & Be & Bmag).
  destruct (frac_mod x Hx Hex) as (Hxm & Hmm & HPD & HD & HR).
  fold k in Hxm, Hmm, HPD, HD.
  set (D := 2 ^ k) in *. set (R := 2 ^ (exp_of fmt x - bias fmt)) in *.
  set (X := mag fmt x) in *. set (e := exp_of fmt x) in *.
  pose proof (Z.mod_pos_bound X D HD) as Bmod.
  pose proof (Z.div_mod X D ltac:(lia)) as Dmag.
  assert (Ht : t = D * (X / D)) by (unfold t; lia).
  assert (HeP : (e + 1) * P = D * ((e + 1) * R)) by (rewrite HPD; ring).
  split; [| split; [| split; [| split]]].
  - assert (mant_of fmt x mod D <= mant_of fmt x)
      by (apply Z.mod_le; lia).
    unfold t. rewrite Hmm. lia.
  - assert (Hlt : X / D < (e + 1) * R).
    { apply Z.div_lt_upper_bound; [assumption |]. rewrite <- HeP. lia. }
    rewrite Ht, HeP.
    replace (D * (X / D) + D) with (D * (X / D + 1)) by ring.
    apply Z.mul_le_mono_nonneg_l; lia.
  - rewrite Ht, Z.mul_comm. apply Z_mod_mult.
  - exact HD.
  - exists R. rewrite HPD. ring.
Qed.

Lemma between_multiples (K t v : Z) :
  0 < K -> t mod K = 0 -> t < v < t + K -> v mod K <> 0.
Proof.
  intros HK Ht Hv Hm.
  apply Z.mod_divide in Ht; [| lia]. apply Z.mod_divide in Hm; [| lia].
  destruct Ht as [a ->]. destruct Hm as [b ->].
  assert (a < b) by (apply Z.mul_lt_mono_pos_r with K; lia).
  assert (b < a + 1) by (apply Z.mul_lt_mono_pos_r with K; lia).
  lia.
Qed.

Lemma exp_of_window (y e : Z) :
  pattern y -> e * P <= mag fmt y < (e + 1) * P -> exp_of fmt y = e.
Proof.
  intros Hy Hb.
  destruct fmt_facts as (HM & HE & HP & _).
  destruct (exp_mant_of_mag y Hy) as [Ee _]. rewrite Ee.
  assert (e <= mag fmt y / P) by (apply Z.div_le_lower_bound; lia).
  assert (mag fmt y / P < e + 1) by (apply Z.div_lt_upper_bound; lia).
  lia.
Qed.

(** No whole number lies strictly between the two multiples around a
    number that has a fractional part. *)
Lemma no_whole_between (x y : Z) :
  pattern x -> 0 <= exp_of fmt x - bias fmt < M ->
  pattern y -> is_integral fmt y = true ->
  let k := frac_bits x in
  let t := mag fmt x - mag fmt x mod 2 ^ k in
  ~ (t < mag fmt y < t + 2 ^ k).
Proof.
  intros Hx Hex Hy Hi k t Hb.
  destruct fmt_facts as (HM & HE & HP & _).
  destruct (frac_window x Hx Hex) as (Hlo & Hhi & Htm & HD & _).
  fold k in Hlo, Hhi, Htm, HD. fold t in Hlo, Hhi, Htm.
  assert (Hey : exp_of fmt y = exp_of fmt x)
    by (apply exp_of_window; [assumption | lia]).
  assert (Hk : frac_bits y = k) by (unfold k, Ieee.frac_bits; now rewrite Hey).
  destruct (is_integral_fields y Hy Hi) as [Hz | [_ [Hc | Hc]]].
  - destruct (fields x Hx) as (_ & _ & _ & _ & _ & _ & Be & _). nia.
  - lia.
  - destruct (frac_mod y Hy ltac:(lia)) as (_ & Hmm & _).
    rewrite Hk in Hmm, Hc. rewrite <- Hmm in Hc.
    exact (between_multiples (2 ^ k) t (mag fmt y) HD Htm Hb Hc).
Qed.

(** The constants zero, one and minus one are whole numbers. *)
Lemma whole_constants :
  is_integral fmt 0 = true /\
  is_integral fmt (bias fmt * P) = true /\
  is_integral fmt (SB + bias fmt * P) = true.
Proof.
  destruct fmt_facts
    as (HM & HE & HP & HQ & HH & HQb & HoE & HoM & HP2 & HQ4 & Hfin & Hb1
        & _).
  destruct const_facts
    as (P0 & N0 & R0 & P1 & N1 & R1 & Pm & Nm & Rm & _).
  assert (Hone : 0 <= bias fmt * P < SB) by (rewrite HH; nia).
  assert (K : forall S,
    is_integral fmt (Z.b2z S * SB + bias fmt * P) = true).
  { intros S. destruct (mk_pattern S _ Hone) as (Pr & Sr & Mr).
    destruct (exp_mant_of_mag _ Pr) as [Ee Em].
    rewrite Mr in Ee, Em. rewrite Z.div_mul in Ee by lia.
    rewrite Z.mod_mul in Em by lia.
    apply integral_of_fields; [assumption | lia |].
    right. split; [lia |]. right. rewrite Em. apply Z.mod_0_l.
    apply Z.pow_nonzero; [lia |]. unfold Ieee.frac_bits. lia. }
  split; [| split].
  - destruct (fields 0 P0) as (_ & _ & _ & Hmag & _ & Bm & Be & Bmag).
    assert (Hm0 : mag fmt 0 = 0) by (unfold mag; apply Z.mod_0_l; lia).
    apply integral_of_fields; [assumption | nia | now left].
  - apply (K false).
  - replace (SB + bias fmt * P) with (Z.b2z true * SB + bias fmt * P)
      by (simpl Z.b2z; lia).
    apply (K true).
Qed.

(** *** The result of rounding is a whole number *)

Lemma round_core_integral (flag : bool) (small x : Z) :
  pattern x -> exp_of fmt x < Q - 1 ->
  is_integral fmt small = true ->
  is_integral fmt (round_core flag small x) = true.
Proof.
  intros Hx Hfinx Hs.
  destruct fmt_facts
    as (HM & HE & HP & HQ & HH & HQb & HoE & HoM & HP2 & HQ4 & Hfin & Hb1
        & _).
  destruct (fields x Hx) as (Hm & He & Hsg & Hmag & Hxeq & Bm & Be & Bmag).
  rewrite round_core_fields by assumption.
  destruct (Z.leb_spec M (exp_of fmt x - bias fmt)) as [Hbig | Hbig].
  { apply integral_of_fields; [assumption | assumption |].
    right. split; [lia | now left]. }
  destruct (Z.ltb_spec (exp_of fmt x - bias fmt) 0) as [Hsmall | Hsmall];
    [assumption |].
  destruct (Z.eqb_spec (x mod 2 ^ frac_bits x) 0) as [Hint | Hfrac].
  { apply integral_of_fields; [assumption | assumption |].
    right. split; [lia |]. right.
    destruct (frac_mod x Hx ltac:(lia)) as (Hxm & Hmm & _).
    now rewrite <- Hmm, <- Hxm. }
  destruct (frac_round flag x Hx ltac:(lia) Hfrac)
    as (Hy & Ht & Hlt & Hup & HQP).
  destruct (frac_window x Hx ltac:(lia)) as (Hlo & Hhi & Htm & HD & HDP).
  cbv zeta in Hy, Hlo, Hhi, Htm |- *. rewrite Hy.
  set (k := frac_bits x) in *.
  set (t := mag fmt x - mag fmt x mod 2 ^ k) in *.
  set (X := t + (if flag then 2 ^ k else 0)).
  assert (Hb : 0 <= X < SB) by (unfold X; destruct flag; lia).
  assert (HXlo : exp_of fmt x * P <= X) by (unfold X; destruct flag; lia).
  assert (HXhi : X <= (exp_of fmt x + 1) * P)
    by (unfold X; destruct flag; lia).
  assert (HXm : (2 ^ k | X)).
  { apply Z.mod_divide in Htm; [| lia].
    unfold X. destruct flag.
    - apply Z.divide_add_r; [assumption | apply Z.divide_refl].
    - now rewrite Z.add_0_r. }
  destruct (mk_pattern (sign_of fmt x) X Hb) as (Pr & Sr & Mr).
  set (r := Z.b2z (sign_of fmt x) * SB + X) in *.
  destruct (exp_mant_of_mag r Pr) as [Ee Em].
  rewrite Mr in Ee, Em.
  assert (Hdiv : exp_of fmt x <= X / P <= exp_of fmt x + 1).
  { split.
    - apply Z.div_le_lower_bound; lia.
    - apply Z.div_le_upper_bound; lia. }
  apply integral_of_fields; [assumption | lia |].
  right. split; [lia |].
  destruct (Z.le_gt_cases M (exp_of fmt r - bias fmt)) as [Hb' | Hb'];
    [now left | right].
  assert (Hk' : 0 <= frac_bits r <= k)
    by (unfold k, Ieee.frac_bits; lia).
  assert (Hd' : (2 ^ frac_bits r | 2 ^ k)) by (apply pow2_divide; lia).
  apply Z.mod_divide; [apply Z.pow_nonzero; lia |].
  rewrite Em, Z.mod_eq by lia.
  apply Z.divide_sub_r.
  - now apply Z.divide_trans with (2 ^ k).
  - apply Z.divide_mul_l. now apply Z.divide_trans with (2 ^ k).
Qed.


Lemma is_finite_not_nan (x : Z) : is_finite fmt x = true -> is_nan fmt x = false.
Proof. unfold is_finite, is_nan. destruct (decode fmt x); auto. Qed.

Lemma finite_exp (x : Z) :
  pattern x -> is_finite fmt x = true -> exp_of fmt x < Q - 1.
Proof.
  intros Hx Hf. rewrite is_finite_fields in Hf by assumption.
  now apply Z.ltb_lt.
Qed.

Lemma Floor_whole (x : Z) :
  pattern x -> is_finite fmt x = true ->
  is_integral fmt (Floor fmt Bits M E x) = true.
Proof.
  intros Hx Hf. destruct whole_constants as (W0 & W1 & Wm).
  rewrite Floor_core. apply round_core_integral;
    [assumption | now apply finite_exp |].
  destruct (flt fmt x 0);
    [rewrite (sup_minus_one _ _ Hsup) | rewrite (sup_zero _ _ Hsup)];
    assumption.
Qed.

Lemma Ceiling_whole (x : Z) :
  pattern x -> is_finite fmt x = true ->
  is_integral fmt (Ceiling fmt Bits M E x) = true.
Proof.
  intros Hx Hf. destruct whole_constants as (W0 & W1 & Wm).
  rewrite Ceiling_core. apply round_core_integral;
    [assumption | now apply finite_exp |].
  destruct (flt fmt 0 x); simpl Z.b2z;
    [rewrite (sup_one _ _ Hsup) | rewrite (sup_zero _ _ Hsup)];
    assumption.
Qed.

(** *** Floor is the greatest whole number below, ceiling the least
    above *)

Lemma Floor_greatest (x y : Z) :
  pattern x -> is_nan fmt x = false ->
  pattern y -> is_integral fmt y = true ->
  rank fmt y <= rank fmt x ->
  rank fmt y <= rank fmt (Floor fmt Bits M E x).
Proof.
  intros Hx Hn Hy Hi Hle.
  destruct fmt_facts
    as (HM & HE & HP & HQ & HH & HQb & HoE & HoM & HP2 & HQ4 & Hfin & Hb1
        & _).
  destruct const_facts
    as (P0 & N0 & R0 & P1 & N1 & R1 & Pm & Nm & Rm & _).
  destruct (fields x Hx) as (_ & _ & _ & _ & _ & _ & _ & Bmag).
  destruct (fields y Hy) as (_ & _ & _ & _ & _ & _ & _ & Bmagy).
  pose proof (whole_at_least_one y Hy Hi) as Hone.
  rewrite Floor_core, flt_zero_r by assumption.
  rewrite round_core_fields by assumption.
  destruct (Z.leb_spec M (exp_of fmt x - bias fmt)) as [Hbig | Hbig];
    [assumption |].
  destruct (Z.ltb_spec (exp_of fmt x - bias fmt) 0) as [Hsmall | Hsmall].
  { pose proof (small_mag x Hx ltac:(lia)) as Hm.
    rewrite (rank_eq fmt x) in Hle. rewrite (rank_eq fmt y) in Hle |- *.
    unfold sgn in *.
    destruct (sign_of fmt x); cbn [andb].
    - destruct (Z.ltb_spec 0 (mag fmt x)).
      + rewrite (sup_minus_one _ _ Hsup), Rm.
        destruct (sign_of fmt y); lia.
      + rewrite (sup_zero _ _ Hsup), R0. destruct (sign_of fmt y); lia.
    - rewrite (sup_zero _ _ Hsup), R0. destruct (sign_of fmt y); lia. }
  destruct (Z.eqb_spec (x mod 2 ^ frac_bits x) 0) as [Hint | Hfrac];
    [assumption |].
  destruct (frac_round (sign_of fmt x && (0 <? mag fmt x)) x Hx
              ltac:(lia) Hfrac) as (Hr & Ht & Hlt & Hup & HQP).
  pose proof (no_whole_between x y Hx ltac:(lia) Hy Hi) as Hno.
  cbv zeta in Hr, Hno |- *. rewrite Hr.
  set (k := frac_bits x) in *.
  set (t := mag fmt x - mag fmt x mod 2 ^ k) in *.
  assert (HD : 0 < 2 ^ k) by (apply pow2_pos; unfold k, Ieee.frac_bits; lia).
  destruct (Z.ltb_spec 0 (mag fmt x)); [| lia].
  rewrite andb_true_r.
  rewrite rank_mk by (assumption || (destruct (sign_of fmt x); lia)).
  rewrite (rank_eq fmt x) in Hle. rewrite (rank_eq fmt y) in Hle |- *.
  unfold sgn in *.
  destruct (sign_of fmt x), (sign_of fmt y); lia.
Qed.

Lemma Ceiling_least (x y : Z) :
  pattern x -> is_nan fmt x = false ->
  pattern y -> is_integral fmt y = true ->
  rank fmt x <= rank fmt y ->
  rank fmt (Ceiling fmt Bits M E x) <= rank fmt y.
Proof.
  intros Hx Hn Hy Hi Hle.
  destruct fmt_facts
    as (HM & HE & HP & HQ & HH & HQb & HoE & HoM & HP2 & HQ4 & Hfin & Hb1
        & _).
  destruct const_facts
    as (P0 & N0 & R0 & P1 & N1 & R1 & Pm & Nm & Rm & _).
  destruct (fields x Hx) as (_ & _ & _ & _ & _ & _ & _ & Bmag).
  destruct (fields y Hy) as (_ & _ & _ & _ & _ & _ & _ & Bmagy).
  pose proof (whole_at_least_one y Hy Hi) as Hone.
  rewrite Ceiling_core, flt_zero_l by assumption.
  rewrite round_core_fields by assumption.
  destruct (Z.leb_spec M (exp_of fmt x - bias fmt)) as [Hbig | Hbig];
    [assumption |].
  destruct (Z.ltb_spec (exp_of fmt x - bias fmt) 0) as [Hsmall | Hsmall].
  { pose proof (small_mag x Hx ltac:(lia)) as Hm.
    rewrite (rank_eq fmt x) in Hle. rewrite (rank_eq fmt y) in Hle |- *.
    unfold sgn in *.
    destruct (sign_of fmt x); cbn [andb negb]; simpl Z.b2z.
    - rewrite (sup_zero _ _ Hsup), R0. destruct (sign_of fmt y); lia.
    - destruct (Z.ltb_spec 0 (mag fmt x)); simpl Z.b2z.
      + rewrite (sup_one _ _ Hsup), R1. destruct (sign_of fmt y); lia.
      + rewrite (sup_zero _ _ Hsup), R0. destruct (sign_of fmt y); lia. }
  destruct (Z.eqb_spec (x mod 2 ^ frac_bits x) 0) as [Hint | Hfrac];
    [assumption |].
  destruct (frac_round (negb (sign_of fmt x) && (0 <? mag fmt x)) x Hx
              ltac:(lia) Hfrac) as (Hr & Ht & Hlt & Hup & HQP).
  pose proof (no_whole_between x y Hx ltac:(lia) Hy Hi) as Hno.
  cbv zeta in Hr, Hno |- *. rewrite Hr.
  set (k := frac_bits x) in *.
  set (t := mag fmt x - mag fmt x mod 2 ^ k) in *.
  assert (HD : 0 < 2 ^ k) by (apply pow2_pos; unfold k, Ieee.frac_bits; lia).
  destruct (Z.ltb_spec 0 (mag fmt x)); [| lia].
  rewrite andb_true_r.
  rewrite rank_mk by (assumption || (destruct (sign_of fmt x); cbn [negb]; lia)).
  rewrite (rank_eq fmt x) in Hle. rewrite (rank_eq fmt y) in Hle |- *.
  unfold sgn in *.
  destruct (sign_of fmt x), (sign_of fmt y); cbn [negb]; lia.
Qed.

(** *** A number that is not whole lies strictly between its floor and
    its ceiling *)

Lemma round_core_strict (flag : bool) (small x : Z) :
  pattern x -> is_finite fmt x = true -> is_integral fmt x = false ->
  0 < mag fmt x /\
  ((exp_of fmt x < bias fmt /\ mag fmt x < bias fmt * P /\
    round_core flag small x = small) \/
   (0 <= exp_of fmt x - bias fmt < M /\
    exists t k,
      round_core flag small x
      = Z.b2z (sign_of fmt x) * SB + (t + if flag then k else 0) /\
      0 <= t < mag fmt x /\ mag fmt x < t + k /\ t + k < SB)).
Proof.
  intros Hx Hf Hni.
  pose proof (finite_exp x Hx Hf) as He.
  destruct fmt_facts
    as (HM & HE & HP & HQ & HH & HQb & HoE & HoM & HP2 & HQ4 & Hfin & Hb1
        & _).
  destruct (fields x Hx) as (_ & _ & _ & _ & _ & _ & _ & Bmag).
  assert (Hpos : 0 < mag fmt x).
  { destruct (Z.eq_dec (mag fmt x) 0) as [Hz | Hz]; [| lia].
    rewrite integral_of_fields in Hni; [discriminate | | | now left];
      assumption. }
  split; [exact Hpos |].
  rewrite round_core_fields by assumption.
  destruct (Z.leb_spec M (exp_of fmt x - bias fmt)) as [Hbig | Hbig].
  { rewrite integral_of_fields in Hni; [discriminate | | |]; try assumption.
    right. split; [lia | now left]. }
  destruct (Z.ltb_spec (exp_of fmt x - bias fmt) 0) as [Hsmall | Hsmall].
  { left. split; [lia |]. split; [apply small_mag; [assumption | lia] |].
    reflexivity. }
  destruct (Z.eqb_spec (x mod 2 ^ frac_bits x) 0) as [Hint | Hfrac].
  { rewrite integral_of_fields in Hni; [discriminate | | |]; try assumption.
    right. split; [lia |]. right.
    destruct (frac_mod x Hx ltac:(lia)) as (Hxm & Hmm & _).
    now rewrite <- Hmm, <- Hxm. }
  right. split; [lia |].
  destruct (frac_round flag x Hx ltac:(lia) Hfrac)
    as (Hy & Ht & Hlt & Hup & HQP).
  cbv zeta in Hy |- *.
  exists (mag fmt x - mag fmt x mod 2 ^ frac_bits x), (2 ^ frac_bits x).
  split; [exact Hy |]. lia.
Qed.

Lemma Floor_strict (x : Z) :
  pattern x -> is_finite fmt x = true -> is_integral fmt x = false ->
  rank fmt (Floor fmt Bits M E x) < rank fmt x.
Proof.
  intros Hx Hf Hni. pose proof (is_finite_not_nan x Hf) as Hn.
  destruct const_facts
    as (P0 & N0 & R0 & P1 & N1 & R1 & Pm & Nm & Rm & _).
  rewrite Floor_core, flt_zero_r by assumption.
  destruct (round_core_strict (sign_of fmt x && (0 <? mag fmt x))
              (float_of_Z fmt
                 (if sign_of fmt x && (0 <? mag fmt x) then -1 else 0))
              x Hx Hf Hni)
    as (Hpos & [(He & Hm & ->) | (He & t & k & -> & Ht & Hlt & Hup)]);
    destruct (Z.ltb_spec 0 (mag fmt x)); try lia;
    rewrite (rank_eq fmt x); unfold sgn;
    destruct (sign_of fmt x); cbn [andb].
  - rewrite (sup_minus_one _ _ Hsup), Rm. lia.
  - rewrite (sup_zero _ _ Hsup), R0. lia.
  - rewrite rank_mk by lia. unfold sgn. lia.
  - rewrite rank_mk by lia. unfold sgn. lia.
Qed.

Lemma Ceiling_strict (x : Z) :
  pattern x -> is_finite fmt x = true -> is_integral fmt x = false ->
  rank fmt x < rank fmt (Ceiling fmt Bits M E x).
Proof.
  intros Hx Hf Hni. pose proof (is_finite_not_nan x Hf) as Hn.
  destruct const_facts
    as (P0 & N0 & R0 & P1 & N1 & R1 & Pm & Nm & Rm & _).
  rewrite Ceiling_core, flt_zero_l by assumption.
  destruct (round_core_strict (negb (sign_of fmt x) && (0 <? mag fmt x))
              (float_of_Z fmt
                 (Z.b2z (negb (sign_of fmt x) && (0 <? mag fmt x))))
              x Hx Hf Hni)
    as (Hpos & [(He & Hm & ->) | (He & t & k & -> & Ht & Hlt & Hup)]);
    destruct (Z.ltb_spec 0 (mag fmt x)); try lia;
    rewrite (rank_eq fmt x); unfold sgn;
    destruct (sign_of fmt x); cbn [andb negb].
  - simpl Z.b2z. rewrite (sup_zero _ _ Hsup), R0. lia.
  - simpl Z.b2z. rewrite (sup_one _ _ Hsup), R1. lia.
  - rewrite rank_mk by lia. unfold sgn. lia.
  - rewrite rank_mk by lia. unfold sgn. lia.
Qed.

(** *** Infinities and NaN pass through; rounding twice changes nothing *)

Lemma nonfinite_unchanged (x : Z) :
  pattern x -> is_finite fmt x = false ->
  Floor fmt Bits M E x = x /\ Ceiling fmt Bits M E x = x.
Proof.
  intros Hx Hf.
  destruct fmt_facts
    as (HM & HE & HP & HQ & HH & HQb & HoE & HoM & HP2 & HQ4 & Hfin & Hb1
        & _).
  rewrite is_finite_fields in Hf by assumption. apply Z.ltb_ge in Hf.
  rewrite Floor_core, Ceiling_core, !round_core_fields by assumption.
  destruct (Z.leb_spec M (exp_of fmt x - bias fmt)); [split; reflexivity | lia].
Qed.

Lemma round_core_fixed (flag : bool) (small r : Z) :
  pattern r -> is_integral fmt r = true -> 0 < mag fmt r ->
  round_core flag small r = r.
Proof.
  intros Hr Hi Hpos.
  rewrite round_core_fields by assumption.
  destruct (is_integral_fields r Hr Hi) as [Hz | (Hb & Hcase)];
    [lia |].
  destruct (Z.leb_spec M (exp_of fmt r - bias fmt)) as [Hbig | Hbig];
    [reflexivity |].
  destruct (Z.ltb_spec (exp_of fmt r - bias fmt) 0); [lia |].
  destruct Hcase as [Hc | Hc]; [lia |].
  destruct (frac_mod r Hr ltac:(lia)) as (Hxm & Hmm & _).
  now rewrite Hxm, Hmm, Hc.
Qed.

Lemma round_core_zero (flag : bool) (small x : Z) :
  pattern x ->
  mag fmt (round_core flag small x) = 0 ->
  round_core flag small x = small.
Proof.
  intros Hx.
  destruct fmt_facts
    as (HM & HE & HP & HQ & HH & HQb & HoE & HoM & HP2 & HQ4 & Hfin & Hb1
        & _).
  destruct (fields x Hx) as (Hm & He & Hsg & Hmag & Hxeq & Bm & Be & Bmag).
  rewrite round_core_fields by assumption.
  destruct (Z.leb_spec M (exp_of fmt x - bias fmt)) as [Hbig | Hbig];
    [intros; nia |].
  destruct (Z.ltb_spec (exp_of fmt x - bias fmt) 0) as [Hsmall | Hsmall];
    [reflexivity |].
  destruct (Z.eqb_spec (x mod 2 ^ frac_bits x) 0) as [Hint | Hfrac];
    [intros; nia |].
  destruct (frac_round flag x Hx ltac:(lia) Hfrac)
    as (Hy & Ht & Hlt & Hup & HQP).
  destruct (frac_window x Hx ltac:(lia)) as (Hlo & Hhi & Htm & HD & HDP).
  cbv zeta in Hy, Hlo |- *. rewrite Hy.
  set (X := _ + (if flag then _ else 0)).
  assert (Hb : 0 <= X < SB) by (unfold X; destruct flag; lia).
  destruct (mk_pattern (sign_of fmt x) X Hb) as (_ & _ & Mr).
  rewrite Mr. intros HX. exfalso.
  assert (exp_of fmt x * P <= X) by (unfold X; destruct flag; lia).
  nia.
Qed.

Lemma mag_zero_pattern (s : bool) :
  mag fmt 0 = 0 /\ 0 < mag fmt (bias fmt * P) /\
  0 < mag fmt (SB + bias fmt * P).
Proof.
  destruct fmt_facts
    as (HM & HE & HP & HQ & HH & HQb & HoE & HoM & HP2 & HQ4 & Hfin & Hb1
        & _).
  assert (Hone : 0 <= bias fmt * P < SB) by (rewrite HH; nia).
  destruct (mk_pattern false _ Hone) as (_ & _ & M1).
  destruct (mk_pattern true _ Hone) as (_ & _ & Mm).
  simpl Z.b2z in M1, Mm.
  replace (0 * SB + bias fmt * P) with (bias fmt * P) in M1 by lia.
  replace (1 * SB + bias fmt * P) with (SB + bias fmt * P) in Mm by lia.
  rewrite M1, Mm. split; [| nia].
  unfold mag. apply Z.mod_0_l. lia.
Qed.

Lemma Floor_idempotent (x : Z) :
  pattern x ->
  Floor fmt Bits M E (Floor fmt Bits M E x) = Floor fmt Bits M E x.
Proof.
  intros Hx.
  destruct (is_finite fmt x) eqn:Hf.
  2: { destruct (nonfinite_unchanged x Hx Hf) as [-> _].
       now destruct (nonfinite_unchanged x Hx Hf) as [-> _]. }
  pose proof (is_finite_not_nan x Hf) as Hn.
  pose proof (Floor_whole x Hx Hf) as Hi.
  destruct (Floor_below x Hx Hn) as (Pr & Nr & _).
  destruct (mag_zero_pattern true) as (Z0 & Z1 & Zm).
  destruct const_facts as (P0 & N0 & R0 & _).
  destruct (fields _ Pr) as (_ & _ & _ & _ & _ & _ & _ & Bmag).
  destruct (Z.eq_dec (mag fmt (Floor fmt Bits M E x)) 0) as [Hz | Hnz].
  - assert (E0 : Floor fmt Bits M E x = 0).
    { rewrite Floor_core in Hz |- *.
      rewrite (round_core_zero _ _ x Hx Hz) in Hz |- *.
      destruct (flt fmt x 0);
        [rewrite (sup_minus_one _ _ Hsup) in Hz; lia
        | apply (sup_zero _ _ Hsup)]. }
    rewrite E0. rewrite Floor_core, flt_zero_r, Z0 by assumption.
    rewrite andb_false_r, round_core_fields by assumption.
    destruct (Z.leb_spec M (exp_of fmt 0 - bias fmt)); [reflexivity |].
    destruct (Z.ltb_spec (exp_of fmt 0 - bias fmt) 0);
      [apply (sup_zero _ _ Hsup) |].
    destruct (Z.eqb_spec (0 mod 2 ^ frac_bits 0) 0) as [_ | Hc];
      [reflexivity |].
    exfalso. apply Hc. apply Z.mod_0_l. apply Z.pow_nonzero; [lia |].
    unfold Ieee.frac_bits. lia.
  - rewrite (Floor_core fmt Bits (Floor fmt Bits M E x)).
    apply round_core_fixed; [assumption | assumption | lia].
Qed.

Lemma Ceiling_idempotent (x : Z) :
  pattern x ->
  Ceiling fmt Bits M E (Ceiling fmt Bits M E x) = Ceiling fmt Bits M E x.
Proof.
  intros Hx.
  destruct (is_finite fmt x) eqn:Hf.
  2: { destruct (nonfinite_unchanged x Hx Hf) as [_ ->].
       now destruct (nonfinite_unchanged x Hx Hf) as [_ ->]. }
  pose proof (is_finite_not_nan x Hf) as Hn.
  pose proof (Ceiling_whole x Hx Hf) as Hi.
  destruct (Ceiling_above x Hx Hn) as (Pr & Nr & _).
  destruct (mag_zero_pattern true) as (Z0 & Z1 & Zm).
  destruct const_facts as (P0 & N0 & R0 & _).
  destruct (fields _ Pr) as (_ & _ & _ & _ & _ & _ & _ & Bmag).
  destruct (Z.eq_dec (mag fmt (Ceiling fmt Bits M E x)) 0) as [Hz | Hnz].
  - assert (E0 : Ceiling fmt Bits M E x = 0).
    { rewrite Ceiling_core in Hz |- *.
      rewrite (round_core_zero _ _ x Hx Hz) in Hz |- *.
      destruct (flt fmt 0 x); simpl Z.b2z in *;
        [rewrite (sup_one _ _ Hsup) in Hz; lia
        | apply (sup_zero _ _ Hsup)]. }
    rewrite E0. rewrite Ceiling_core, flt_zero_l, Z0 by assumption.
    rewrite andb_false_r, round_core_fields by assumption.
    simpl Z.b2z.
    destruct (Z.leb_spec M (exp_of fmt 0 - bias fmt)); [reflexivity |].
    destruct (Z.ltb_spec (exp_of fmt 0 - bias fmt) 0);
      [apply (sup_zero _ _ Hsup) |].
    destruct (Z.eqb_spec (0 mod 2 ^ frac_bits 0) 0) as [_ | Hc];
      [reflexivity |].
    exfalso. apply Hc. apply Z.mod_0_l. apply Z.pow_nonzero; [lia |].
    unfold Ieee.frac_bits. lia.
  - rewrite (Ceiling_core fmt Bits (Ceiling fmt Bits M E x)).
    apply round_core_fixed; [assumption | assumption | lia].
Qed.

End Format.

(** *** round_neg_inf and round_pos_inf on float and double lanes *)

(** X19. For every finite float or double x, round_neg_inf(x) is a whole
    number, is not above x (strictly below when x is not whole), and is
    the greatest such number: every whole number y <= x is
    <= round_neg_inf(x). *)
Theorem floor_is_greatest_whole (F : FloatType) (x : Z) :
  lane (lane_type F) x -> is_finite (format_of F) x = true ->
  is_integral (format_of F) (round_neg_inf F x) = true /\
  fle (format_of F) (round_neg_inf F x) x = true /\
  (is_integral (format_of F) x = false ->
   flt (format_of F) (round_neg_inf F x) x = true) /\
  forall y, lane (lane_type F) y -> is_integral (format_of F) y = true ->
    fle (format_of F) y x = true ->
    fle (format_of F) y (round_neg_inf F x) = true.
Proof.
  intros Hl Hf. pose proof (supported_of F) as Hs.
  pose proof (lane_pattern F x Hl) as Hx.
  pose proof (is_finite_not_nan _ x Hf) as Hn.
  rewrite round_neg_inf_Floor.
  destruct (Floor_below _ _ Hs x Hx Hn) as (Pr & Nr & Hle).
  split; [now apply Floor_whole |]. split; [| split].
  - rewrite (fle_rank _ _ Hs) by assumption. now apply Z.leb_le.
  - intros Hni. rewrite (flt_rank _ _ Hs) by assumption.
    apply Z.ltb_lt. now apply Floor_strict.
  - intros y Hly Hi Hyx. pose proof (lane_pattern F y Hly) as Hy.
    pose proof (is_integral_not_nan _ y Hi) as Hny.
    rewrite (fle_rank _ _ Hs) in Hyx |- * by assumption.
    apply Z.leb_le. apply Z.leb_le in Hyx.
    now apply Floor_greatest.
Qed.

Lemma floor_is_greatest_whole_witness :
  is_integral (format_of Float) (round_neg_inf Float 0xC0200000) = true /\
  fle (format_of Float) (round_neg_inf Float 0xC0200000) 0xC0200000 = true /\
  (is_integral (format_of Float) 0xC0200000 = false ->
   flt (format_of Float) (round_neg_inf Float 0xC0200000) 0xC0200000 = true) /\
  forall y, lane (lane_type Float) y ->
    is_integral (format_of Float) y = true ->
    fle (format_of Float) y 0xC0200000 = true ->
    fle (format_of Float) y (round_neg_inf Float 0xC0200000) = true.
Proof.
  apply (floor_is_greatest_whole Float 0xC0200000);
    [lane_tac | vm_compute; reflexivity].
Defined.

(** X20. For every finite float or double x, round_pos_inf(x) is a whole
    number, is not below x (strictly above when x is not whole), and is
    the least such number: every whole number y >= x is
    >= round_pos_inf(x). *)
Theorem ceiling_is_least_whole (F : FloatType) (x : Z) :
  lane (lane_type F) x -> is_finite (format_of F) x = true ->
  is_integral (format_of F) (round_pos_inf F x) = true /\
  fle (format_of F) x (round_pos_inf F x) = true /\
  (is_integral (format_of F) x = false ->
   flt (format_of F) x (round_pos_inf F x) = true) /\
  forall y, lane (lane_type F) y -> is_integral (format_of F) y = true ->
    fle (format_of F) x y = true ->
    fle (format_of F) (round_pos_inf F x) y = true.
Proof.
  intros Hl Hf. pose proof (supported_of F) as Hs.
  pose proof (lane_pattern F x Hl) as Hx.
  pose proof (is_finite_not_nan _ x Hf) as Hn.
  rewrite round_pos_inf_Ceiling.
  destruct (Ceiling_above _ _ Hs x Hx Hn) as (Pr & Nr & Hle).
  split; [now apply Ceiling_whole |]. split; [| split].
  - rewrite (fle_rank _ _ Hs) by assumption. now apply Z.leb_le.
  - intros Hni. rewrite (flt_rank _ _ Hs) by assumption.
    apply Z.ltb_lt. now apply Ceiling_strict.
  - intros y Hly Hi Hyx. pose proof (lane_pattern F y Hly) as Hy.
    pose proof (is_integral_not_nan _ y Hi) as Hny.
    rewrite (fle_rank _ _ Hs) in Hyx |- * by assumption.
    apply Z.leb_le. apply Z.leb_le in Hyx.
    now apply Ceiling_least.
Qed.

Lemma ceiling_is_least_whole_witness :
  is_integral (format_of Double) (round_pos_inf Double 0x4004000000000000)
  = true /\
  fle (format_of Double) 0x4004000000000000
      (round_pos_inf Double 0x4004000000000000) = true /\
  (is_integral (format_of Double) 0x4004000000000000 = false ->
   flt (format_of Double) 0x4004000000000000
       (round_pos_inf Double 0x4004000000000000) = true) /\
  forall y, lane (lane_type Double) y ->
    is_integral (format_of Double) y = true ->
    fle (format_of Double) 0x4004000000000000 y = true ->
    fle (format_of Double) (round_pos_inf Double 0x4004000000000000) y = true.
Proof.
  apply (ceiling_is_least_whole Double 0x4004000000000000);
    [lane_tac | vm_compute; reflexivity].
Defined.

(** X21. round_neg_inf and round_pos_inf return infinities and NaN bit
    for bit, and rounding twice is rounding once: both functions are
    idempotent on every float and double bit pattern. *)
Theorem rounding_fixed_points (F : FloatType) (x : Z) :
  lane (lane_type F) x ->
  (is_finite (format_of F) x = false ->
   round_neg_inf F x = x /\ round_pos_inf F x = x) /\
  round_neg_inf F (round_neg_inf F x) = round_neg_inf F x /\
  round_pos_inf F (round_pos_inf F x) = round_pos_inf F x.
Proof.
  intros Hl. pose proof (supported_of F) as Hs.
  pose proof (lane_pattern F x Hl) as Hx.
  rewrite !round_neg_inf_Floor, !round_pos_inf_Ceiling.
  split; [| split].
  - now apply nonfinite_unchanged.
  - now apply Floor_idempotent.
  - now apply Ceiling_idempotent.
Qed.

Lemma rounding_fixed_points_witness :
  (is_finite (format_of Float) 0xFF800000 = false ->
   round_neg_inf Float 0xFF800000 = 0xFF800000 /\
   round_pos_inf Float 0xFF800000 = 0xFF800000) /\
  round_neg_inf Float (round_neg_inf Float 0xFF800000)
  = round_neg_inf Float 0xFF800000 /\
  round_pos_inf Float (round_pos_inf Float 0xFF800000)
  = round_pos_inf Float 0xFF800000.
Proof. apply (rounding_fixed_points Float 0xFF800000); lane_tac. Defined.

(** *** NaN under comparison, min, max and clamp *)


Lemma raw_float (F : FloatType) (a b : Z) :
  raw_lt (lane_type F) a b = flt (format_of F) a b /\
  raw_le (lane_type F) a b = fle (format_of F) a b /\
  raw_eq (lane_type F) a b = feq (format_of F) a b /\
  (forall v, to_lane (lane_type F) v = v).
Proof. destruct F; repeat split; reflexivity. Qed.



(** X23. clamp on float and double lanes that are not NaN, with
    lo <= hi: the result lies in [lo, hi], and equals v (as a number)
    when v lies in [lo, hi]. *)
Theorem float_clamp_within (F : FloatType) (v lo hi : Z) :
  lane (lane_type F) v -> lane (lane_type F) lo -> lane (lane_type F) hi ->
  is_nan (format_of F) v = false -> is_nan (format_of F) lo = false ->
  is_nan (format_of F) hi = false ->
  fle (format_of F) lo hi = true ->
  fle (format_of F) lo (clamp (lane_type F) v lo hi) = true /\
  fle (format_of F) (clamp (lane_type F) v lo hi) hi = true /\
  (fle (format_of F) lo v = true -> fle (format_of F) v hi = true ->
   feq (format_of F) (clamp (lane_type F) v lo hi) v = true).
Proof.
  intros Lv Ll Lh Nv Nl Nh Hle. pose proof (supported_of F) as Hs.
  pose proof (lane_pattern F v Lv) as Pv.
  pose proof (lane_pattern F lo Ll) as Pl.
  pose proof (lane_pattern F hi Lh) as Ph.
  unfold clamp, max, min.
  destruct (raw_float F lo v) as (-> & _ & _ & T). rewrite !T.
  set (m := if flt (format_of F) lo v then v else lo).
  destruct (raw_float F m hi) as (-> & _ & _ & _).
  assert (Hm : Ieee.pattern (format_of F) m /\ is_nan (format_of F) m = false
               /\ rank (format_of F) m
                  = Z.max (rank (format_of F) lo) (rank (format_of F) v)).
  { unfold m. rewrite (flt_rank _ _ Hs) by assumption.
    destruct (Z.ltb_spec (rank (format_of F) lo) (rank (format_of F) v));
      cbv iota; (split; [| split]); try assumption; lia. }
  destruct Hm as (Pm & Nm & Rm).
  rewrite (fle_rank _ _ Hs) in Hle by assumption. apply Z.leb_le in Hle.
  set (c := if flt (format_of F) m hi then m else hi).
  assert (Hc : Ieee.pattern (format_of F) c /\ is_nan (format_of F) c = false
               /\ rank (format_of F) c
                  = Z.min (rank (format_of F) m) (rank (format_of F) hi)).
  { unfold c. rewrite (flt_rank _ _ Hs) by assumption.
    destruct (Z.ltb_spec (rank (format_of F) m) (rank (format_of F) hi));
      cbv iota; (split; [| split]); try assumption; lia. }
  destruct Hc as (Pc & Nc & Rc).
  rewrite !(fle_rank _ _ Hs), (feq_rank _ _ Hs) by assumption.
  rewrite Rc, Rm.
  split; [apply Z.leb_le; lia |]. split; [apply Z.leb_le; lia |].
  intros H1 H2. apply Z.leb_le in H1, H2. apply Z.eqb_eq. lia.
Qed.

Lemma float_clamp_within_witness :
  fle (format_of Float) 0 (clamp (lane_type Float) 0x40200000 0 0x3F800000)
  = true /\
  fle (format_of Float) (clamp (lane_type Float) 0x40200000 0 0x3F800000)
      0x3F800000 = true /\
  (fle (format_of Float) 0 0x40200000 = true ->
   fle (format_of Float) 0x40200000 0x3F800000 = true ->
   feq (format_of Float) (clamp (lane_type Float) 0x40200000 0 0x3F800000)
       0x40200000 = true).
Proof.
  apply (float_clamp_within Float 0x40200000 0 0x3F800000);
    first [lane_tac | vm_compute; reflexivity].
Defined.

End FloatOpsFacts.

(** ** Theorems: the allocator in use *)

Module AllocatorFacts.
Import Bytes Scalar CacheAligned Pik ScalarFacts CacheAlignedFacts.

Lemma read_bytes_insert_above (a addr v : Z) (n : nat) (m : gmap Z Z) :
  addr + Z.of_nat n <= a ->
  read_bytes addr n (<[a := v]> m) = read_bytes addr n m.
Proof.
  revert addr. induction n as [| n IH]; intros addr Hlt; [reflexivity |].
  cbn [read_bytes]. rewrite lookup_insert_ne by lia.
  rewrite IH by lia. reflexivity.
Qed.

(** A write leaves the bytes outside its range as they were. *)
Lemma read_bytes_write_disjoint (addr a : Z) (n : nat) (l : list Z)
    (m : gmap Z Z) :
  a + Z.of_nat (length l) <= addr \/ addr + Z.of_nat n <= a ->
  read_bytes addr n (write_bytes a l m) = read_bytes addr n m.
Proof.
  revert a. induction l as [| b t IH]; intros a Hd; [reflexivity |].
  cbn [write_bytes length] in *.
  destruct Hd as [Hd | Hd].
  - rewrite read_bytes_insert_below by lia. apply IH. lia.
  - rewrite read_bytes_insert_above by lia. apply IH. lia.
Qed.

(** X24. After a successful CacheAligned::Allocate(n), storing any
    bytes inside the n bytes from the returned address on is an access
    inside the allocated block, reads back what was stored, and leaves
    the header intact: Free still releases the block malloc returned. *)
Theorem payload_store_keeps_header (h : Heap) (n p off : Z) (l : list Z) :
  0 <= n < 2 ^ 63 -> malloc_returns h (n + kCacheLineSize) p -> p <> 0 ->
  0 <= off -> off + Z.of_nat (length l) <= n ->
  exists h1 h2,
    Allocate p n h = Done (aligned_of p) h1 /\
    store_bytes (aligned_of p + off) l h1 = Done tt h2 /\
    load_bytes (aligned_of p + off) (length l) h2 = Done l h2 /\
    Free (aligned_of p) h2 = Done tt {| blocks := blocks h; mem := mem h2 |}.
Proof.
  intros Hn Hmal Hnz Hoff Hlen.
  pose proof (Allocate_success h n p Hn Hmal Hnz) as HA.
  destruct Hmal as [Hp | (Hpos & Hend & Hal & Hfresh & Hdisj)];
    [contradiction |].
  destruct (aligned_of_facts p Hal) as (Hm & Hd & _).
  unfold kPointerSize, kCacheLineSize in *.
  set (h1 := {| blocks := <[p := n + 64]> (blocks h);
                mem := write_bytes (aligned_of p - 8)
                         (le_bytes (Z.to_nat 8) p) (mem h) |}) in *.
  set (h2 := {| blocks := blocks h1;
                mem := write_bytes (aligned_of p + off) l (mem h1) |}).
  assert (Hb : blocks h1 !! p = Some (n + 64)) by apply lookup_insert_eq.
  assert (Hin : in_block h1 (aligned_of p + off) (Z.of_nat (length l)) = true)
    by (apply (in_block_live h1 p (n + 64)); [assumption | lia | lia]).
  exists h1, h2. split; [exact HA |]. split; [| split].
  - unfold store_bytes. now rewrite Hin.
  - unfold load_bytes.
    replace (in_block h2 (aligned_of p + off) (Z.of_nat (length l)))
      with true by (symmetry; exact Hin).
    cbn [mem h2]. now rewrite read_write_bytes.
  - destruct (Free_releases h2 p (aligned_of p) (n + 64)) as (HF & Hfree);
      try assumption; unfold kPointerSize, kCacheLineSize; try lia.
    + cbn [mem h2 h1].
      rewrite read_bytes_write_disjoint
        by (right; change (Z.of_nat (Z.to_nat 8)) with 8; lia).
      pose proof (read_write_bytes (aligned_of p - 8)
                    (le_bytes (Z.to_nat 8) p) (mem h)) as R.
      now rewrite le_bytes_length in R.
    + rewrite HF, Hfree. cbn [blocks h2 h1].
      now rewrite delete_insert_id by assumption.
Qed.


Lemma payload_store_keeps_header_witness :
  exists h1 h2,
    Allocate 4104 100 empty_heap = Done (aligned_of 4104) h1 /\
    store_bytes (aligned_of 4104 + 96) [1; 2; 3; 4] h1 = Done tt h2 /\
    load_bytes (aligned_of 4104 + 96) (length [1; 2; 3; 4]) h2
    = Done [1; 2; 3; 4] h2 /\
    Free (aligned_of 4104) h2
    = Done tt {| blocks := blocks empty_heap; mem := mem h2 |}.
Proof.
  apply (payload_store_keeps_header empty_heap 100 4104 96 [1; 2; 3; 4]);
    [lia | exact malloc_returns_example | lia | lia | simpl; lia].
Defined.

(** A successful [Allocate]: the address [malloc] returned is not null and
    the outcome is the one of [Allocate_success]. *)
Lemma Allocate_done (h h1 : Heap) (n p a : Z) :
  0 <= n < 2 ^ 63 -> malloc_returns h (n + kCacheLineSize) p ->
  Allocate p n h = Done a h1 -> a <> 0 ->
  p <> 0 /\ a = aligned_of p /\
  h1 = {| blocks := <[p := n + kCacheLineSize]> (blocks h);
          mem := write_bytes (aligned_of p - kPointerSize)
                   (le_bytes (Z.to_nat kPointerSize) p) (mem h) |}.
Proof.
  intros Hn Hmal HA Ha.
  destruct (Z.eq_dec p 0) as [-> | Hnz].
  - rewrite Allocate_failure in HA by lia. now injection HA as <- _.
  - rewrite (Allocate_success h n p Hn Hmal Hnz) in HA.
    injection HA as <- <-. auto.
Qed.

(** X25. Two successful allocations in a row return buffers that do not
    overlap, also not with each other's header, and the two can be freed
    in either order: both orders release both blocks. *)
Theorem two_allocations_independent (h h1 h2 : Heap) (n1 p1 a1 n2 p2 a2 : Z) :
  0 <= n1 < 2 ^ 63 -> 0 <= n2 < 2 ^ 63 ->
  malloc_returns h (n1 + kCacheLineSize) p1 ->
  Allocate p1 n1 h = Done a1 h1 -> a1 <> 0 ->
  malloc_returns h1 (n2 + kCacheLineSize) p2 ->
  Allocate p2 n2 h1 = Done a2 h2 -> a2 <> 0 ->
  (a1 + n1 <= a2 - kPointerSize \/ a2 + n2 <= a1 - kPointerSize) /\
  (Free a1 ;; Free a2) h2 = Done tt {| blocks := blocks h; mem := mem h2 |} /\
  (Free a2 ;; Free a1) h2 = Done tt {| blocks := blocks h; mem := mem h2 |}.
Proof.
  intros Hn1 Hn2 Hmal1 HA1 Ha1 Hmal2 HA2 Ha2.
  destruct (Allocate_done h h1 n1 p1 a1 Hn1 Hmal1 HA1 Ha1)
    as (Hnz1 & -> & Hh1).
  destruct (Allocate_done h1 h2 n2 p2 a2 Hn2 Hmal2 HA2 Ha2)
    as (Hnz2 & -> & Hh2).
  destruct Hmal1 as [Hp | (Hpos1 & Hend1 & Hal1 & Hfresh1 & Hdisj1)];
    [contradiction |].
  destruct Hmal2 as [Hp | (Hpos2 & Hend2 & Hal2 & Hfresh2 & Hdisj2)];
    [contradiction |].
  destruct (aligned_of_facts p1 Hal1) as (Hm1 & Hd1 & _).
  destruct (aligned_of_facts p2 Hal2) as (Hm2 & Hd2 & _).
  unfold kPointerSize, kCacheLineSize in *.
  assert (Hb1 : blocks h1 !! p1 = Some (n1 + 64))
    by (rewrite Hh1; apply lookup_insert_eq).
  assert (Hne : p1 <> p2) by (intros ->; congruence).
  assert (Hf2 : blocks h !! p2 = None).
  { rewrite Hh1 in Hfresh2. cbn [blocks] in Hfresh2.
    now rewrite lookup_insert_ne in Hfresh2 by assumption. }
  assert (Hsep : p1 + (n1 + 64) <= p2 \/ p2 + (n2 + 64) <= p1)
    by (apply (Hdisj2 p1 (n1 + 64) Hb1)).
  assert (Hblocks2 : blocks h2 = <[p2 := n2 + 64]> (<[p1 := n1 + 64]> (blocks h)))
    by (rewrite Hh2, Hh1; reflexivity).
  assert (Hmem2 : mem h2
                  = write_bytes (aligned_of p2 - 8) (le_bytes (Z.to_nat 8) p2)
                      (write_bytes (aligned_of p1 - 8)
                         (le_bytes (Z.to_nat 8) p1) (mem h)))
    by (rewrite Hh2, Hh1; reflexivity).
  assert (Hr1 : read_bytes (aligned_of p1 - 8) (Z.to_nat 8) (mem h2)
                = Some (le_bytes (Z.to_nat 8) p1)).
  { rewrite Hmem2, read_bytes_write_disjoint
      by (rewrite le_bytes_length; change (Z.of_nat (Z.to_nat 8)) with 8; lia).
    pose proof (read_write_bytes (aligned_of p1 - 8)
                  (le_bytes (Z.to_nat 8) p1) (mem h)) as R.
    now rewrite le_bytes_length in R. }
  assert (Hr2 : read_bytes (aligned_of p2 - 8) (Z.to_nat 8) (mem h2)
                = Some (le_bytes (Z.to_nat 8) p2)).
  { rewrite Hmem2.
    pose proof (read_write_bytes (aligned_of p2 - 8)
                  (le_bytes (Z.to_nat 8) p2)
                  (write_bytes (aligned_of p1 - 8)
                     (le_bytes (Z.to_nat 8) p1) (mem h))) as R.
    now rewrite le_bytes_length in R. }
  split; [lia |].
  split; unfold mbind, M_bind.
  - destruct (Free_releases h2 p1 (aligned_of p1) (n1 + 64)) as (HF & Hfree);
      unfold kPointerSize, kCacheLineSize; try assumption; try lia.
    { rewrite Hblocks2, lookup_insert_ne by congruence.
      apply lookup_insert_eq. }
    rewrite HF, Hfree.
    set (h3 := {| blocks := delete p1 (blocks h2); mem := mem h2 |}).
    destruct (Free_releases h3 p2 (aligned_of p2) (n2 + 64)) as (HF' & Hfree');
      unfold kPointerSize, kCacheLineSize; try assumption; try lia.
    { cbn [blocks h3]. rewrite lookup_delete_ne by assumption.
      rewrite Hblocks2. apply lookup_insert_eq. }
    rewrite HF', Hfree'. cbn [blocks mem h3]. f_equal. f_equal.
    rewrite Hblocks2, delete_insert_ne by assumption.
    rewrite (delete_insert_id (blocks h) p1) by assumption.
    now apply delete_insert_id.
  - destruct (Free_releases h2 p2 (aligned_of p2) (n2 + 64)) as (HF & Hfree);
      unfold kPointerSize, kCacheLineSize; try assumption; try lia.
    { rewrite Hblocks2. apply lookup_insert_eq. }
    rewrite HF, Hfree.
    set (h3 := {| blocks := delete p2 (blocks h2); mem := mem h2 |}).
    destruct (Free_releases h3 p1 (aligned_of p1) (n1 + 64)) as (HF' & Hfree');
      unfold kPointerSize, kCacheLineSize; try assumption; try lia.
    { cbn [blocks h3]. rewrite lookup_delete_ne by congruence.
      rewrite Hblocks2, lookup_insert_ne by congruence.
      apply lookup_insert_eq. }
    rewrite HF', Hfree'. cbn [blocks mem h3]. f_equal. f_equal.
    rewrite Hblocks2, delete_insert_id
      by (rewrite lookup_insert_ne by assumption; assumption).
    now apply delete_insert_id.
Qed.


Lemma malloc_returns_above (h : Heap) (size q : Z) :
  0 < q -> q + size <= 2 ^ 64 -> q mod kPointerSize = 0 ->
  blocks h !! q = None ->
  (forall b sz, blocks h !! b = Some sz -> b + sz <= q) ->
  malloc_returns h size q.
Proof. intros. right. repeat split; auto. Qed.

Lemma two_allocations_independent_witness :
  exists h1 h2,
    Allocate 4104 100 empty_heap = Done 4160 h1 /\
    Allocate 8192 32 h1 = Done 8256 h2 /\
    (4160 + 100 <= 8256 - kPointerSize \/ 8256 + 32 <= 4160 - kPointerSize) /\
    (Free 4160 ;; Free 8256) h2
    = Done tt {| blocks := blocks empty_heap; mem := mem h2 |} /\
    (Free 8256 ;; Free 4160) h2
    = Done tt {| blocks := blocks empty_heap; mem := mem h2 |}.
Proof.
  assert (M2 : forall m,
            malloc_returns {| blocks := <[4104 := 100 + kCacheLineSize]> ∅;
                              mem := m |} (32 + kCacheLineSize) 8192).
  { intros m. apply malloc_returns_above; cbn [blocks];
      [lia | unfold kCacheLineSize; lia | reflexivity | reflexivity |].
    intros b sz Hb. apply lookup_insert_Some in Hb.
    destruct Hb as [[<- <-] | [_ Hb]]; [unfold kCacheLineSize; lia |].
    rewrite lookup_empty in Hb. discriminate. }
  eexists _, _.
  split; [apply (Allocate_success empty_heap 100 4104);
            [lia | exact malloc_returns_example | lia] |].
  split; [apply (Allocate_success _ 32 8192); [lia | apply M2 | lia] |].
  eapply (two_allocations_independent empty_heap _ _ 100 4104 4160 32 8192 8256);
    [lia | lia | exact malloc_returns_example
    | apply (Allocate_success empty_heap 100 4104);
        [lia | exact malloc_returns_example | lia]
    | lia | apply M2
    | apply (Allocate_success _ 32 8192); [lia | apply M2 | lia]
    | lia].
Defined.

(** *** Misuse of Free *)

(** X26. Misuse of CacheAligned::Free: a second Free of the same
    pointer is undefined behaviour (the header is read from a block that
    is no longer allocated); a non-null pointer that is not a multiple of
    64 fails the alignment assertion; an aligned pointer whose 8 bytes
    before it lie in no allocated block is undefined behaviour. *)
Theorem Free_misuse (h : Heap) (n p : Z) :
  0 <= n < 2 ^ 63 -> malloc_returns h (n + kCacheLineSize) p -> p <> 0 ->
  (a ← Allocate p n; Free a ;; Free a) h = Undefined /\
  (forall h' a, a <> 0 -> a mod kCacheLineSize <> 0 -> Free a h' = Abort) /\
  (forall h' a, a <> 0 -> a mod kCacheLineSize = 0 ->
     in_block h' (a - kPointerSize) kPointerSize = false ->
     Free a h' = Undefined).
Proof.
  intros Hn Hmal Hnz. split; [| split].
  - unfold mbind, M_bind at 1.
    rewrite (Allocate_success h n p Hn Hmal Hnz).
    unfold M_bind.
    destruct (Free_after_Allocate h n p Hn Hmal Hnz _ eq_refl)
      as (_ & HF & Hfree).
    rewrite HF, Hfree.
    now apply (Free_twice_undefined h n p).
  - intros h' a Ha Hm. unfold Free, mbind, M_bind, PIK_ASSERT.
    destruct (Z.eqb_spec a 0); [contradiction |].
    destruct (Z.eqb_spec (a mod kCacheLineSize) 0); [contradiction |].
    reflexivity.
  - intros h' a Ha Hm Hout. unfold Free, mbind, M_bind, PIK_ASSERT, load_bytes.
    destruct (Z.eqb_spec a 0); [contradiction |].
    rewrite Hm. cbn [Z.eqb].
    change (Z.of_nat (Z.to_nat kPointerSize)) with kPointerSize.
    now rewrite Hout.
Qed.

Lemma Free_misuse_witness :
  (a ← Allocate 4104 100; Free a ;; Free a) empty_heap = Undefined /\
  (forall h' a, a <> 0 -> a mod kCacheLineSize <> 0 -> Free a h' = Abort) /\
  (forall h' a, a <> 0 -> a mod kCacheLineSize = 0 ->
     in_block h' (a - kPointerSize) kPointerSize = false ->
     Free a h' = Undefined).
Proof.
  apply (Free_misuse empty_heap 100 4104);
    [lia | exact malloc_returns_example | lia].
Defined.

(** *** AllocateArray *)

(** X27. AllocateArray<T>(entries) with entries * sizeof(T) < 2^63 and a
    successful malloc returns a 64-byte aligned address with room for
    all entries inside the allocated block, and its deleter, Free,
    releases the block. *)
Theorem AllocateArray_room (h : Heap) (sizeof_T entries p : Z) :
  0 <= entries -> 0 < sizeof_T -> entries * sizeof_T < 2 ^ 63 ->
  malloc_returns h (entries * sizeof_T + kCacheLineSize) p -> p <> 0 ->
  exists h',
    AllocateArray p sizeof_T entries h = Done (aligned_of p) h' /\
    aligned_of p mod kCacheLineSize = 0 /\
    in_block h' (aligned_of p) (entries * sizeof_T) = true /\
    Free (aligned_of p) h' = Done tt {| blocks := blocks h; mem := mem h' |}.
Proof.
  intros He Hs Hlt Hmal Hnz.
  assert (Hn : 0 <= entries * sizeof_T < 2 ^ 63) by nia.
  assert (Hw : wrap U64 (entries * sizeof_T) = entries * sizeof_T).
  { apply wrap_lane. unfold lane, LimitsMin, LimitsMax, bit_width. cbn. lia. }
  unfold AllocateArray. rewrite Hw.
  rewrite (Allocate_success h _ p Hn Hmal Hnz).
  destruct (Free_after_Allocate h _ p Hn Hmal Hnz _ eq_refl)
    as (_ & HF & Hfree).
  destruct Hmal as [Hp | (Hpos & Hend & Hal & Hfresh & Hdisj)];
    [contradiction |].
  destruct (aligned_of_facts p Hal) as (Hm & Hd & _).
  eexists. split; [reflexivity |]. split; [exact Hm |]. split.
  - apply (in_block_live _ p (entries * sizeof_T + kCacheLineSize));
      [apply lookup_insert_eq | | ];
      unfold kPointerSize, kCacheLineSize in *; lia.
  - now rewrite HF, Hfree.
Qed.

Lemma AllocateArray_room_witness :
  exists h',
    AllocateArray 4104 4 25 empty_heap = Done (aligned_of 4104) h' /\
    aligned_of 4104 mod kCacheLineSize = 0 /\
    in_block h' (aligned_of 4104) (25 * 4) = true /\
    Free (aligned_of 4104) h'
    = Done tt {| blocks := blocks empty_heap; mem := mem h' |}.
Proof.
  apply (AllocateArray_room empty_heap 4 25 4104);
    [lia | lia | lia | exact malloc_returns_example | lia].
Defined.

(** X28. AllocateArray does not check the product entries * sizeof(T):
    when it reaches 2^64, the size passed to Allocate is the product
    modulo 2^64; the call then aborts (if that is 2^63 or more) or
    returns a block that is too small for the array. *)
Theorem AllocateArray_wraps (h : Heap) (sizeof_T entries p : Z) :
  0 <= entries -> 0 <= sizeof_T -> 2 ^ 64 <= entries * sizeof_T ->
  (2 ^ 63 <= (entries * sizeof_T) mod 2 ^ 64 ->
   AllocateArray p sizeof_T entries h = Abort) /\
  ((entries * sizeof_T) mod 2 ^ 64 < 2 ^ 63 ->
   malloc_returns h ((entries * sizeof_T) mod 2 ^ 64 + kCacheLineSize) p ->
   p <> 0 ->
   exists h',
     AllocateArray p sizeof_T entries h = Done (aligned_of p) h' /\
     blocks h'
     = <[p := (entries * sizeof_T) mod 2 ^ 64 + kCacheLineSize]> (blocks h) /\
     p + ((entries * sizeof_T) mod 2 ^ 64 + kCacheLineSize)
     < aligned_of p + entries * sizeof_T).
Proof.
  intros He Hs Hbig.
  assert (Hw : wrap U64 (entries * sizeof_T) = (entries * sizeof_T) mod 2 ^ 64)
    by reflexivity.
  unfold AllocateArray. rewrite Hw.
  pose proof (Z.mod_pos_bound (entries * sizeof_T) (2 ^ 64) ltac:(lia)) as Hb.
  split.
  - intros Hn. now apply Allocate_too_large.
  - intros Hn Hmal Hnz.
    assert (Hr : 0 <= (entries * sizeof_T) mod 2 ^ 64 < 2 ^ 63) by lia.
    rewrite (Allocate_success h _ p Hr Hmal Hnz).
    destruct Hmal as [Hp | (Hpos & Hend & Hal & Hfresh & Hdisj)];
      [contradiction |].
    destruct (aligned_of_facts p Hal) as (Hm & Hd & _).
    eexists. split; [reflexivity |]. split; [reflexivity |].
    unfold kPointerSize, kCacheLineSize in *.
    clear Hw Hend Hdisj.
    generalize dependent ((entries * sizeof_T) mod 2 ^ 64).
    generalize dependent (entries * sizeof_T). intros. lia.
Qed.

Lemma AllocateArray_wraps_witness :
  (2 ^ 63 <= ((2 ^ 61 + 2) * 8) mod 2 ^ 64 ->
   AllocateArray 4104 8 (2 ^ 61 + 2) empty_heap = Abort) /\
  (((2 ^ 61 + 2) * 8) mod 2 ^ 64 < 2 ^ 63 ->
   malloc_returns empty_heap
     (((2 ^ 61 + 2) * 8) mod 2 ^ 64 + kCacheLineSize) 4104 ->
   4104 <> 0 ->
   exists h',
     AllocateArray 4104 8 (2 ^ 61 + 2) empty_heap
     = Done (aligned_of 4104) h' /\
     blocks h'
     = <[4104 := ((2 ^ 61 + 2) * 8) mod 2 ^ 64 + kCacheLineSize]>
         (blocks empty_heap) /\
     4104 + (((2 ^ 61 + 2) * 8) mod 2 ^ 64 + kCacheLineSize)
     < aligned_of 4104 + (2 ^ 61 + 2) * 8).
Proof. apply (AllocateArray_wraps empty_heap 8 (2 ^ 61 + 2) 4104); lia. Defined.

End AllocatorFacts.
